(** * PsyNeuLink Scheduler: a shallow embedding of [PsyNeuLink/scheduling/Scheduler.py]

    The development follows the Python module top-down: the [TimeScale]
    enumeration, the counters kept by [_init_counts], the validation
    methods, and the generator [Scheduler.run] with its three nested loops.

    Python dictionaries keyed by nodes are [gmap]s, Python sets are [gset]s,
    Python integers are [Z]. Exceptions are values of [exn]; a generator is
    rendered as the list of the sets it yields together with its outcome. *)

From stdpp Require Import gmap sets list relations.
From Stdlib Require Import ZArith Lia.

#[global] Set Warnings "-clear-no-such-hyp".

(** ** Time scales *)

(** Modelled from the spec: [PsyNeuLink.Globals.TimeScale.TimeScale], the
    enumeration imported by the scheduler, is not part of the sources at
    hand. The spec lists its members from finest to coarsest. *)
Inductive TimeScale := TIME_STEP | PASS | TRIAL | RUN | LIFE.

#[global] Instance TimeScale_eq_dec : EqDecision TimeScale.
Proof. solve_decision. Defined.

Definition TimeScale_to_nat (ts : TimeScale) : nat :=
  match ts with TIME_STEP => 0 | PASS => 1 | TRIAL => 2 | RUN => 3 | LIFE => 4 end.

Definition TimeScale_of_nat (n : nat) : TimeScale :=
  match n with 0 => TIME_STEP | 1 => PASS | 2 => TRIAL | 3 => RUN | _ => LIFE end.

#[global] Instance TimeScale_countable : Countable TimeScale.
Proof.
  apply (inj_countable' TimeScale_to_nat TimeScale_of_nat).
  by intros [].
Defined.

(** [for ts in TimeScale] *)
Definition all_TimeScale : list TimeScale := [TIME_STEP; PASS; TRIAL; RUN; LIFE].

(** ** Exceptions and outcomes *)

Inductive exn :=
  | SchedulerError    (* raised by the scheduler itself *)
  | KeyError          (* a dictionary indexed by a missing key *)
  | TypeError         (* [None] used where a dictionary is expected *)
  | AttributeError    (* [None.is_satisfied()] *)
  | CyclicGraphError. (* raised by the layering of a cyclic graph *)

(** The outcome of a call: a value, an exception, or fuel exhausted (only
    loops that Python does not bound can run out of fuel). *)
Inductive result (A : Type) :=
  | Ok (a : A)
  | Raise (e : exn)
  | OutOfFuel.
Arguments Ok {A} a.
Arguments Raise {A} e.
Arguments OutOfFuel {A}.

Definition rbind {A B} (r : result A) (f : A → result B) : result B :=
  match r with
  | Ok a => f a
  | Raise e => Raise e
  | OutOfFuel => OutOfFuel
  end.

#[global] Instance result_bind : MBind result := λ A B f r, rbind r f.
#[global] Instance result_ret : MRet result := @Ok.
#[global] Instance result_fmap : FMap result := λ A B f r, rbind r (λ a, Ok (f a)).

(** [d[k] is None] for a dictionary lookup [d !! k]: the key is there and
    its value is [None]. *)
Definition maps_to_None {A} (entry : option (option A)) : bool :=
  match entry with
  | Some None => true
  | _ => false
  end.

(** [d[k]] for reading: [KeyError] when the key is missing. *)
Definition getitem `{Countable K} {V} (d : gmap K V) (k : K) : result V :=
  match d !! k with
  | Some v => Ok v
  | None => Raise KeyError
  end.

(** A loop body run over a list, left to right, stopping at the first
    exception. *)
Fixpoint for_each {A S} (body : A → S → result S) (l : list A) (s : S) : result S :=
  match l with
  | [] => Ok s
  | x :: l' => rbind (body x s) (for_each body l')
  end.

Section Scheduler.

Context {node : Type} `{Hnode : Countable node}.

(** ** Conditions *)

(** A Condition object as the scheduler sees it: the predicate [body] (of a
    type [C] left to the condition library), the [owner] it was registered
    for, and whether its [scheduler] attribute is set ([false] is Python's
    [None]). *)
Record Condition (C : Type) := mkCondition {
  body : C;
  owner : option node;
  scheduler : bool;
}.
#[global] Arguments mkCondition {C} _ _ _.
#[global] Arguments body {C} _.
#[global] Arguments owner {C} _.
#[global] Arguments scheduler {C} _.

(** ** The entries of the consideration queue *)

(** [self.consideration_queue = list(toposort_ordering)] keeps whatever
    objects the caller passed, and [run] asks [iter()] of an entry before it
    loops over it (lines 426-431). [Iterable l] is an entry that can be
    iterated and gives the nodes [l], in this order; [NotIterable] is any
    object on which [iter()] raises [TypeError], such as a node or a number
    in a flat ordering. *)
Inductive queue_entry :=
  | Iterable (l : list node)
  | NotIterable.

(** [n in entry], for the entries that have members. *)
#[global] Instance queue_entry_elem_of : ElemOf node queue_entry :=
  λ n entry, match entry with Iterable l => n ∈ l | NotIterable => False end.

#[global] Instance queue_entry_elem_of_dec (n : node) (entry : queue_entry) :
  Decision (n ∈ entry).
Proof. destruct entry as [l|]; [apply (list_elem_of_dec n l)|right; intros []]. Defined.

(** ** The scheduler object *)

(** The attributes of a [Scheduler]. The dictionaries keyed by [TimeScale]
    ([times], [counts_total]) always hold all five scales and are total
    functions here; the dictionaries keyed by nodes are finite maps. A layer
    of the consideration queue is the list of its nodes in the order the
    [for] loop visits them, or an object that cannot be iterated. *)

Record Scheduler (C : Type) := mkScheduler {
  condition_set : gmap node (Condition C);
  execution_list : list (gset node);
  consideration_queue : list queue_entry;
  termination_conds : option (gmap TimeScale (option (Condition C)));
  nodes : list node;
  (* times[p][q]: the number of q ticks in the current p *)
  times : TimeScale → TimeScale → Z;
  (* counts_total[ts][n] *)
  counts_total : TimeScale → gmap node Z;
  (* counts_useable[a][b] *)
  counts_useable : gmap node (gmap node Z);
}.
#[global] Arguments mkScheduler {C} _ _ _ _ _ _ _ _.
#[global] Arguments condition_set {C} _.
#[global] Arguments execution_list {C} _.
#[global] Arguments consideration_queue {C} _.
#[global] Arguments termination_conds {C} _.
#[global] Arguments nodes {C} _.
#[global] Arguments times {C} _ _ _.
#[global] Arguments counts_total {C} _ _.
#[global] Arguments counts_useable {C} _.

Section Setters.
Context {C : Type}.
Implicit Types s : Scheduler C.

Definition set_condition_set s v :=
  mkScheduler v (execution_list s) (consideration_queue s) (termination_conds s)
    (nodes s) (times s) (counts_total s) (counts_useable s).
Definition set_execution_list s v :=
  mkScheduler (condition_set s) v (consideration_queue s) (termination_conds s)
    (nodes s) (times s) (counts_total s) (counts_useable s).
Definition set_consideration_queue s v :=
  mkScheduler (condition_set s) (execution_list s) v (termination_conds s)
    (nodes s) (times s) (counts_total s) (counts_useable s).
Definition set_termination_conds s v :=
  mkScheduler (condition_set s) (execution_list s) (consideration_queue s) v
    (nodes s) (times s) (counts_total s) (counts_useable s).
Definition set_times s v :=
  mkScheduler (condition_set s) (execution_list s) (consideration_queue s)
    (termination_conds s) (nodes s) v (counts_total s) (counts_useable s).
Definition set_counts_total s v :=
  mkScheduler (condition_set s) (execution_list s) (consideration_queue s)
    (termination_conds s) (nodes s) (times s) v (counts_useable s).
Definition set_nodes s v :=
  mkScheduler (condition_set s) (execution_list s) (consideration_queue s)
    (termination_conds s) v (times s) (counts_total s) (counts_useable s).
Definition set_counts_useable s v :=
  mkScheduler (condition_set s) (execution_list s) (consideration_queue s)
    (termination_conds s) (nodes s) (times s) (counts_total s) v.

(** ** Counters *)

(** [{n: 0 for n in self.nodes}] *)
Definition zero_row (ns : list node) : gmap node Z :=
  gset_to_gmap 0%Z (list_to_set ns).

(** [{node: {n: 0 for n in self.nodes} for node in self.nodes}] *)
Definition zero_table (ns : list node) : gmap node (gmap node Z) :=
  gset_to_gmap (zero_row ns) (list_to_set ns).

(** [_init_counts]: every dictionary keyed by [TimeScale] gets all five
    keys here and never gains or loses one, so these are total functions. *)
Definition _init_counts s : Scheduler C :=
  let s := set_times s (λ _ _, 0%Z) in
  let s := set_counts_useable s (zero_table (nodes s)) in
  set_counts_total s (λ _, zero_row (nodes s)).

(** [_reset_count(count, time_scale)]: every entry of [count[time_scale]]
    becomes 0. *)
Definition _reset_count (count : TimeScale → gmap node Z) (time_scale : TimeScale)
  : TimeScale → gmap node Z :=
  λ ts, if decide (ts = time_scale) then (λ _, 0%Z) <$> count ts else count ts.

(** [_increment_time(time_scale)]: [times[ts][time_scale] += 1] for all [ts]. *)
Definition _increment_time s (time_scale : TimeScale) : Scheduler C :=
  set_times s (λ ts q, if decide (q = time_scale) then (times s ts q + 1)%Z
                       else times s ts q).

(** [_reset_time(time_scale)]: [times[time_scale][ts] = 0] for all [ts]. *)
Definition _reset_time s (time_scale : TimeScale) : Scheduler C :=
  set_times s (λ p ts, if decide (p = time_scale) then 0%Z else times s p ts).

(** [counts_useable[a][b]], when both keys exist. *)
Definition credit (useable : gmap node (gmap node Z)) (a b : node) : option Z :=
  row ← useable !! a; row !! b.

(** The counters of a scheduler have a cell for every node: this is how
    [_init_counts] and the reset at the start of [run] leave them. *)
Definition counters_cover s (ns : gset node) : Prop :=
  (∀ ts, dom (counts_total s ts) = ns) ∧
  dom (counts_useable s) = ns ∧
  (∀ n row, counts_useable s !! n = Some row → dom row = ns).

(** *** Recording an execution (lines 459-468 of [run]) *)

(** [for ts in TimeScale: self.counts_total[ts][current_node] += 1] *)
Definition incr_total (current_node : node) (ts : TimeScale)
    (count : TimeScale → gmap node Z) : result (TimeScale → gmap node Z) :=
  (c ← getitem (count ts) current_node ;
   Ok (λ ts', if decide (ts' = ts) then <[current_node := (c + 1)%Z]> (count ts)
              else count ts')).

(** [for n in self.counts_useable: self.counts_useable[n][current_node] = 0].
    An assignment creates the entry when the row lacks it. *)
Definition consume_credit (current_node : node) (useable : gmap node (gmap node Z))
  : gmap node (gmap node Z) :=
  (λ row, <[current_node := 0%Z]> row) <$> useable.

(** [self.counts_useable[current_node][n] += 1], one iteration. *)
Definition grant_credit (current_node n : node) (useable : gmap node (gmap node Z))
  : result (gmap node (gmap node Z)) :=
  (row ← getitem useable current_node ;
   c ← getitem row n ;
   Ok (<[current_node := <[n := (c + 1)%Z]> row]> useable)).

(** The three loops run when [current_node] is added to the time step. The
    keys of [counts_useable] are visited in the order [elements] lists them;
    the iterations commute, so the order Python picks gives the same table. *)
Definition record_execution s (current_node : node) : result (Scheduler C) :=
  (total ← for_each (incr_total current_node) all_TimeScale (counts_total s) ;
   let useable := consume_credit current_node (counts_useable s) in
   useable ← for_each (grant_credit current_node) (elements (dom useable)) useable ;
   Ok (set_counts_useable (set_counts_total s total) useable)).

End Setters.

(** ** The condition library, as an interface *)

(** [PsyNeuLink/scheduling/condition.py] is not part of the sources at hand.
    The run loop only calls [is_satisfied()] on Condition objects and
    constructs [Always()] and [AllHaveRun()]; this class is that interface.
    A condition reads the scheduler and, for [While]-style predicates, the
    state [Env] of the world outside the scheduler; it returns a boolean or
    raises, and changes nothing. *)
Class ConditionLib (C Env : Type) := {
  is_satisfied : Condition C → Env → Scheduler C → result bool;
  (* evaluating a condition comes to an end *)
  is_satisfied_returns : ∀ c env s, is_satisfied c env s ≠ OutOfFuel;
  Always : C;
  AllHaveRun : C;
}.

(** Modelled from the spec: [ConditionSet.add_condition(owner, condition)],
    which is missing with the rest of condition.py: the condition is bound
    to its owner and to the scheduler of the set and stored under [owner]. *)
Definition add_condition {C} (s : Scheduler C) (owner_ : node) (condition : Condition C)
  : Scheduler C :=
  set_condition_set s
    (<[owner_ := mkCondition (body condition) (Some owner_) true]> (condition_set s)).

(** A freshly constructed Condition: no owner, no scheduler. *)
Definition new_condition {C} (c : C) : Condition C := mkCondition c None false.

(** [condition.scheduler = self] *)
Definition bind_scheduler {C} (c : Condition C) : Condition C :=
  mkCondition (body c) (owner c) true.

Section Validation.
Context {C Env : Type} `{!ConditionLib C Env}.
Implicit Types s : Scheduler C.

(** [_validate_condition_set]: nodes without a Condition get [Always()]. *)
Definition _validate_condition_set s : Scheduler C :=
  foldl (λ s node_,
           if decide (node_ ∈ dom (condition_set s)) then s
           else add_condition s node_ (new_condition Always))
        s (nodes s).

(** [__contains__(item)]: whether the condition set has an entry for
    [item]. Modelled from the spec: [ConditionSet.__contains__], to which the
    method delegates, is missing with the rest of condition.py; the
    condition set is the mapping from node to Condition. *)
Definition __contains__ s (item : node) : bool :=
  bool_decide (item ∈ dom (condition_set s)).

(** The body of [for tc in self.termination_conds]. *)
Definition validate_termination_entry (tc : TimeScale)
    (conds : gmap TimeScale (option (Condition C)))
  : result (gmap TimeScale (option (Condition C))) :=
  entry ← getitem conds tc;
  match entry with
  | None =>
      if decide (tc ∈ [TRIAL]) then Raise SchedulerError else Ok conds
  | Some c =>
      if scheduler c then Ok conds
      else Ok (<[tc := Some (bind_scheduler c)]> conds)
  end.

(** [_validate_termination] *)
Definition _validate_termination s : result (Scheduler C) :=
  let conds :=
    match termination_conds s with
    | None => gset_to_gmap (Some (new_condition AllHaveRun)) (list_to_set all_TimeScale)
    | Some conds => conds
    end in
  conds ← for_each validate_termination_entry (elements (dom conds)) conds;
  Ok (set_termination_conds s (Some conds)).

(** [_validate_run_state] *)
Definition _validate_run_state s : result (Scheduler C) :=
  _validate_termination (_validate_condition_set s).

End Validation.

(** ** The generator [run] *)

(** A generator run to completion: the sets it yielded, in order, and how
    it ended. The sets yielded before an exception are kept. *)
Definition gen (A : Type) : Type := list (gset node) * result A.

Definition gen_bind {A B} (f : A → gen B) (g : gen A) : gen B :=
  match g with
  | (ys, Ok a) => let '(ys', r) := f a in (ys ++ ys', r)
  | (ys, Raise e) => (ys, Raise e)
  | (ys, OutOfFuel) => (ys, OutOfFuel)
  end.

#[global] Instance gen_mbind : MBind gen := @gen_bind.
#[global] Instance gen_mret : MRet gen := λ A a, ([], Ok a).

Definition lift {A} (r : result A) : gen A := ([], r).

Section Run.
Context {C Env : Type} `{!ConditionLib C Env}.
Implicit Types s : Scheduler C.

(** What the consumer of the generator does with a yielded set before it
    asks for the next one: it executes the nodes, which may change the
    world that [While]-style conditions look at. *)
Variable caller : gset node → Env → Env.

(** [yield x]: the set is handed out and the consumer acts. *)
Definition yield_ (x : gset node) (env : Env) : gen Env := ([x], Ok (caller x env)).

(** [self.termination_conds[TimeScale.TRIAL].is_satisfied()] *)
Definition trial_terminated (env : Env) s : result bool :=
  match termination_conds s with
  | None => Raise TypeError
  | Some conds =>
      entry ← getitem conds TRIAL;
      match entry with
      | None => Raise AttributeError
      | Some c => is_satisfied c env s
      end
  end.

(** The local variables of [run] that the scan of a layer reads and writes. *)
Record frame := mkFrame {
  self : Scheduler C;
  cur_time_step_exec : gset node;
  execution_list_has_changed : bool;
  cur_consideration_set_has_changed : bool;
}.

(** The body of [for current_node in cur_consideration_set] (lines 441-468). *)
Definition consider (env : Env) (current_node : node) (f : frame) : result frame :=
  if decide (current_node ∉ cur_time_step_exec f) then
    c ← getitem (condition_set (self f)) current_node;
    sat ← is_satisfied c env (self f);
    if sat : bool then
      s' ← record_execution (self f) current_node;
      Ok (mkFrame s' ({[current_node]} ∪ cur_time_step_exec f) true true)
    else Ok f
  else Ok f.

(** One full scan of the layer. *)
Definition scan (env : Env) (cur_consideration_set : list node) (f : frame) : result frame :=
  for_each (consider env) cur_consideration_set f.

(** The do-while on [cur_consideration_set_has_changed] (lines 439-471); one
    unit of fuel is one full scan. *)
Fixpoint layer_loop (fuel : nat) (env : Env) (cur_consideration_set : list node)
    (f : frame) : result frame :=
  match fuel with
  | O => OutOfFuel
  | S fuel' =>
      f' ← scan env cur_consideration_set
             (mkFrame (self f) (cur_time_step_exec f) (execution_list_has_changed f) false);
      if cur_consideration_set_has_changed f'
      then layer_loop fuel' env cur_consideration_set f'
      else Ok f'
  end.

(** The scans of one layer, starting from an empty time step. The layer is
    given |layer| + 1 scans, which the proofs below show to be all it
    can use. *)
Definition consider_layer (env : Env) (cur_consideration_set : list node) s
    (changed : bool) : result frame :=
  layer_loop (S (length cur_consideration_set)) env cur_consideration_set
    (mkFrame s ∅ changed false).

(** Lines 473-478: a non-empty time step is appended to the history and
    yielded, and the TIME_STEP clock advances. *)
Definition emit_time_step (env : Env) s (cur_time_step_exec_ : gset node)
  : gen (Env * Scheduler C) :=
  if decide (1 ≤ size cur_time_step_exec_) then
    let s := set_execution_list s (execution_list s ++ [cur_time_step_exec_]) in
    env ← yield_ cur_time_step_exec_ env;
    mret (env, _increment_time s TIME_STEP)
  else mret (env, s).

(** The inner [while] (lines 418-480), by recursion on the layers from
    [cur_index_consideration_queue] on. The termination condition is only
    evaluated while layers are left, as in Python's [and]. An entry that
    cannot be iterated makes [iter()] raise [TypeError], which lines 426-431
    turn into [SchedulerError]. *)
Fixpoint walk (queue : list queue_entry) (env : Env) s (changed : bool)
  : gen (Env * Scheduler C * bool) :=
  match queue with
  | [] => mret (env, s, changed)
  | cur_consideration_set :: queue' =>
      stop ← lift (trial_terminated env s);
      if stop : bool then mret (env, s, changed)
      else
        match cur_consideration_set with
        | NotIterable => lift (Raise SchedulerError)
        | Iterable cur_consideration_set =>
            f ← lift (consider_layer env cur_consideration_set s changed);
            '(env, s) ← emit_time_step env (self f) (cur_time_step_exec f);
            walk queue' env s (execution_list_has_changed f)
        end
  end.

(** Lines 482-487: the empty time step of a pass in which nothing ran. *)
Definition emit_stalled_pass (env : Env) s (changed : bool) : gen (Env * Scheduler C) :=
  if changed then mret (env, s)
  else
    let s := set_execution_list s (execution_list s ++ [∅]) in
    env ← yield_ ∅ env;
    mret (env, _increment_time s TIME_STEP).

(** Lines 412-413: what every PASS resets first. *)
Definition reset_pass s : Scheduler C :=
  let s := set_counts_total s (_reset_count (counts_total s) PASS) in
  _reset_time s PASS.

(** The body of the outer [while] (lines 412-492): one PASS. *)
Definition run_pass (env : Env) s : gen (Env * Scheduler C) :=
  let s := reset_pass s in
  '(env, s, changed) ← walk (consideration_queue s) env s false;
  '(env, s) ← emit_stalled_pass env s changed;
  mret (env, _increment_time s PASS).

(** The outer [while] (line 411); one unit of fuel is one evaluation of
    its condition, so a trial of n passes needs n + 1. *)
Fixpoint trial_loop (fuel : nat) (env : Env) s : gen (Env * Scheduler C) :=
  match fuel with
  | O => lift OutOfFuel
  | S fuel' =>
      stop ← lift (trial_terminated env s);
      if stop : bool then mret (env, s)
      else
        '(env, s) ← run_pass env s;
        trial_loop fuel' env s
  end.

(** Lines 407-409: what [run] resets before its first PASS. *)
Definition reset_trial s : Scheduler C :=
  let s := set_counts_useable s (zero_table (nodes s)) in
  let s := set_counts_total s (_reset_count (counts_total s) TRIAL) in
  _reset_time s TRIAL.

(** [run(termination_conds)]: the sets yielded, and on normal exhaustion
    the returned [execution_list] with the final world and scheduler. The
    local function [has_reached_termination] of lines 397-405 is never
    called and is left out. *)
Definition run (fuel : nat) (termination_conds_ : option (gmap TimeScale (option (Condition C))))
    (env : Env) s : gen (list (gset node) * Env * Scheduler C) :=
  let s := set_termination_conds s termination_conds_ in
  s ← lift (_validate_run_state s);
  let s := reset_trial s in
  '(env, s) ← trial_loop fuel env s;
  let s := _increment_time s TRIAL in
  mret (execution_list s, env, s).

(** The PASS that starts at [s] walks the whole consideration queue: the
    TRIAL termination Condition does not hold at the start of any layer, so
    the inner [while] ends because [cur_index_consideration_queue] has
    reached the length of the queue. *)
Definition walks_whole_queue (env : Env) s : Prop :=
  ∀ q1 q2 ys env1 s1 changed1,
    consideration_queue s = q1 ++ q2 → q2 ≠ [] →
    walk q1 env (reset_pass s) false = (ys, Ok (env1, s1, changed1)) →
    trial_terminated env1 s1 = Ok false.

(** *** How a scan relates the locals before and after it *)

(** The number of yielded sets that contain [X]. *)
Definition occurrences (X : node) (ys : list (gset node)) : Z :=
  Z.of_nat (length (filter (λ y, X ∈ y) ys)).

(** The attributes of the scheduler that selecting nodes leaves alone. *)
Definition same_settings s s' : Prop :=
  condition_set s' = condition_set s ∧ execution_list s' = execution_list s ∧
  consideration_queue s' = consideration_queue s ∧
  termination_conds s' = termination_conds s ∧ nodes s' = nodes s ∧
  times s' = times s.

(** [plus_if P c]: [c + 1] when [P] holds, [c] otherwise. *)
Definition plus_if (P : Prop) `{!Decision P} (c : Z) : Z :=
  if decide P then (c + 1)%Z else c.

(** From [f] to [f']: the time step only gains nodes,
    [execution_list_has_changed] records whether it gained any, and the
    total count of a node went up by one exactly when the node was gained. *)
Definition grows (f f' : frame) : Prop :=
  cur_time_step_exec f ⊆ cur_time_step_exec f' ∧
  execution_list_has_changed f' =
    execution_list_has_changed f ||
    bool_decide (cur_time_step_exec f' ≠ cur_time_step_exec f) ∧
  (∀ ts X, counts_total (self f') ts !! X =
           plus_if (X ∈ cur_time_step_exec f' ∖ cur_time_step_exec f)
             <$> counts_total (self f) ts !! X) ∧
  (∀ ts X, X ∈ cur_time_step_exec f' ∖ cur_time_step_exec f →
           is_Some (counts_total (self f) ts !! X)) ∧
  same_settings (self f) (self f').

(** From [s] to [s'] the sets [ys] were yielded: they were appended to the
    history, the TIME_STEP clocks advanced once per set, the total counts
    of a node grew by the number of sets it is in, and nothing else of
    what the run loop reads was touched. *)
Definition advances (ys : list (gset node)) s s' : Prop :=
  execution_list s' = execution_list s ++ ys ∧
  (∀ ts X, counts_total s' ts !! X =
           (λ c, c + occurrences X ys)%Z <$> counts_total s ts !! X) ∧
  (∀ X, X ∈ ⋃ ys → ∀ ts, is_Some (counts_total s ts !! X)) ∧
  (∀ ts q, times s' ts q =
           if decide (q = TIME_STEP) then (times s ts q + Z.of_nat (length ys))%Z
           else times s ts q) ∧
  condition_set s' = condition_set s ∧
  consideration_queue s' = consideration_queue s ∧
  termination_conds s' = termination_conds s ∧
  nodes s' = nodes s.

(** *** What the passes of [run] need of the scheduler *)

(** The scheduler as the passes need it, over the nodes [ns] and the
    consideration queue [queue]: a counter for every node and every pair of
    nodes, a Condition for every node, only nodes in the entries of the
    queue that can be iterated, and a Condition for the end of the TRIAL. *)
Definition ready (ns : list node) (queue : list queue_entry) s : Prop :=
  nodes s = ns ∧
  consideration_queue s = queue ∧
  counters_cover s (list_to_set ns) ∧
  (∀ X, X ∈ ns → is_Some (condition_set s !! X)) ∧
  (∀ entry X, entry ∈ queue → X ∈ entry → X ∈ ns) ∧
  ∃ conds c, termination_conds s = Some conds ∧ conds !! TRIAL = Some (Some c).

(** The exception [e] is one that evaluating a Condition raised. *)
Definition from_condition (e : exn) : Prop :=
  ∃ c env s, is_satisfied c env s = Raise e.

(** The exception [e] is the [SchedulerError] of lines 426-431, and
    [queue] has an entry that cannot be iterated. *)
Definition from_entry (queue : list queue_entry) (e : exn) : Prop :=
  e = SchedulerError ∧ NotIterable ∈ queue.

(** An outcome that is a value with the property [P], or one of the
    exceptions [allowed]. *)
Definition safely {A} (allowed : exn → Prop) (P : A → Prop) (r : result A) : Prop :=
  match r with
  | Ok a => P a
  | Raise e => allowed e
  | OutOfFuel => True
  end.

(** The credit of [a] usable by [b] lies between 0 and the number of times
    [a] has run in the trial. *)
Definition credit_bounded s : Prop :=
  ∀ a b c, credit (counts_useable s) a b = Some c →
    ∃ t, counts_total s TRIAL !! a = Some t ∧ (0 ≤ c ≤ t)%Z.

End Run.

(** ** Construction *)

(** Modelled from the spec: the [toposort] function that
    [_init_consideration_queue_from_system] imports is not part of the
    sources at hand. The dependency graph maps a node to the set of nodes
    that must come before it. The layering repeatedly extracts the remaining
    nodes with no remaining prerequisite, appends them as the next layer and
    removes them; when nodes remain and none can be extracted the graph has
    a cycle and [CyclicGraphError] is raised. *)
Definition prerequisites (graph : gmap node (gset node)) (n : node) : gset node :=
  default ∅ (graph !! n).

(** The nodes of a graph: its keys and every node they name. *)
Definition graph_nodes (graph : gmap node (gset node)) : gset node :=
  dom graph ∪ ⋃ (snd <$> map_to_list graph).

Definition extractable (graph : gmap node (gset node)) (remaining : gset node) : gset node :=
  filter (λ n, prerequisites graph n ## remaining) remaining.

(** Modelled from the spec: the rounds of the layering of section 4.1, on
    the nodes that remain. *)
Fixpoint layering (fuel : nat) (graph : gmap node (gset node)) (remaining : gset node)
  : result (list (gset node)) :=
  if decide (remaining = ∅) then Ok []
  else match fuel with
       | O => OutOfFuel
       | S fuel' =>
           let layer := extractable graph remaining in
           if decide (layer = ∅) then Raise CyclicGraphError
           else rest ← layering fuel' graph (remaining ∖ layer); Ok (layer :: rest)
       end.

(** [depends_on graph b a]: [a] is a prerequisite of [b], that is, the graph
    has the edge a → b. A graph is acyclic when no node depends on itself
    through one or more edges. *)
Definition depends_on (graph : gmap node (gset node)) (b a : node) : Prop :=
  a ∈ prerequisites graph b.

Definition acyclic (graph : gmap node (gset node)) : Prop :=
  ∀ x, ¬ tc (depends_on graph) x x.

Definition has_cycle (graph : gmap node (gset node)) : Prop :=
  ∃ x, tc (depends_on graph) x x.

(** [n] is in layer number [i] of the queue. *)
Definition in_layer {L} `{ElemOf node L} (queue : list L) (i : nat) (n : node) : Prop :=
  ∃ layer, queue !! i = Some layer ∧ n ∈ layer.

(** Modelled from the spec: [toposort(graph)]. Every round removes a node,
    so one unit of fuel per node is enough. *)
Definition toposort (graph : gmap node (gset node)) : result (list (gset node)) :=
  layering (size (graph_nodes graph)) graph (graph_nodes graph).

(** Modelled from the spec: the System handed to the constructor, of which
    the scheduler reads an ordered node list and a dependency graph. *)
Record System := mkSystem {
  executionList : list node;
  executionGraph : gmap node (gset node);
}.

Section Construction.
Context {C : Type}.

(** [_init_consideration_queue_from_system]: the scheduler after the call
    and how the call ended. [list(toposort(...))] is evaluated before
    anything is assigned; each layer is copied into a fresh set, which can be
    iterated and is listed here in the order [elements] gives. *)
Definition _init_consideration_queue_from_system (s : Scheduler C) (system : System)
  : Scheduler C * result unit :=
  match toposort (executionGraph system) with
  | Ok dependencies =>
      (set_consideration_queue s ((λ new_set, Iterable (elements new_set)) <$> dependencies),
       Ok ())
  | Raise e => (s, Raise e)
  | OutOfFuel => (s, OutOfFuel)
  end.

(** [Scheduler.__init__] *)
Definition __init__ (system : option System)
    (condition_set_ : option (gmap node (Condition C)))
    (nodes_ : option (list node)) (toposort_ordering : option (list queue_entry))
  : result (Scheduler C) :=
  let s := mkScheduler (default ∅ condition_set_) [] [] None [] (λ _ _, 0%Z) (λ _, ∅) ∅ in
  s ← match system with
      | Some system =>
          let s := set_nodes s (executionList system) in
          let r := _init_consideration_queue_from_system s system in
          _ ← r.2; Ok r.1
      | None =>
          match nodes_ with
          | Some nodes_ =>
              let s := set_nodes s nodes_ in
              match toposort_ordering with
              | None => Raise SchedulerError
              | Some ordering => Ok (set_consideration_queue s ordering)
              end
          | None => Raise SchedulerError
          end
      end;
  Ok (_init_counts s).

End Construction.

End Scheduler.

Arguments System node {_ _}.
Arguments Scheduler node {_ _} C.
Arguments Condition node C : clear implicits.
Arguments ConditionLib node {_ _} C Env.
Arguments frame node {_ _} C.
Arguments queue_entry node : clear implicits.

(** ** The condition library *)

Module condition.
Section Conditions.
Context {node : Type} `{Hnode : Countable node} {Env : Type}.

(** Modelled from the spec: the Condition primitives and combinators of
    condition.py, which is not part of the sources at hand, with the
    semantics section 3 of the spec gives them. A condition that refers to
    a node the scheduler has no counter for raises [SchedulerError]
    (section 4.3). *)
#[warnings="-register-all"]
Inductive Cond :=
  | Always
  | AtPass (n : Z)
  | EveryNCalls (other : node) (n : Z)
  | AfterNCalls (other : node) (n : Z) (time_scale : TimeScale)
  | AllHaveRun (time_scale : TimeScale)
  | While (predicate_fn : Env → bool)
  | All (conds : list Cond)
  | Any (conds : list Cond)
  | Not (cond : Cond).

Definition at_least (n : Z) (count : option Z) : result bool :=
  match count with
  | Some c => Ok (bool_decide (n ≤ c)%Z)
  | None => Raise SchedulerError
  end.

(** Modelled from the spec: [is_satisfied()] for these conditions, on the
    owner the condition was registered for. *)
Fixpoint eval (c : Cond) (owner_ : option node) (env : Env) (s : Scheduler node Cond)
  : result bool :=
  match c with
  | Always => Ok true
  | AtPass n => Ok (bool_decide (times s TRIAL PASS = n))
  | EveryNCalls other n =>
      at_least n (o ← owner_; row ← counts_useable s !! other; row !! o)
  | AfterNCalls other n time_scale =>
      at_least n (counts_total s time_scale !! other)
  | AllHaveRun time_scale =>
      (fix every ns :=
         match ns with
         | [] => Ok true
         | n :: ns' =>
             b ← at_least 1 (counts_total s time_scale !! n);
             if b : bool then every ns' else Ok false
         end) (nodes s)
  | While predicate_fn => Ok (predicate_fn env)
  | All conds =>
      (fix every cs :=
         match cs with
         | [] => Ok true
         | c' :: cs' => b ← eval c' owner_ env s; if b : bool then every cs' else Ok false
         end) conds
  | Any conds =>
      (fix some cs :=
         match cs with
         | [] => Ok false
         | c' :: cs' => b ← eval c' owner_ env s; if b : bool then Ok true else some cs'
         end) conds
  | Not cond => b ← eval cond owner_ env s; Ok (negb b)
  end.

Lemma at_least_returns n count : at_least n count ≠ OutOfFuel.
Proof. by destruct count. Qed.

Fixpoint eval_returns (c : Cond) owner_ env s {struct c} :
  eval c owner_ env s ≠ OutOfFuel.
Proof.
  destruct c as [|n|other n|other n ts|ts|f|conds|conds|c]; simpl; try done;
    try apply at_least_returns.
  - induction (nodes s) as [|n ns IH]; [done|].
    pose proof (at_least_returns 1 (counts_total s ts !! n)) as Hn.
    destruct (at_least 1 (counts_total s ts !! n)) as [[]| |]; simpl; done.
  - revert conds. fix IH 1. intros [|c' cs]; [done|].
    pose proof (eval_returns c' owner_ env s) as Hc.
    destruct (eval c' owner_ env s) as [[]| |]; simpl; [apply IH|done..].
  - revert conds. fix IH 1. intros [|c' cs]; [done|].
    pose proof (eval_returns c' owner_ env s) as Hc.
    destruct (eval c' owner_ env s) as [[]| |]; simpl; [done|apply IH|done..].
  - pose proof (eval_returns c owner_ env s) as Hc.
    destruct (eval c owner_ env s); simpl; done.
Qed.

#[export] Instance lib : ConditionLib node Cond Env :=
  @Build_ConditionLib node _ _ Cond Env
    (λ c env s, eval (body c) (owner c) env s)
    (λ c env s, eval_returns (body c) (owner c) env s)
    Always (AllHaveRun TRIAL).

End Conditions.
Arguments Cond node Env : clear implicits.
End condition.

(** ** The linear chain A → B → C of the module's first example *)

Module LinearChain.

Inductive mech := A | B | C.

#[global] Instance mech_eq_dec : EqDecision mech.
Proof. solve_decision. Defined.

#[global] Instance mech_countable : Countable mech.
Proof.
  apply (inj_countable'
           (λ m, match m with A => 0 | B => 1 | C => 2 end)
           (λ n, match n with 0 => A | 1 => B | _ => C end)).
  by intros [].
Defined.

Import condition.

(** [s = system(processes=[process(pathway=[A, B, C])])] *)
Definition s : System mech :=
  mkSystem [A; B; C] (<[A := ∅]> (<[B := {[A]}]> (<[C := {[B]}]> ∅))).

(** A System in which A and B project to each other. *)
Definition recurrent : System mech :=
  mkSystem [A; B] (<[A := {[B]}]> (<[B := {[A]}]> ∅)).

(** [my_scheduler = Scheduler(system=s)] followed by the two
    [add_condition] calls. *)
Definition my_scheduler : result (Scheduler mech (Cond mech unit)) :=
  sched ← __init__ (Some s) None None None;
  let sched := add_condition sched B (new_condition (EveryNCalls A 2)) in
  let sched := add_condition sched C (new_condition (EveryNCalls B 3)) in
  Ok sched.

(** The consumer of [list(my_scheduler.run())] only collects the sets. *)
Definition collect : gset mech → unit → unit := λ _ env, env.

(** The scheduler object once constructed. *)
Definition constructed : Scheduler mech (Cond mech unit) :=
  match my_scheduler with
  | Ok sched => sched
  | _ => mkScheduler ∅ [] [] None [] (λ _ _, 0%Z) (λ _, ∅) ∅
  end.

(** [execution_sequence = list(my_scheduler.run())] *)
Definition execution_sequence (fuel : nat)
  : gen (list (gset mech) * unit * Scheduler mech (Cond mech unit)) :=
  run collect fuel None () constructed.

(** The sequence the module's documentation announces. *)
Definition expected : list (gset mech) :=
  [{[A]}; {[A]}; {[B]}; {[A]}; {[A]}; {[B]}; {[A]}; {[A]}; {[B]}; {[C]}].

(** The scheduler after that run, and after a second [run()] on it. *)
Definition finished : Scheduler mech (Cond mech unit) :=
  match (execution_sequence 7).2 with
  | Ok (_, _, sched) => sched
  | _ => constructed
  end.

Definition finished_again : Scheduler mech (Cond mech unit) :=
  match (run collect 7 None () finished).2 with
  | Ok (_, _, sched) => sched
  | _ => constructed
  end.

(** [termination_conds = {ts: None for ts in TimeScale}] with only the
    TRIAL entry filled in, as in the module's second example. *)
Definition only_trial (c : Cond mech unit)
  : option (gmap TimeScale (option (Condition mech (Cond mech unit)))) :=
  Some (<[TRIAL := Some (new_condition c)]> (gset_to_gmap None (list_to_set all_TimeScale))).

(** The scheduler as [run(termination_conds)] has it when the first PASS
    begins: validated, with the trial counters reset. *)
Definition started_with (termination_conds_ : option (gmap TimeScale (option (Condition mech (Cond mech unit)))))
  : Scheduler mech (Cond mech unit) :=
  match _validate_run_state (set_termination_conds constructed termination_conds_) with
  | Ok sched => reset_trial sched
  | _ => constructed
  end.

Definition started : Scheduler mech (Cond mech unit) := started_with None.

(** The locals of [run] when the scan of the first layer begins, and after
    it has considered [A]. *)
Definition first_frame : frame mech (Cond mech unit) := mkFrame started ∅ false false.

Definition after_A : frame mech (Cond mech unit) :=
  match consider () A first_frame with
  | Ok f => f
  | _ => first_frame
  end.

(** The scheduler after the first layer of the first PASS. *)
Definition after_first_layer (termination_conds_ : option (gmap TimeScale (option (Condition mech (Cond mech unit)))))
  : Scheduler mech (Cond mech unit) :=
  match (walk collect [Iterable [A]] ()
           (reset_pass (started_with termination_conds_)) false).2 with
  | Ok (_, sched, _) => sched
  | _ => constructed
  end.

(** Two TRIAL termination conditions: "A has run", and "A has run and this
    is still the first PASS". *)
Definition until_A := only_trial (AfterNCalls A 1 TRIAL).
Definition until_A_in_first_pass := only_trial (All [AfterNCalls A 1 TRIAL; AtPass 0]).

(** The same scheduler built from a list of nodes and an ordering:
    [Scheduler(nodes=[A, B, C], toposort_ordering=[[A], [B], [C]])]. *)
Definition my_scheduler_from_ordering : result (Scheduler mech (Cond mech unit)) :=
  sched ← __init__ None None (Some [A; B; C])
            (Some [Iterable [A]; Iterable [B]; Iterable [C]]);
  let sched := add_condition sched B (new_condition (EveryNCalls A 2)) in
  let sched := add_condition sched C (new_condition (EveryNCalls B 3)) in
  Ok sched.

(** A scheduler whose only node waits for itself: B runs every time B has
    run, which never happens. *)
Definition waiting : Scheduler mech (Cond mech unit) :=
  match __init__ None None (Some [B]) (Some [Iterable [B]]) with
  | Ok sched =>
      let sched := add_condition sched B (new_condition (EveryNCalls B 1)) in
      match _validate_run_state (set_termination_conds sched None) with
      | Ok sched => reset_trial sched
      | _ => sched
      end
  | _ => constructed
  end.

(** A and B in one layer, A waiting for B: the first scan adds B, the
    second adds A, the third adds nothing. *)
Definition cascade : Scheduler mech (Cond mech unit) :=
  match __init__ None None (Some [A; B]) (Some [Iterable [A; B]]) with
  | Ok sched =>
      let sched := add_condition sched A (new_condition (EveryNCalls B 1)) in
      match _validate_run_state (set_termination_conds sched None) with
      | Ok sched => reset_trial sched
      | _ => sched
      end
  | _ => constructed
  end.



(** A scheduler as validation leaves it at the start of
    [run(termination_conds)]. *)
Definition validated_from (sched : Scheduler mech (Cond mech unit))
    (termination_conds_ : option (gmap TimeScale (option (Condition mech (Cond mech unit)))))
  : Scheduler mech (Cond mech unit) :=
  match _validate_run_state (set_termination_conds sched termination_conds_) with
  | Ok sched' => sched'
  | _ => sched
  end.

(** [Scheduler(nodes=[A], toposort_ordering=[])], when the first PASS of
    [run()] begins: there is nothing to consider. *)
Definition idle : Scheduler mech (Cond mech unit) :=
  match __init__ None None (Some [A]) (Some []) with
  | Ok sched => reset_trial (validated_from sched None)
  | _ => constructed
  end.

(** [Scheduler(nodes=[A], toposort_ordering=[[B]])]: the ordering names a
    node that is not one of the nodes. *)
Definition stray : Scheduler mech (Cond mech unit) :=
  match __init__ None None (Some [A]) (Some [Iterable [B]]) with
  | Ok sched => sched
  | _ => constructed
  end.

(** [Scheduler(nodes=[A, B], toposort_ordering=[A, B])], when the first
    PASS of [run()] begins: a flat ordering, whose entries are nodes and
    cannot be iterated. *)
Definition flat : Scheduler mech (Cond mech unit) :=
  match __init__ None None (Some [A; B]) (Some [NotIterable; NotIterable]) with
  | Ok sched => reset_trial (validated_from sched None)
  | _ => constructed
  end.

(** The same after [add_condition(B, Always())]. *)
Definition stray_with_condition : Scheduler mech (Cond mech unit) :=
  add_condition stray B (new_condition Always).

End LinearChain.

(** * Properties *)

(** ** Outcomes *)

Lemma rbind_Ok {A B} (r : result A) (k : A → result B) b :
  (a ← r; k a) = Ok b → ∃ a, r = Ok a ∧ k a = Ok b.
Proof. destruct r as [a| |]; simpl; [eauto | done | done]. Qed.

Lemma getitem_Ok `{Countable K} {V} (d : gmap K V) k v :
  getitem d k = Ok v ↔ d !! k = Some v.
Proof. unfold getitem. destruct (d !! k); split; congruence. Qed.

Lemma getitem_not_fuel `{Countable K} {V} (d : gmap K V) k :
  getitem d k ≠ OutOfFuel.
Proof. unfold getitem. by destruct (d !! k). Qed.

Lemma for_each_cons {A S} (body : A → S → result S) x l s :
  for_each body (x :: l) s = (s' ← body x s; for_each body l s').
Proof. done. Qed.

Lemma for_each_app {A S} (body : A → S → result S) l1 l2 s :
  for_each body (l1 ++ l2) s = (s' ← for_each body l1 s; for_each body l2 s').
Proof.
  revert s. induction l1 as [|x l1 IH]; intros s; [done|].
  simpl. destruct (body x s); simpl; [apply IH | done | done].
Qed.

(** A loop whose body never runs out of fuel does not either. *)
Lemma for_each_not_fuel {A S} (body : A → S → result S) l s :
  (∀ x s, body x s ≠ OutOfFuel) → for_each body l s ≠ OutOfFuel.
Proof.
  intros Hbody. revert s. induction l as [|x l IH]; intros s; [done|].
  simpl. destruct (body x s) eqn:E; simpl; [apply IH | done | by apply Hbody in E].
Qed.

Ltac inv_bind H :=
  let a := fresh "a" in
  let E := fresh "E" in
  apply rbind_Ok in H as (a & E & H).

Section CounterProperties.
Context {node : Type} `{Hnode : Countable node} {C : Type}.
Implicit Types s : Scheduler node C.
Implicit Types X n m : node.

(** ** [record_execution] *)

Lemma incr_total_Ok X ts count total :
  incr_total X ts count = Ok total →
  ∃ c, count ts !! X = Some c ∧
       total ts = <[X := (c + 1)%Z]> (count ts) ∧
       ∀ ts', ts' ≠ ts → total ts' = count ts'.
Proof.
  unfold incr_total. intros Hrun. inv_bind Hrun. apply getitem_Ok in E.
  injection Hrun as <-. exists a. split; [done|]. split.
  - by rewrite decide_True.
  - intros ts' Hne. by rewrite decide_False.
Qed.

Lemma incr_every_total_Ok X count total :
  for_each (incr_total X) all_TimeScale count = Ok total →
  ∀ ts, ∃ c, count ts !! X = Some c ∧ total ts = <[X := (c + 1)%Z]> (count ts).
Proof.
  unfold all_TimeScale. rewrite !for_each_cons. intros Hrun.
  inv_bind Hrun. rename a into c1, E into E1.
  inv_bind Hrun. rename a into c2, E into E2.
  inv_bind Hrun. rename a into c3, E into E3.
  inv_bind Hrun. rename a into c4, E into E4.
  inv_bind Hrun. rename a into c5, E into E5.
  injection Hrun as <-.
  apply incr_total_Ok in E1 as (x1 & L1 & T1 & O1).
  apply incr_total_Ok in E2 as (x2 & L2 & T2 & O2).
  apply incr_total_Ok in E3 as (x3 & L3 & T3 & O3).
  apply incr_total_Ok in E4 as (x4 & L4 & T4 & O4).
  apply incr_total_Ok in E5 as (x5 & L5 & T5 & O5).
  intros [].
  - exists x1. split; [done|]. rewrite O5, O4, O3, O2 by done. done.
  - exists x2. rewrite O1 in L2, T2 by done. split; [done|].
    rewrite O5, O4, O3 by done. done.
  - exists x3. rewrite O2, O1 in L3, T3 by done. split; [done|].
    rewrite O5, O4 by done. done.
  - exists x4. rewrite O3, O2, O1 in L4, T4 by done. split; [done|].
    rewrite O5 by done. done.
  - exists x5. rewrite O4, O3, O2, O1 in L5, T5 by done. done.
Qed.

Lemma incr_every_total_succeeds X count :
  (∀ ts, is_Some (count ts !! X)) →
  ∃ total, for_each (incr_total X) all_TimeScale count = Ok total.
Proof.
  intros Hkeys. unfold all_TimeScale, for_each, incr_total.
  destruct (Hkeys TIME_STEP) as [c1 E1]. rewrite (proj2 (getitem_Ok _ _ _) E1). simpl.
  destruct (Hkeys PASS) as [c2 E2]. rewrite (proj2 (getitem_Ok _ _ _) E2). simpl.
  destruct (Hkeys TRIAL) as [c3 E3]. rewrite (proj2 (getitem_Ok _ _ _) E3). simpl.
  destruct (Hkeys RUN) as [c4 E4]. rewrite (proj2 (getitem_Ok _ _ _) E4). simpl.
  destruct (Hkeys LIFE) as [c5 E5]. rewrite (proj2 (getitem_Ok _ _ _) E5). simpl.
  eauto.
Qed.

Lemma credit_consume X useable n m :
  credit (consume_credit X useable) n m =
  if decide (m = X) then (if decide (n ∈ dom useable) then Some 0%Z else None)
  else credit useable n m.
Proof.
  unfold credit, consume_credit. rewrite lookup_fmap.
  destruct (useable !! n) as [row|] eqn:E; simpl.
  - case_decide as Hm.
    + subst. rewrite lookup_insert_eq. rewrite decide_True; [done|].
      apply elem_of_dom. eauto.
    + by rewrite lookup_insert_ne.
  - case_decide; [|done]. rewrite decide_False; [done|].
    rewrite elem_of_dom, E. by intros [? ?].
Qed.

Lemma grant_credit_Ok X m useable useable' :
  grant_credit X m useable = Ok useable' →
  ∃ c, credit useable X m = Some c ∧
       credit useable' X m = Some (c + 1)%Z ∧
       dom useable' = dom useable ∧
       (∀ a b, (a, b) ≠ (X, m) → credit useable' a b = credit useable a b) ∧
       (∀ a, dom <$> useable' !! a = dom <$> useable !! a).
Proof.
  unfold grant_credit. intros Hrun.
  inv_bind Hrun. rename a into row. apply getitem_Ok in E.
  inv_bind Hrun. rename a into c, E0 into Ec. apply getitem_Ok in Ec.
  injection Hrun as <-. exists c. unfold credit.
  split; [by rewrite E|]. split; [by rewrite lookup_insert_eq; simpl; rewrite lookup_insert_eq|].
  split.
  { rewrite dom_insert_L. apply elem_of_dom_2 in E. set_solver. }
  split.
  - intros a b Hne. destruct (decide (a = X)) as [->|Ha].
    + rewrite lookup_insert_eq, E. simpl. rewrite lookup_insert_ne; [done|congruence].
    + by rewrite lookup_insert_ne.
  - intros a. destruct (decide (a = X)) as [->|Ha].
    + rewrite lookup_insert_eq, E. simpl. f_equal. rewrite dom_insert_L.
      apply elem_of_dom_2 in Ec. set_solver.
    + by rewrite lookup_insert_ne.
Qed.

Lemma grant_credit_succeeds X m useable row c :
  useable !! X = Some row → row !! m = Some c →
  grant_credit X m useable = Ok (<[X := <[m := (c + 1)%Z]> row]> useable).
Proof.
  intros Hrow Hc. unfold grant_credit.
  rewrite (proj2 (getitem_Ok _ _ _) Hrow). simpl.
  by rewrite (proj2 (getitem_Ok _ _ _) Hc).
Qed.

Lemma grant_every_credit_Ok X l useable useable' :
  NoDup l →
  for_each (grant_credit X) l useable = Ok useable' →
  dom useable' = dom useable ∧
  (∀ m, m ∈ l → ∃ c, credit useable X m = Some c ∧ credit useable' X m = Some (c + 1)%Z) ∧
  (∀ a b, ¬ (a = X ∧ b ∈ l) → credit useable' a b = credit useable a b) ∧
  (∀ a, dom <$> useable' !! a = dom <$> useable !! a).
Proof.
  intros Hnd. revert useable. induction Hnd as [|m l Hm Hnd IH]; intros useable Hrun.
  - injection Hrun as <-. split; [done|]. split; [|done]. intros m Hm. by apply elem_of_nil in Hm.
  - rewrite for_each_cons in Hrun. inv_bind Hrun. rename a into mid.
    apply grant_credit_Ok in E as (c & Hc & Hc' & Hdom & Hother & Hrows).
    apply IH in Hrun as (Hdom' & Hin & Hout & Hrows').
    split; [congruence|]. split; [|split].
    + intros m' Hm'. apply elem_of_cons in Hm' as [->|Hm'].
      * exists c. split; [done|]. rewrite Hout; [done|]. intros [_ ?]. done.
      * destruct (Hin m' Hm') as (c' & Hc1 & Hc2). exists c'. split; [|done].
        rewrite <- Hc1. symmetry. apply Hother. intros [= ->]. done.
    + intros a b Hab. rewrite Hout.
      * apply Hother. intros [= -> ->]. apply Hab. split; [done|]. apply elem_of_cons. by left.
      * intros [-> Hb]. apply Hab. split; [done|]. apply elem_of_cons. by right.
    + intros a. by rewrite Hrows', Hrows.
Qed.

(** What adding a node to the time step does to the scheduler. *)
Lemma record_execution_Ok s X s' :
  record_execution s X = Ok s' →
  (∀ ts, ∃ c, counts_total s ts !! X = Some c ∧
              counts_total s' ts = <[X := (c + 1)%Z]> (counts_total s ts)) ∧
  dom (counts_useable s') = dom (counts_useable s) ∧
  (∀ n, n ∈ dom (counts_useable s) → n ≠ X →
        credit (counts_useable s') n X = Some 0%Z) ∧
  (∀ m, m ∈ dom (counts_useable s) → m ≠ X →
        ∃ c, credit (counts_useable s) X m = Some c ∧
             credit (counts_useable s') X m = Some (c + 1)%Z) ∧
  (X ∈ dom (counts_useable s) → credit (counts_useable s') X X = Some 1%Z) ∧
  (∀ n m, n ≠ X → m ≠ X →
          credit (counts_useable s') n m = credit (counts_useable s) n m) ∧
  condition_set s' = condition_set s ∧ execution_list s' = execution_list s ∧
  consideration_queue s' = consideration_queue s ∧
  termination_conds s' = termination_conds s ∧ nodes s' = nodes s ∧
  times s' = times s.
Proof.
  unfold record_execution. intros Hrun.
  inv_bind Hrun. rename a into total, E into Etotal.
  inv_bind Hrun. rename a into useable, E into Euse.
  injection Hrun as <-. simpl.
  pose proof (incr_every_total_Ok _ _ _ Etotal) as Htotal.
  apply grant_every_credit_Ok in Euse as (Hdom & Hin & Hout & _); [|apply NoDup_elements].
  assert (Hdom1 : dom (consume_credit X (counts_useable s)) = dom (counts_useable s))
    by (unfold consume_credit; apply dom_fmap_L).
  rewrite Hdom1 in Hdom.
  split; [done|]. split; [done|]. split; [|split; [|split; [|split]]].
  - intros n Hn Hne. rewrite Hout by (intros [? _]; done).
    rewrite credit_consume, decide_True by done. by rewrite decide_True.
  - intros m Hm Hne. destruct (Hin m) as (c & Hc & Hc').
    { apply elem_of_elements. by rewrite Hdom1. }
    exists c. split; [|done]. by rewrite credit_consume, decide_False in Hc.
  - intros HX. destruct (Hin X) as (c & Hc & Hc').
    { apply elem_of_elements. by rewrite Hdom1. }
    rewrite credit_consume, decide_True in Hc by done.
    rewrite decide_True in Hc by done. injection Hc as <-. done.
  - intros n m Hn Hm. rewrite Hout by (intros [? _]; done).
    by rewrite credit_consume, decide_False.
  - done.
Qed.

Lemma record_execution_succeeds s X ns :
  counters_cover s ns → X ∈ ns → ∃ s', record_execution s X = Ok s'.
Proof.
  intros (Htot & Huse & Hrows) HX. unfold record_execution.
  destruct (incr_every_total_succeeds X (counts_total s)) as [total ->].
  { intros ts. apply elem_of_dom. by rewrite Htot. }
  simpl.
  assert (Hgrant : ∀ l u,
    (∃ row, u !! X = Some row ∧ ∀ m, m ∈ l → is_Some (row !! m)) →
    ∃ u', for_each (grant_credit X) l u = Ok u').
  { induction l as [|m l IH]; intros u (row & Hrow & Hall); [by eexists|].
    rewrite for_each_cons.
    destruct (Hall m) as [c Hc]; [apply elem_of_cons; by left|].
    rewrite (grant_credit_succeeds _ _ _ _ _ Hrow Hc). simpl.
    apply IH. exists (<[m := (c + 1)%Z]> row). split; [by rewrite lookup_insert_eq|].
    intros m' Hm'. rewrite lookup_insert. case_decide; [by eexists|].
    apply Hall. apply elem_of_cons. by right. }
  destruct (Hgrant (elements (dom (consume_credit X (counts_useable s))))
              (consume_credit X (counts_useable s))) as [u' ->]; [|by eexists].
  assert (is_Some (counts_useable s !! X)) as [row Hrow]
    by (apply elem_of_dom; by rewrite Huse).
  exists (<[X := 0%Z]> row). split.
  - unfold consume_credit. by rewrite lookup_fmap, Hrow.
  - intros m Hm. apply elem_of_elements in Hm.
    unfold consume_credit in Hm. rewrite dom_fmap_L, Huse in Hm.
    rewrite lookup_insert. case_decide; [by eexists|].
    apply elem_of_dom. by rewrite (Hrows _ _ Hrow).
Qed.

Lemma record_execution_cover s X s' ns :
  counters_cover s ns → X ∈ ns → record_execution s X = Ok s' → counters_cover s' ns.
Proof.
  intros (Htot & Huse & Hrows) HX Hrun. unfold record_execution in Hrun.
  inv_bind Hrun. rename a into total, E into Etotal.
  inv_bind Hrun. rename a into useable, E into Euse.
  injection Hrun as <-. simpl.
  pose proof (incr_every_total_Ok _ _ _ Etotal) as Htotal.
  apply grant_every_credit_Ok in Euse as (Hdom & _ & _ & Hrowdom); [|apply NoDup_elements].
  unfold consume_credit in Hdom. rewrite dom_fmap_L in Hdom.
  split; [|split]; simpl.
  - intros ts. destruct (Htotal ts) as (c & Hc & ->). rewrite dom_insert_L, Htot. set_solver.
  - congruence.
  - intros n row Hrow. specialize (Hrowdom n). rewrite Hrow in Hrowdom.
    unfold consume_credit in Hrowdom. rewrite lookup_fmap in Hrowdom.
    destruct (counts_useable s !! n) as [row0|] eqn:E0; [|done]. simpl in Hrowdom.
    injection Hrowdom as ->. rewrite dom_insert_L, (Hrows _ _ E0). set_solver.
Qed.

End CounterProperties.

(** ** Validation *)

Section ValidationProperties.
Context {node : Type} `{Hnode : Countable node} {C Env : Type} `{!ConditionLib node C Env}.
Implicit Types s : Scheduler node C.
Implicit Types conds : gmap TimeScale (option (Condition node C)).

Lemma bind_scheduler_bound (c : Condition node C) :
  scheduler c = true → bind_scheduler c = c.
Proof. destruct c as [b o sch]. simpl. by intros ->. Qed.

Lemma validate_condition_set_termination s :
  termination_conds (_validate_condition_set s) = termination_conds s.
Proof.
  unfold _validate_condition_set. generalize (nodes s). intros l. revert s.
  induction l as [|n l IH]; intros s; [done|].
  simpl. rewrite IH. by case_decide.
Qed.

(** One iteration of the loop over the termination dictionary. *)
Lemma validate_termination_entry_step tc conds entry :
  conds !! tc = Some entry →
  validate_termination_entry tc conds =
  match entry with
  | None => if decide (tc = TRIAL) then Raise SchedulerError else Ok conds
  | Some c => Ok (<[tc := Some (bind_scheduler c)]> conds)
  end.
Proof.
  intros Hentry. unfold validate_termination_entry.
  rewrite (proj2 (getitem_Ok _ _ _) Hentry). simpl.
  destruct entry as [c|].
  - destruct (scheduler c) eqn:Hsch; [|done].
    rewrite bind_scheduler_bound by done. by rewrite insert_id.
  - destruct (decide (tc = TRIAL)) as [->|Hne].
    + rewrite decide_True; [done|]. apply list_elem_of_singleton. done.
    + rewrite decide_False; [done|]. by rewrite list_elem_of_singleton.
Qed.

(** The whole loop: it raises exactly when TRIAL is mapped to [None];
    otherwise the entries it visits keep their Condition, now bound to the
    scheduler, and [None] entries stay [None]. *)
Lemma validate_termination_loop l conds :
  (∀ tc, tc ∈ l → is_Some (conds !! tc)) →
  if bool_decide (TRIAL ∈ l) && maps_to_None (conds !! TRIAL)
  then for_each validate_termination_entry l conds = Raise SchedulerError
  else ∃ conds', for_each validate_termination_entry l conds = Ok conds' ∧
         ∀ ts, conds' !! ts =
               if decide (ts ∈ l) then fmap bind_scheduler <$> conds !! ts
               else conds !! ts.
Proof.
  revert conds. induction l as [|tc l IH]; intros conds Hkeys.
  - rewrite bool_decide_eq_false_2 by apply not_elem_of_nil.
    exists conds. split; [done|]. intros ts.
    destruct (decide (ts ∈ [])) as [Hin|]; [by apply elem_of_nil in Hin|done].
  - destruct (Hkeys tc) as [entry Hentry]; [apply elem_of_cons; by left|].
    rewrite for_each_cons, (validate_termination_entry_step _ _ _ Hentry).
    destruct entry as [c|].
    + (* a Condition: it is bound and the loop goes on *)
      cbn [mbind result_bind rbind]. set (conds1 := <[tc := Some (bind_scheduler c)]> conds).
      assert (Hkeys1 : ∀ tc', tc' ∈ l → is_Some (conds1 !! tc')).
      { intros tc' Hin. unfold conds1. destruct (decide (tc = tc')) as [<-|Hne].
        - rewrite lookup_insert_eq. eauto.
        - rewrite lookup_insert_ne by done. apply Hkeys. apply elem_of_cons. by right. }
      assert (Htrial : maps_to_None (conds1 !! TRIAL) = maps_to_None (conds !! TRIAL)).
      { unfold conds1. destruct (decide (tc = TRIAL)) as [->|Hne].
        - by rewrite lookup_insert_eq, Hentry.
        - by rewrite lookup_insert_ne. }
      specialize (IH conds1 Hkeys1). rewrite Htrial in IH.
      assert (Hguard : bool_decide (TRIAL ∈ tc :: l) && maps_to_None (conds !! TRIAL)
                       = bool_decide (TRIAL ∈ l) && maps_to_None (conds !! TRIAL)).
      { destruct (decide (TRIAL = tc)) as [<-|Hne].
        - rewrite Hentry. simpl. by rewrite !andb_false_r.
        - f_equal. apply bool_decide_ext. rewrite elem_of_cons. naive_solver. }
      rewrite Hguard.
      destruct (bool_decide (TRIAL ∈ l) && maps_to_None (conds !! TRIAL)); [done|].
      destruct IH as (conds' & -> & Hconds'). exists conds'. split; [done|].
      intros ts. rewrite Hconds'. unfold conds1.
      destruct (decide (ts = tc)) as [->|Hne].
      * rewrite lookup_insert_eq, Hentry. rewrite (decide_True (P := tc ∈ tc :: l))
          by (apply elem_of_cons; by left).
        destruct (decide (tc ∈ l)); reflexivity.
      * rewrite lookup_insert_ne by done.
        destruct (decide (ts ∈ l)) as [Hin|Hnin].
        -- rewrite decide_True; [done|]. apply elem_of_cons. by right.
        -- rewrite decide_False; [done|]. rewrite elem_of_cons. intros [?|?]; done.
    + destruct (decide (tc = TRIAL)) as [->|Hne].
      * (* TRIAL mapped to None *)
        rewrite bool_decide_eq_true_2 by (apply elem_of_cons; by left).
        by rewrite Hentry.
      * (* another scale mapped to None: left as it is *)
        assert (Hkeys1 : ∀ tc', tc' ∈ l → is_Some (conds !! tc'))
          by (intros tc' Hin; apply Hkeys; apply elem_of_cons; by right).
        specialize (IH conds Hkeys1).
        assert (Hguard : bool_decide (TRIAL ∈ tc :: l) = bool_decide (TRIAL ∈ l)).
        { apply bool_decide_ext. rewrite elem_of_cons. naive_solver. }
        rewrite Hguard. cbn [mbind result_bind rbind].
        destruct (bool_decide (TRIAL ∈ l) && maps_to_None (conds !! TRIAL)); [done|].
        destruct IH as (conds' & -> & Hconds'). exists conds'. split; [done|].
        intros ts. rewrite Hconds'.
        destruct (decide (ts = tc)) as [->|Hne'].
        -- rewrite Hentry. simpl. rewrite (decide_True (P := tc ∈ tc :: l))
             by (apply elem_of_cons; by left).
           destruct (decide (tc ∈ l)); reflexivity.
        -- destruct (decide (ts ∈ l)) as [Hin|Hnin].
           ++ rewrite decide_True; [done|]. apply elem_of_cons. by right.
           ++ rewrite decide_False; [done|]. rewrite elem_of_cons. intros [?|?]; done.
Qed.

(** [_validate_termination] on a dictionary. *)
Lemma validate_termination_dict s conds :
  termination_conds s = Some conds →
  if maps_to_None (conds !! TRIAL)
  then _validate_termination s = Raise SchedulerError
  else ∃ conds', _validate_termination s = Ok (set_termination_conds s (Some conds')) ∧
         ∀ ts, conds' !! ts = fmap bind_scheduler <$> conds !! ts.
Proof.
  intros Hconds. unfold _validate_termination. rewrite Hconds.
  pose proof (validate_termination_loop (elements (dom conds)) conds) as Hloop.
  assert (Hin : ∀ tc, tc ∈ elements (dom conds) ↔ is_Some (conds !! tc))
    by (intros tc; by rewrite elem_of_elements, elem_of_dom).
  specialize (Hloop (λ tc, proj1 (Hin tc))).
  assert (Hguard : bool_decide (TRIAL ∈ elements (dom conds)) && maps_to_None (conds !! TRIAL)
                   = maps_to_None (conds !! TRIAL)).
  { destruct (conds !! TRIAL) as [[c|]|] eqn:E; simpl; try apply andb_false_r.
    rewrite bool_decide_eq_true_2; [done|]. apply Hin. rewrite E. by eexists. }
  rewrite Hguard in Hloop.
  destruct (maps_to_None (conds !! TRIAL)); [by rewrite Hloop|].
  destruct Hloop as (conds' & -> & Hconds'). exists conds'. split; [done|].
  intros ts. rewrite Hconds'.
  destruct (decide (ts ∈ elements (dom conds))) as [|Hts]; [done|].
  destruct (conds !! ts) eqn:E; [|done]. exfalso. apply Hts, Hin. rewrite E. eauto.
Qed.

(** [_validate_termination] without a dictionary: every scale gets
    [AllHaveRun()]. *)
Lemma validate_termination_default s :
  termination_conds s = None →
  ∃ conds', _validate_termination s = Ok (set_termination_conds s (Some conds')) ∧
    ∀ ts, conds' !! ts = Some (Some (bind_scheduler (new_condition AllHaveRun))).
Proof.
  intros Hnone.
  set (conds0 := gset_to_gmap (Some (new_condition (C := C) AllHaveRun))
                   (list_to_set all_TimeScale) : gmap TimeScale (option (Condition node C))).
  assert (Hall : ∀ ts, conds0 !! ts = Some (Some (new_condition AllHaveRun))).
  { intros ts. unfold conds0. rewrite lookup_gset_to_gmap, option_guard_True; [done|].
    unfold all_TimeScale. destruct ts; set_solver. }
  assert (Hsame : _validate_termination s =
                  _validate_termination (set_termination_conds s (Some conds0))).
  { unfold _validate_termination. rewrite Hnone. reflexivity. }
  pose proof (validate_termination_dict (set_termination_conds s (Some conds0)) conds0 eq_refl)
    as Hdict.
  rewrite Hall in Hdict. simpl in Hdict. destruct Hdict as (conds' & Hrun & Hconds').
  exists conds'. split; [by rewrite Hsame, Hrun|].
  intros ts. by rewrite Hconds', Hall.
Qed.

(** C2, as the code has it. On every call to [run()]: when no dictionary of
    termination conditions is given, validation binds every time scale,
    TRIAL included, to a fresh [AllHaveRun()] and raises nothing; when a
    dictionary is given, validation raises [SchedulerError] exactly when the
    dictionary maps TRIAL to [None], and [run] then yields nothing;
    otherwise it succeeds, entries mapped to [None] stay [None] (a non-TRIAL
    scale is not given a default) and every other entry keeps its Condition,
    bound to this scheduler. *)
Theorem validation_of_termination_conds (caller : gset node → Env → Env) s
    (termination_conds_ : option (gmap TimeScale (option (Condition node C)))) :
  match termination_conds_ with
  | None =>
      ∃ s' conds', _validate_run_state (set_termination_conds s None) = Ok s' ∧
        termination_conds s' = Some conds' ∧
        ∀ ts, conds' !! ts = Some (Some (bind_scheduler (new_condition AllHaveRun)))
  | Some conds =>
      if maps_to_None (conds !! TRIAL)
      then _validate_run_state (set_termination_conds s (Some conds)) = Raise SchedulerError ∧
           ∀ fuel env, run caller fuel (Some conds) env s = ([], Raise SchedulerError)
      else ∃ s' conds', _validate_run_state (set_termination_conds s (Some conds)) = Ok s' ∧
             termination_conds s' = Some conds' ∧
             ∀ ts, conds' !! ts = fmap bind_scheduler <$> conds !! ts
  end.
Proof.
  destruct termination_conds_ as [conds|].
  - pose proof (validate_termination_dict
                  (_validate_condition_set (set_termination_conds s (Some conds))) conds) as Hdict.
    rewrite validate_condition_set_termination in Hdict. specialize (Hdict eq_refl).
    destruct (maps_to_None (conds !! TRIAL)).
    + split; [exact Hdict|]. intros fuel env. unfold run.
      unfold _validate_run_state in *. by rewrite Hdict.
    + destruct Hdict as (conds' & Hrun & Hconds'). eexists _, conds'.
      split; [exact Hrun|]. done.
  - destruct (validate_termination_default
                (_validate_condition_set (set_termination_conds s None)))
      as (conds' & Hrun & Hconds').
    { by rewrite validate_condition_set_termination. }
    eexists _, conds'. split; [exact Hrun|]. done.
Qed.

End ValidationProperties.

(** ** Selecting a node *)


Section RunProperties.
Context {node : Type} `{Hnode : Countable node} {C Env : Type} `{!ConditionLib node C Env}.
Variable caller : gset node → Env → Env.
Implicit Types s : Scheduler node C.
Implicit Types f : frame node C.
Implicit Types X n m : node.

(** [consider] either leaves the locals alone or selects the node. *)
Lemma consider_Ok env X f f' :
  consider env X f = Ok f' →
  f' = f ∨
  ((X ∉ cur_time_step_exec f) ∧
   ∃ c s', condition_set (self f) !! X = Some c ∧
           is_satisfied c env (self f) = Ok true ∧
           record_execution (self f) X = Ok s' ∧
           f' = mkFrame s' ({[X]} ∪ cur_time_step_exec f) true true).
Proof.
  unfold consider. intros Hrun. case_decide as Hin; [|left; congruence].
  inv_bind Hrun. rename a into c, E into Ec. apply getitem_Ok in Ec.
  inv_bind Hrun. rename a into sat, E into Esat.
  destruct sat; [|left; congruence].
  inv_bind Hrun. rename a into s', E into Es'. injection Hrun as <-.
  right. split; [done|]. exists c, s'. done.
Qed.

(** C1. Whenever the scan selects a node [X] (adds it to the time step),
    the counters change as follows and in no other way: at every time scale
    [counts_total[ts][X]] grows by 1; [counts_useable[n][X]] becomes 0 for
    every node [n]; [counts_useable[X][m]] grows by 1 for every node [m],
    which for [m = X] comes after the reset to 0 and so leaves 1; all other
    cells of [counts_total] and [counts_useable], and the clocks [times],
    keep their value. *)
Theorem selection_updates_counters env X f f' :
  consider env X f = Ok f' →
  X ∉ cur_time_step_exec f →
  X ∈ cur_time_step_exec f' →
  (∀ ts, ∃ c, counts_total (self f) ts !! X = Some c ∧
              counts_total (self f') ts !! X = Some (c + 1)%Z) ∧
  (∀ ts n, n ≠ X → counts_total (self f') ts !! n = counts_total (self f) ts !! n) ∧
  (∀ n, n ∈ dom (counts_useable (self f)) → n ≠ X →
        credit (counts_useable (self f')) n X = Some 0%Z) ∧
  (∀ m, m ∈ dom (counts_useable (self f)) → m ≠ X →
        ∃ c, credit (counts_useable (self f)) X m = Some c ∧
             credit (counts_useable (self f')) X m = Some (c + 1)%Z) ∧
  (X ∈ dom (counts_useable (self f)) →
        credit (counts_useable (self f')) X X = Some (0 + 1)%Z) ∧
  (∀ n m, n ≠ X → m ≠ X →
        credit (counts_useable (self f')) n m = credit (counts_useable (self f)) n m) ∧
  times (self f') = times (self f).
Proof.
  intros Hrun Hbefore Hafter.
  apply consider_Ok in Hrun as [->|(_ & c & s' & _ & _ & Hrec & ->)]; [done|].
  simpl. clear Hafter.
  apply record_execution_Ok in Hrec
    as (Htot & _ & Hzero & Hgain & Hself & Hrest & _ & _ & _ & _ & _ & Htimes).
  split; [|split; [|do 4 (split; [done|]); done]].
  - intros ts. destruct (Htot ts) as (c0 & Hc0 & ->). exists c0.
    by rewrite lookup_insert_eq.
  - intros ts n Hne. destruct (Htot ts) as (c0 & Hc0 & ->).
    by rewrite lookup_insert_ne.
Qed.

(** C9. After a node [X] has been added to the time step its own credit
    [counts_useable[X][X]] is 1 whatever it was before: the reset loop puts
    0 in every cell usable by [X], the cell [X][X] included, and the
    increment loop then adds 1 to every cell of [X]'s row, the same cell
    included. The selection of another node [Y] leaves [counts_useable[X][X]]
    as it is, so the cell never holds more than the single unit. *)
Theorem self_credit_is_one s X s' :
  record_execution s X = Ok s' →
  X ∈ dom (counts_useable s) →
  credit (consume_credit X (counts_useable s)) X X = Some 0%Z ∧
  credit (counts_useable s') X X = Some 1%Z ∧
  ∀ Y s'', Y ≠ X → record_execution s' Y = Ok s'' →
           credit (counts_useable s'') X X = Some 1%Z.
Proof.
  intros Hrun HX. split; [|split].
  - rewrite credit_consume, decide_True by done. by rewrite decide_True.
  - by apply record_execution_Ok in Hrun as (_ & _ & _ & _ & Hself & _); auto.
  - intros Y s'' Hne Hrun'.
    apply record_execution_Ok in Hrun as (_ & _ & _ & _ & Hself & _).
    apply record_execution_Ok in Hrun' as (_ & _ & _ & _ & _ & Hrest & _).
    rewrite Hrest by done. auto.
Qed.

(** ** The scan of a layer *)

Lemma record_execution_returns s X : record_execution s X ≠ OutOfFuel.
Proof.
  unfold record_execution.
  destruct (for_each (incr_total X) all_TimeScale (counts_total s)) as [total| |] eqn:E1; simpl.
  - destruct (for_each (grant_credit X) _ _) as [u| |] eqn:E2; simpl; [done..|].
    exfalso. eapply for_each_not_fuel; [|exact E2]. intros n u. unfold grant_credit.
    destruct (getitem u X) as [row| |] eqn:E3; simpl; [|done|by apply getitem_not_fuel in E3].
    destruct (getitem row n) as [c| |] eqn:E4; simpl; [done..|by apply getitem_not_fuel in E4].
  - done.
  - exfalso. eapply for_each_not_fuel; [|exact E1]. intros ts count. unfold incr_total.
    destruct (getitem (count ts) X) eqn:E3; simpl; [done..|by apply getitem_not_fuel in E3].
Qed.

Lemma consider_returns env X f : consider env X f ≠ OutOfFuel.
Proof.
  unfold consider. case_decide; [|done].
  destruct (getitem (condition_set (self f)) X) as [c| |] eqn:E1; simpl;
    [|done|by apply getitem_not_fuel in E1].
  destruct (is_satisfied c env (self f)) as [[]| |] eqn:E2; simpl;
    [|done|done|by apply is_satisfied_returns in E2].
  destruct (record_execution (self f) X) eqn:E3; simpl;
    [done..|by apply record_execution_returns in E3].
Qed.

Lemma scan_returns env layer f : scan env layer f ≠ OutOfFuel.
Proof. apply for_each_not_fuel. intros. apply consider_returns. Qed.

Lemma plus_if_False (P : Prop) `{!Decision P} (o : option Z) :
  ¬ P → plus_if P <$> o = o.
Proof.
  intros HP. destruct o as [c|]; [|done]. simpl. unfold plus_if.
  by rewrite decide_False.
Qed.

Lemma plus_if_iff (P Q : Prop) `{!Decision P, !Decision Q} c :
  (P ↔ Q) → plus_if P c = plus_if Q c.
Proof. intros HPQ. unfold plus_if. destruct (decide P), (decide Q); tauto. Qed.

Lemma difference_empty_elem X (e : gset node) : X ∈ e ∖ ∅ ↔ X ∈ e.
Proof. set_solver. Qed.

Lemma same_settings_refl s : same_settings s s.
Proof. repeat split. Qed.

Lemma same_settings_trans s1 s2 s3 :
  same_settings s1 s2 → same_settings s2 s3 → same_settings s1 s3.
Proof.
  unfold same_settings. intros (?&?&?&?&?&?) (?&?&?&?&?&?).
  repeat split; congruence.
Qed.

Lemma grows_refl f : grows f f.
Proof.
  split; [done|]. rewrite bool_decide_eq_false_2 by (intros Hne; by apply Hne).
  rewrite !orb_false_r. split; [done|]. split; [|split].
  - intros ts X. rewrite plus_if_False; [done|]. set_solver.
  - intros ts X HX. set_solver.
  - apply same_settings_refl.
Qed.

Lemma grows_trans f1 f2 f3 : grows f1 f2 → grows f2 f3 → grows f1 f3.
Proof.
  intros (Hsub12 & Hel12 & Hcnt12 & Hkey12 & Hset12) (Hsub23 & Hel23 & Hcnt23 & Hkey23 & Hset23).
  assert (Hne : bool_decide (cur_time_step_exec f3 ≠ cur_time_step_exec f1) =
                bool_decide (cur_time_step_exec f2 ≠ cur_time_step_exec f1) ||
                bool_decide (cur_time_step_exec f3 ≠ cur_time_step_exec f2)).
  { destruct (decide (cur_time_step_exec f2 = cur_time_step_exec f1)) as [E12|N12].
    - rewrite E12.
      by rewrite (bool_decide_eq_false_2 (cur_time_step_exec f1 ≠ cur_time_step_exec f1))
        by (intros Hn; by apply Hn).
    - rewrite (bool_decide_eq_true_2 (cur_time_step_exec f2 ≠ _)) by done. simpl.
      apply bool_decide_eq_true_2. intros E13. apply N12. set_solver. }
  split; [set_solver|]. split; [|split; [|split]].
  - by rewrite Hel23, Hel12, Hne, orb_assoc.
  - intros ts X. rewrite Hcnt23, Hcnt12. destruct (counts_total (self f1) ts !! X) as [c|]; [|done].
    simpl. f_equal. unfold plus_if.
    destruct (decide (X ∈ cur_time_step_exec f2 ∖ cur_time_step_exec f1)) as [H21|H21];
    destruct (decide (X ∈ cur_time_step_exec f3 ∖ cur_time_step_exec f2)) as [H32|H32];
    destruct (decide (X ∈ cur_time_step_exec f3 ∖ cur_time_step_exec f1)) as [H31|H31];
      try done; exfalso; set_solver.
  - intros ts X HX.
    destruct (decide (X ∈ cur_time_step_exec f2)) as [H2|H2].
    + apply Hkey12. set_solver.
    + assert (is_Some (counts_total (self f2) ts !! X)) as [c Hc] by (apply Hkey23; set_solver).
      rewrite Hcnt12 in Hc. destruct (counts_total (self f1) ts !! X); [eauto|done].
  - by eapply same_settings_trans.
Qed.

Lemma consider_grows env X f f' : consider env X f = Ok f' → grows f f'.
Proof.
  intros Hrun. apply consider_Ok in Hrun as [->|(Hnin & c & s' & _ & _ & Hrec & ->)];
    [apply grows_refl|].
  apply record_execution_Ok in Hrec
    as (Htot & _ & _ & _ & _ & _ & Hc & He & Hq & Ht & Hn & Htimes).
  assert (Hne : {[X]} ∪ cur_time_step_exec f ≠ cur_time_step_exec f) by set_solver.
  split; [simpl; set_solver|]. simpl.
  rewrite bool_decide_eq_true_2 by done. rewrite !orb_true_r.
  split; [done|]. split; [|split; [|done]].
  - intros ts n. destruct (Htot ts) as (c0 & Hc0 & ->).
    destruct (decide (n = X)) as [->|Hn'].
    + rewrite lookup_insert_eq, Hc0. simpl. unfold plus_if. rewrite decide_True; [done|].
      set_solver.
    + rewrite lookup_insert_ne by done. rewrite plus_if_False; [done|]. set_solver.
  - intros ts n Hin. assert (n = X) as -> by set_solver.
    destruct (Htot ts) as (c0 & Hc0 & _). eauto.
Qed.

Lemma consider_subset env X f f' :
  consider env X f = Ok f' →
  cur_time_step_exec f' ⊆ cur_time_step_exec f ∪ {[X]}.
Proof.
  intros Hrun.
  apply consider_Ok in Hrun as [->|(_ & c & s' & _ & _ & _ & ->)]; simpl; set_solver.
Qed.

Lemma scan_grows env layer f f' :
  scan env layer f = Ok f' →
  grows f f' ∧ cur_time_step_exec f' ⊆ cur_time_step_exec f ∪ list_to_set layer.
Proof.
  unfold scan. revert f. induction layer as [|X layer IH]; intros f Hrun.
  - injection Hrun as <-. split; [apply grows_refl|set_solver].
  - rewrite for_each_cons in Hrun. inv_bind Hrun. rename a into f1.
    pose proof (consider_grows _ _ _ _ E) as Hg1.
    pose proof (consider_subset _ _ _ _ E) as Hsub1.
    apply IH in Hrun as [Hg2 Hsub]. split; [by eapply grows_trans|].
    clear -Hsub Hsub1. set_solver.
Qed.

(** A scan that reports no change has changed nothing at all. *)
Lemma scan_unchanged env layer f f' :
  scan env layer f = Ok f' →
  cur_consideration_set_has_changed f' = false → f' = f.
Proof.
  unfold scan. revert f. induction layer as [|X layer IH]; intros f Hrun Hflag.
  - by injection Hrun as <-.
  - rewrite for_each_cons in Hrun. inv_bind Hrun. rename a into f1.
    pose proof (IH _ Hrun Hflag) as ->.
    apply consider_Ok in E as [->|(_ & c & s' & _ & _ & _ & ->)]; [done|].
    simpl in Hflag. discriminate.
Qed.

(** A scan either changes nothing or raises its flag and adds a node. *)
Lemma scan_changes env layer f f' :
  scan env layer f = Ok f' →
  f' = f ∨ (cur_consideration_set_has_changed f' = true ∧
            cur_time_step_exec f ⊂ cur_time_step_exec f').
Proof.
  unfold scan. revert f. induction layer as [|X layer IH]; intros f Hrun.
  - injection Hrun as <-. by left.
  - rewrite for_each_cons in Hrun. inv_bind Hrun. rename a into f1.
    pose proof (proj1 (scan_grows _ _ _ _ Hrun)) as (Hsub & _).
    apply IH in Hrun as [->|[Hflag Hstrict]].
    + apply consider_Ok in E as [->|(Hnin & c & s' & _ & _ & _ & ->)]; [by left|].
      right. split; [done|]. simpl. clear -Hnin. set_solver.
    + right. split; [done|].
      apply consider_grows in E as (Hsub1 & _). clear -Hsub1 Hstrict. set_solver.
Qed.

Lemma size_list_to_set_le (l : list node) : size (list_to_set (C := gset node) l) ≤ length l.
Proof.
  induction l as [|x l IH].
  - by rewrite list_to_set_nil, size_empty.
  - rewrite list_to_set_cons, size_union_alt, size_singleton. simpl.
    assert (list_to_set l ∖ {[x]} ⊆ list_to_set (C := gset node) l) as Hle%subseteq_size
      by set_solver.
    lia.
Qed.

(** The nodes of the layer that a scan can still add bound the number of
    scans left. *)
Lemma layer_loop_returns env layer fuel f :
  size (list_to_set layer ∖ cur_time_step_exec f) < fuel →
  layer_loop fuel env layer f ≠ OutOfFuel.
Proof.
  revert f. induction fuel as [|fuel IH]; intros f Hsize; [lia|].
  simpl.
  set (f0 := mkFrame (self f) (cur_time_step_exec f) (execution_list_has_changed f) false).
  destruct (scan env layer f0) as [f'| |] eqn:Hscan; simpl;
    [|done|by apply scan_returns in Hscan].
  destruct (cur_consideration_set_has_changed f') eqn:Hflag; [|done].
  apply IH.
  pose proof (proj2 (scan_grows _ _ _ _ Hscan)) as Hsub.
  destruct (scan_changes _ _ _ _ Hscan) as [Heq|[_ Hstrict]];
    [by rewrite Heq in Hflag|]. simpl in *.
  assert (list_to_set layer ∖ cur_time_step_exec f' ⊂
          list_to_set layer ∖ cur_time_step_exec f) as Hlt%subset_size; [|lia].
  clear -Hsub Hstrict. destruct Hstrict as [Hle Hnle]. split; [set_solver|].
  intros Hback. apply Hnle. intros x Hx.
  destruct (decide (x ∈ cur_time_step_exec f)) as [|Hnx]; [done|].
  exfalso. assert (x ∈ list_to_set layer ∖ cur_time_step_exec f') by set_solver.
  set_solver.
Qed.

(** Scans beyond the fixed point are never made. *)
Lemma layer_loop_more_fuel env layer fuel k f :
  layer_loop fuel env layer f ≠ OutOfFuel →
  layer_loop (fuel + k) env layer f = layer_loop fuel env layer f.
Proof.
  revert f. induction fuel as [|fuel IH]; intros f Hret; [done|].
  simpl in *.
  destruct (scan env layer _) as [f'| |]; simpl in *; [|done..].
  destruct (cur_consideration_set_has_changed f'); [by apply IH|done].
Qed.

(** What the scans of a layer leave behind. *)
Lemma layer_loop_Ok env layer fuel f f' :
  layer_loop fuel env layer f = Ok f' →
  grows f f' ∧
  cur_time_step_exec f' ⊆ cur_time_step_exec f ∪ list_to_set layer ∧
  cur_consideration_set_has_changed f' = false ∧
  scan env layer f' = Ok f'.
Proof.
  revert f. induction fuel as [|fuel IH]; intros f Hrun; [done|].
  simpl in Hrun. inv_bind Hrun. rename a into f1.
  apply scan_grows in E as Hg. destruct Hg as [Hg Hsub].
  assert (Hg0 : grows f f1) by exact Hg.
  destruct (cur_consideration_set_has_changed f1) eqn:Hflag.
  - apply IH in Hrun as (Hg' & Hsub' & Hflag' & Hfix).
    split; [by eapply grows_trans|]. split; [|done].
    simpl in Hsub. clear -Hsub Hsub'. set_solver.
  - injection Hrun as <-. split; [done|]. split; [done|]. split; [done|].
    pose proof (scan_unchanged _ _ _ _ E Hflag) as ->. done.
Qed.

(** C7. The scans of a layer come to an end within |layer| + 1 full scans:
    the |layer| + 1 scans that [consider_layer] allows are never used up,
    and allowing more changes nothing. When the scans end normally, every
    node of the time step is a node of the layer and was added once: at
    every time scale its total count is one more than before the layer was
    considered, and the counts of all other nodes are as before; and
    the result is a fixed point: one more scan of the layer adds nothing. *)
Theorem layer_scan_terminates env layer s changed :
  consider_layer env layer s changed ≠ OutOfFuel ∧
  (∀ k, layer_loop (S (length layer) + k) env layer (mkFrame s ∅ changed false) =
        consider_layer env layer s changed) ∧
  match consider_layer env layer s changed with
  | Ok f' =>
      cur_time_step_exec f' ⊆ list_to_set layer ∧
      (∀ ts X, counts_total (self f') ts !! X =
               plus_if (X ∈ cur_time_step_exec f') <$> counts_total s ts !! X) ∧
      scan env layer f' = Ok f'
  | Raise _ => True
  | OutOfFuel => False
  end.
Proof.
  assert (Hret : consider_layer env layer s changed ≠ OutOfFuel).
  { apply layer_loop_returns. simpl.
    pose proof (size_list_to_set_le layer).
    assert (list_to_set layer ∖ ∅ ⊆ list_to_set (C := gset node) layer) as Hle%subseteq_size
      by set_solver.
    lia. }
  split; [done|]. split.
  - intros k. by apply layer_loop_more_fuel.
  - destruct (consider_layer env layer s changed) as [f'| |] eqn:Hrun; [|done..].
    apply layer_loop_Ok in Hrun as ((_ & _ & Hcnt & _ & _) & Hsub & _ & Hfix). simpl in *.
    split; [clear -Hsub; set_solver|]. split; [|done].
    intros ts X. rewrite Hcnt. destruct (counts_total s ts !! X) as [c|]; [|done].
    simpl. f_equal. apply plus_if_iff, difference_empty_elem.
Qed.

(** ** The walk through the consideration queue *)

Lemma gen_bind_Ok {A B} (g : gen (node := node) A) (k : A → gen B) ys b :
  (a ← g; k a) = (ys, Ok b) →
  ∃ a ys1 ys2, g = (ys1, Ok a) ∧ k a = (ys2, Ok b) ∧ ys = ys1 ++ ys2.
Proof.
  unfold mbind, gen_mbind, gen_bind. destruct g as [ys1 [a| |]]; [|done..].
  destruct (k a) as [ys2 r] eqn:Hk. intros [= <- ->]. by exists a, ys1, ys2.
Qed.

(** The yields of a bind are those of its first part, followed by those of
    the second if the first did not raise. *)
Lemma gen_bind_yields {A B} (g : gen (node := node) A) (k : A → gen B) :
  (mbind k g).1 = g.1 ++ match g.2 with Ok a => (k a).1 | _ => [] end.
Proof.
  unfold mbind, gen_mbind, gen_bind. destruct g as [ys1 [a| |]]; simpl;
    [by destruct (k a)|by rewrite app_nil_r..].
Qed.

Lemma gen_bind_pair {A B} ys (a : A) (k : A → gen (node := node) B) :
  mbind k (ys, Ok a) = (ys ++ (k a).1, (k a).2).
Proof. unfold mbind, gen_mbind, gen_bind. by destruct (k a). Qed.

Lemma gen_bind_lift_Ok {A B} (a : A) (k : A → gen (node := node) B) :
  mbind k (lift (Ok a)) = k a.
Proof. unfold lift. rewrite gen_bind_pair. by destruct (k a). Qed.

Lemma occurrences_nil X : occurrences X [] = 0%Z.
Proof. done. Qed.

Lemma occurrences_app X ys1 ys2 :
  occurrences X (ys1 ++ ys2) = (occurrences X ys1 + occurrences X ys2)%Z.
Proof. unfold occurrences. rewrite filter_app, length_app. lia. Qed.

Lemma occurrences_singleton X y :
  occurrences X [y] = if decide (X ∈ y) then 1%Z else 0%Z.
Proof.
  unfold occurrences. rewrite filter_cons. destruct (decide (X ∈ y)); done.
Qed.

Lemma advances_refl s : advances [] s s.
Proof.
  split; [by rewrite app_nil_r|]. split; [|split; [|split; [|done]]].
  - intros ts X. destruct (counts_total s ts !! X); [|done]. simpl. f_equal.
    rewrite occurrences_nil. lia.
  - intros X HX. simpl in HX. set_solver.
  - intros ts q. destruct (decide (q = TIME_STEP)); [simpl; lia|done].
Qed.

Lemma advances_trans ys1 ys2 s1 s2 s3 :
  advances ys1 s1 s2 → advances ys2 s2 s3 → advances (ys1 ++ ys2) s1 s3.
Proof.
  intros (He1 & Hc1 & Hk1 & Ht1 & ? & ? & ? & ?) (He2 & Hc2 & Hk2 & Ht2 & ? & ? & ? & ?).
  split; [by rewrite He2, He1, app_assoc|]. split; [|split; [|split]].
  - intros ts X. rewrite Hc2, Hc1. destruct (counts_total s1 ts !! X); [|done].
    simpl. f_equal. rewrite occurrences_app. lia.
  - intros X HX ts. rewrite union_list_app in HX. apply elem_of_union in HX as [HX|HX].
    + by apply Hk1.
    + destruct (Hk2 X HX ts) as [c Hc]. rewrite Hc1 in Hc.
      destruct (counts_total s1 ts !! X); [eauto|done].
  - intros ts q. rewrite Ht2, Ht1. destruct (decide (q = TIME_STEP)); [|done].
    rewrite length_app. lia.
  - repeat split; congruence.
Qed.

Lemma size_nonempty (X : gset node) : 1 ≤ size X ↔ X ≠ ∅.
Proof.
  rewrite <- (leibniz_equiv_iff X ∅), <- size_non_empty_iff. lia.
Qed.

(** A time step is emitted exactly when it has a node in it. *)
Lemma emit_time_step_spec env s (exec : gset node) :
  emit_time_step caller env s exec =
  if decide (exec = ∅) then ([], Ok (env, s))
  else ([exec], Ok (caller exec env,
                    _increment_time (set_execution_list s (execution_list s ++ [exec]))
                      TIME_STEP)).
Proof.
  unfold emit_time_step. destruct (decide (exec = ∅)) as [->|Hne].
  - rewrite decide_False; [done|]. rewrite size_empty. lia.
  - rewrite decide_True by (by apply size_nonempty). done.
Qed.

(** One layer of the walk: its scans followed by the emission. *)
Lemma layer_advances env layer s changed f ys env' s' :
  consider_layer env layer s changed = Ok f →
  emit_time_step caller env (self f) (cur_time_step_exec f) = (ys, Ok (env', s')) →
  advances ys s s' ∧ Forall (λ y, y ≠ ∅) ys ∧
  execution_list_has_changed f = changed || bool_decide (ys ≠ []).
Proof.
  intros Hlayer Hemit.
  apply layer_loop_Ok in Hlayer as ((_ & Hel & Hcnt & Hkey & Hset) & _). simpl in *.
  destruct Hset as (Hc & He & Hq & Ht & Hn & Htimes).
  rewrite emit_time_step_spec in Hemit.
  destruct (decide (cur_time_step_exec f = ∅)) as [Hempty|Hne].
  - injection Hemit as <- <- <-. rewrite Hempty in *.
    split; [|split; [done|]].
    + split; [by rewrite He, app_nil_r|]. split; [|split; [|split; [|done]]].
      * intros ts X. rewrite Hcnt. rewrite plus_if_False by set_solver.
        destruct (counts_total s ts !! X); [|done]. simpl. f_equal. rewrite occurrences_nil. lia.
      * intros X HX. simpl in HX. set_solver.
      * intros ts q. rewrite Htimes. destruct (decide (q = TIME_STEP)); [simpl; lia|done].
    + rewrite Hel. by rewrite !(bool_decide_eq_false_2 (_ ≠ _)) by (intros Hn'; by apply Hn').
  - injection Hemit as <- <- <-.
    split; [|split].
    + split; [simpl; by rewrite He|]. split; [|split; [|split; [|done]]].
      * intros ts X. simpl. rewrite Hcnt. destruct (counts_total s ts !! X); [|done].
        simpl. f_equal. rewrite occurrences_singleton.
        rewrite (plus_if_iff _ _ _ (difference_empty_elem X _)). unfold plus_if.
        destruct (decide (X ∈ cur_time_step_exec f)); lia.
      * intros X HX ts. apply Hkey. apply difference_empty_elem.
        simpl in HX. clear -HX. set_solver.
      * intros ts q. simpl. rewrite Htimes.
        destruct (decide (q = TIME_STEP)); [simpl; lia|done].
    + by apply Forall_singleton.
    + rewrite Hel. by rewrite !bool_decide_eq_true_2.
Qed.

(** The walk, when it ends normally. *)
Lemma walk_Ok queue env s changed ys env' s' changed' :
  walk caller queue env s changed = (ys, Ok (env', s', changed')) →
  advances ys s s' ∧ Forall (λ y, y ≠ ∅) ys ∧
  changed' = changed || bool_decide (ys ≠ []).
Proof.
  revert env s changed ys. induction queue as [|layer queue IH]; intros env s changed ys Hwalk.
  - injection Hwalk as <- <- <- <-. split; [apply advances_refl|]. split; [done|].
    by rewrite bool_decide_eq_false_2, orb_false_r by (intros Hn; by apply Hn).
  - cbn [walk] in Hwalk.
    apply gen_bind_Ok in Hwalk as (stop & ys0 & ys1 & Hstop & Hwalk & ->).
    injection Hstop as <- Hstop. simpl.
    destruct stop.
    { injection Hwalk as <- <- <- <-. split; [apply advances_refl|]. split; [done|].
      by rewrite bool_decide_eq_false_2, orb_false_r by (intros Hn; by apply Hn). }
    destruct layer as [layer|]; [|discriminate Hwalk].
    apply gen_bind_Ok in Hwalk as (f & ys0 & ys2 & Hlayer & Hwalk & ->).
    injection Hlayer as <- Hlayer. simpl.
    apply gen_bind_Ok in Hwalk as ([env1 s1] & ys1 & ys3 & Hemit & Hwalk & ->).
    destruct (layer_advances _ _ _ _ _ _ _ _ Hlayer Hemit) as (Hadv1 & Hne1 & Hflag1).
    apply IH in Hwalk as (Hadv2 & Hne2 & Hflag2).
    split; [by eapply advances_trans|]. split; [by apply Forall_app|].
    rewrite Hflag2, Hflag1, <- orb_assoc. f_equal.
    destruct ys1, ys3; done.
Qed.




(** The stalled-PASS marker. *)
Lemma emit_stalled_pass_spec env s (changed : bool) :
  emit_stalled_pass caller env s changed =
  if changed then ([], Ok (env, s))
  else ([∅], Ok (caller ∅ env,
                 _increment_time (set_execution_list s (execution_list s ++ [∅])) TIME_STEP)).
Proof. by destruct changed. Qed.

Lemma counts_total_reset_pass s ts X :
  counts_total (reset_pass s) ts !! X =
  (λ c, if decide (ts = PASS) then 0%Z else c) <$> counts_total s ts !! X.
Proof.
  unfold reset_pass, _reset_count. simpl. destruct (decide (ts = PASS)).
  - by rewrite lookup_fmap.
  - by destruct (counts_total s ts !! X).
Qed.

Lemma times_reset_pass s p q :
  times (reset_pass s) p q = if decide (p = PASS) then 0%Z else times s p q.
Proof. done. Qed.

Lemma times_increment_other s ts p q :
  q ≠ ts → times (_increment_time s ts) p q = times s p q.
Proof. intros Hne. simpl. by rewrite decide_False. Qed.

Lemma times_increment_same s ts p :
  times (_increment_time s ts) p ts = (times s p ts + 1)%Z.
Proof. simpl. by rewrite decide_True. Qed.

(** One PASS that ends normally, in terms of its walk. *)
Lemma run_pass_Ok env s ys env' s' :
  run_pass caller env s = (ys, Ok (env', s')) →
  ∃ ysw env1 s1,
    walk caller (consideration_queue s) env (reset_pass s) false
      = (ysw, Ok (env1, s1, bool_decide (ysw ≠ []))) ∧
    advances ysw (reset_pass s) s1 ∧ Forall (λ y, y ≠ ∅) ysw ∧
    ys = ysw ++ (if bool_decide (ysw ≠ []) then [] else [∅]) ∧
    env' = (if bool_decide (ysw ≠ []) then env1 else caller ∅ env1) ∧
    s' = _increment_time
           (if bool_decide (ysw ≠ []) then s1
            else _increment_time (set_execution_list s1 (execution_list s1 ++ [∅])) TIME_STEP)
           PASS.
Proof.
  unfold run_pass. intros Hrun.
  apply gen_bind_Ok in Hrun as ([[env1 s1] changed] & ysw & ys1 & Hwalk & Hrun & ->).
  apply gen_bind_Ok in Hrun as ([env2 s2] & ys2 & ys3 & Hemit & Hrun & ->).
  injection Hrun as <- <- <-.
  change (consideration_queue (reset_pass s)) with (consideration_queue s) in Hwalk.
  pose proof (walk_Ok _ _ _ _ _ _ _ _ Hwalk) as (Hadv & Hne & Hflag). simpl in Hflag.
  subst changed. rewrite emit_stalled_pass_spec in Hemit.
  exists ysw, env1, s1. split; [done|]. split; [done|]. split; [done|].
  destruct (bool_decide (ysw ≠ [])); injection Hemit as <- <- <-; by rewrite ?app_nil_r.
Qed.



(** ** The TRIAL termination condition cuts the walk short *)

Lemma walk_terminated queue env s changed :
  trial_terminated env s = Ok true →
  walk caller queue env s changed = ([], Ok (env, s, changed)).
Proof. intros Hstop. destruct queue as [|layer queue]; [done|]. simpl. by rewrite Hstop. Qed.

(** Once the walk of the first layers has left the termination condition
    satisfied, the layers after them are skipped. *)
Lemma walk_stops q1 q2 env s changed ys env1 s1 changed1 :
  walk caller q1 env s changed = (ys, Ok (env1, s1, changed1)) →
  trial_terminated env1 s1 = Ok true →
  walk caller (q1 ++ q2) env s changed = (ys, Ok (env1, s1, changed1)).
Proof.
  revert env s changed ys. induction q1 as [|layer q1 IH]; intros env s changed ys Hwalk Hstop.
  - injection Hwalk as <- <- <- <-. by apply walk_terminated.
  - cbn [app walk] in *.
    apply gen_bind_Ok in Hwalk as (stop & ys0 & ys1 & Hcheck & Hwalk & ->).
    injection Hcheck as <- Hcheck. rewrite Hcheck, gen_bind_lift_Ok. cbn [app].
    destruct stop; [done|].
    destruct layer as [layer|]; [|discriminate Hwalk].
    apply gen_bind_Ok in Hwalk as (f & ys0 & ys2 & Hlayer & Hwalk & ->).
    injection Hlayer as <- Hlayer. rewrite Hlayer, gen_bind_lift_Ok. cbn [app].
    apply gen_bind_Ok in Hwalk as ([env2 s2] & ys1 & ys3 & Hemit & Hwalk & ->).
    rewrite Hemit, gen_bind_pair. cbv beta iota.
    by rewrite (IH _ _ _ _ Hwalk Hstop).
Qed.

(** ** A whole run *)

Lemma occurrences_marker X (b : bool) :
  occurrences X (if b then [] else [∅]) = 0%Z.
Proof.
  destruct b; [done|]. rewrite occurrences_singleton. by rewrite decide_False by set_solver.
Qed.

(** From [s] to [s'] over the yields [ys] of passes, which reset the PASS
    scale on the way. *)
Lemma run_pass_history env s ys env' s' :
  run_pass caller env s = (ys, Ok (env', s')) →
  execution_list s' = execution_list s ++ ys ∧
  (∀ ts X, ts ≠ PASS →
           counts_total s' ts !! X =
           (λ c, c + occurrences X ys)%Z <$> counts_total s ts !! X) ∧
  condition_set s' = condition_set s ∧ consideration_queue s' = consideration_queue s ∧
  termination_conds s' = termination_conds s ∧ nodes s' = nodes s.
Proof.
  intros Hrun.
  apply run_pass_Ok in Hrun as (ysw & env1 & s1 & _ & Hadv & _ & -> & _ & ->).
  destruct Hadv as (He & Hcnt & _ & _ & Hc & Hq & Ht & Hn).
  split; [|split].
  - destruct (bool_decide (ysw ≠ [])); simpl; rewrite He; by rewrite ?app_nil_r, ?app_assoc.
  - intros ts X Hts.
    assert (counts_total
              (_increment_time
                 (if bool_decide (ysw ≠ []) then s1
                  else _increment_time (set_execution_list s1 (execution_list s1 ++ [∅]))
                         TIME_STEP) PASS) = counts_total s1) as ->
      by (by destruct (bool_decide (ysw ≠ []))).
    rewrite Hcnt, counts_total_reset_pass, occurrences_app, occurrences_marker.
    destruct (counts_total s ts !! X); [|done]. simpl. rewrite decide_False by done.
    f_equal. lia.
  - destruct (bool_decide (ysw ≠ [])); done.
Qed.

Lemma trial_loop_history fuel env s ys env' s' :
  trial_loop caller fuel env s = (ys, Ok (env', s')) →
  execution_list s' = execution_list s ++ ys ∧
  (∀ ts X, ts ≠ PASS →
           counts_total s' ts !! X =
           (λ c, c + occurrences X ys)%Z <$> counts_total s ts !! X) ∧
  condition_set s' = condition_set s ∧ consideration_queue s' = consideration_queue s ∧
  termination_conds s' = termination_conds s ∧ nodes s' = nodes s.
Proof.
  revert env s ys. induction fuel as [|fuel IH]; intros env s ys Hrun; [done|].
  cbn [trial_loop] in Hrun.
  apply gen_bind_Ok in Hrun as (stop & ys0 & ys1 & Hcheck & Hrun & ->).
  injection Hcheck as <- Hcheck. cbn [app].
  destruct stop.
  - injection Hrun as <- <- <-. rewrite app_nil_r. split; [done|]. split; [|done].
    intros ts X _. destruct (counts_total s ts !! X); [|done]. simpl. f_equal.
    rewrite occurrences_nil. lia.
  - apply gen_bind_Ok in Hrun as ([env1 s1] & ys2 & ys3 & Hpass & Hrun & ->).
    apply run_pass_history in Hpass as (He1 & Hc1 & ? & ? & ? & ?).
    apply IH in Hrun as (He2 & Hc2 & ? & ? & ? & ?).
    split; [by rewrite He2, He1, app_assoc|]. split; [|repeat split; congruence].
    intros ts X Hts. rewrite Hc2, Hc1 by done.
    destruct (counts_total s ts !! X); [|done]. simpl. f_equal.
    rewrite occurrences_app. lia.
Qed.

(** What the loops of [run] do when the TRIAL termination Condition is
    satisfied at a layer boundary (the behaviour C8 is about). Within a
    PASS, once the walk of the layers
    [q1] has left the TRIAL termination Condition satisfied, the layers [q2]
    after them are not considered: the walk of the whole queue ends where
    the walk of [q1] ended, and the rest of the PASS selects no node (the
    counters stay as the walk left them). If the Condition is still
    satisfied when the outer loop evaluates it again, after the stalled-PASS
    marker and the PASS clock have been dealt with, the trial ends with this
    PASS and no further node is selected in it. *)
Theorem termination_stops_walk env s q1 q2 ysw env1 s1 changed1 fuel :
  consideration_queue s = q1 ++ q2 →
  trial_terminated env s = Ok false →
  walk caller q1 env (reset_pass s) false = (ysw, Ok (env1, s1, changed1)) →
  trial_terminated env1 s1 = Ok true →
  ∃ ys env2 s2,
    walk caller (q1 ++ q2) env (reset_pass s) false = (ysw, Ok (env1, s1, changed1)) ∧
    run_pass caller env s = (ys, Ok (env2, s2)) ∧
    (∀ ts, counts_total s2 ts = counts_total s1 ts) ∧
    counts_useable s2 = counts_useable s1 ∧
    (trial_terminated env2 s2 = Ok true →
     trial_loop caller (S (S fuel)) env s = (ys, Ok (env2, s2))).
Proof.
  intros Hq Hbegin Hwalk Hstop.
  pose proof (walk_stops q1 q2 _ _ _ _ _ _ _ Hwalk Hstop) as Hfull.
  assert (Hpass : run_pass caller env s =
    (ysw ++ (if changed1 then [] else [∅]),
     Ok (if changed1 then env1 else caller ∅ env1,
         _increment_time
           (if changed1 then s1
            else _increment_time (set_execution_list s1 (execution_list s1 ++ [∅])) TIME_STEP)
           PASS))).
  { unfold run_pass.
    change (consideration_queue (reset_pass s)) with (consideration_queue s).
    rewrite Hq, Hfull, gen_bind_pair. cbv beta iota.
    rewrite emit_stalled_pass_spec.
    destruct changed1; rewrite gen_bind_pair; reflexivity. }
  eexists _, _, _. split; [exact Hfull|]. split; [exact Hpass|].
  split; [by destruct changed1|]. split; [by destruct changed1|].
  intros Hend. cbn [trial_loop].
  rewrite Hbegin, gen_bind_lift_Ok, Hpass, gen_bind_pair. cbv beta iota.
  rewrite Hend, gen_bind_lift_Ok. cbn [mret gen_mret fst snd]. by rewrite app_nil_r.
Qed.

(** Passes beyond the one that ends the trial are never made. *)
Lemma trial_loop_more_fuel fuel k env s ys r :
  trial_loop caller fuel env s = (ys, Ok r) →
  trial_loop caller (fuel + k) env s = (ys, Ok r).
Proof.
  revert env s ys. induction fuel as [|fuel IH]; intros env s ys Hrun; [done|].
  cbn [trial_loop Nat.add] in *.
  apply gen_bind_Ok in Hrun as (stop & ys0 & ys1 & Hcheck & Hrun & ->).
  injection Hcheck as <- Hcheck. rewrite Hcheck, gen_bind_lift_Ok. cbn [app].
  destruct stop; [done|].
  apply gen_bind_Ok in Hrun as ([env1 s1] & ys2 & ys3 & Hpass & Hrun & ->).
  rewrite Hpass, gen_bind_pair. cbv beta iota. by rewrite (IH _ _ _ Hrun).
Qed.

Lemma run_more_fuel fuel k termination_conds_ env s ys r :
  run caller fuel termination_conds_ env s = (ys, Ok r) →
  run caller (fuel + k) termination_conds_ env s = (ys, Ok r).
Proof.
  unfold run. intros Hrun.
  apply gen_bind_Ok in Hrun as (validated & ys0 & ys1 & Hval & Hrun & ->).
  injection Hval as <- Hval. rewrite Hval, gen_bind_lift_Ok. cbn [app].
  apply gen_bind_Ok in Hrun as ([env1 s1] & ys2 & ys3 & Hloop & Hrun & ->).
  rewrite (trial_loop_more_fuel _ k _ _ _ _ Hloop), gen_bind_pair.
  cbv beta iota zeta in *. by rewrite Hrun.
Qed.

(** One PASS on the clocks of the rows it does not reset. *)
Lemma run_pass_times env s ys env' s' :
  run_pass caller env s = (ys, Ok (env', s')) →
  1 ≤ length ys ∧
  ∀ p, p ≠ PASS →
    times s' p TIME_STEP = (times s p TIME_STEP + Z.of_nat (length ys))%Z ∧
    times s' p PASS = (times s p PASS + 1)%Z ∧
    times s' p TRIAL = times s p TRIAL ∧
    times s' p RUN = times s p RUN ∧
    times s' p LIFE = times s p LIFE.
Proof.
  intros Hrun.
  apply run_pass_Ok in Hrun as (ysw & env1 & s1 & _ & Hadv & _ & -> & _ & ->).
  destruct Hadv as (_ & _ & _ & Htimes & _).
  assert (Hrow : ∀ p q, p ≠ PASS →
    times s1 p q = if decide (q = TIME_STEP) then (times s p q + Z.of_nat (length ysw))%Z
                   else times s p q).
  { intros p q Hp. rewrite Htimes, !times_reset_pass.
    by destruct (decide (p = PASS)). }
  destruct ysw as [|y ysw].
  - rewrite bool_decide_eq_false_2 by (intros Hn; by apply Hn).
    split; [simpl; lia|]. intros p Hp.
    simpl. rewrite !Hrow by done. simpl. repeat split; lia.
  - rewrite bool_decide_eq_true_2 by done.
    split; [simpl; lia|]. intros p Hp.
    rewrite app_nil_r. simpl. rewrite !Hrow by done. simpl. repeat split; lia.
Qed.

Lemma trial_loop_times fuel env s ys env' s' :
  trial_loop caller fuel env s = (ys, Ok (env', s')) →
  ∃ passes : nat, passes ≤ length ys ∧
  ∀ p, p ≠ PASS →
    times s' p TIME_STEP = (times s p TIME_STEP + Z.of_nat (length ys))%Z ∧
    times s' p PASS = (times s p PASS + Z.of_nat passes)%Z ∧
    times s' p TRIAL = times s p TRIAL ∧
    times s' p RUN = times s p RUN ∧
    times s' p LIFE = times s p LIFE.
Proof.
  revert env s ys. induction fuel as [|fuel IH]; intros env s ys Hrun; [done|].
  cbn [trial_loop] in Hrun.
  apply gen_bind_Ok in Hrun as (stop & ys0 & ys1 & Hcheck & Hrun & ->).
  injection Hcheck as <- Hcheck. cbn [app].
  destruct stop.
  - injection Hrun as <- <- <-. exists 0. split; [simpl; lia|]. intros p _. simpl.
    repeat split; lia.
  - apply gen_bind_Ok in Hrun as ([env1 s1] & ys2 & ys3 & Hpass & Hrun & ->).
    apply run_pass_times in Hpass as (Hlen & Hpass).
    apply IH in Hrun as (passes & Hle & Hrest).
    exists (S passes). rewrite length_app. split; [lia|]. intros p Hp.
    destruct (Hpass p Hp) as (H1 & H2 & H3 & H4 & H5).
    destruct (Hrest p Hp) as (R1 & R2 & R3 & R4 & R5).
    rewrite R1, R2, R3, R4, R5, H1, H2, H3, H4, H5. repeat split; lia.
Qed.

(** Validation touches the condition set and the termination conditions
    only. *)
Lemma validate_condition_set_frame s :
  execution_list (_validate_condition_set s) = execution_list s ∧
  consideration_queue (_validate_condition_set s) = consideration_queue s ∧
  nodes (_validate_condition_set s) = nodes s ∧
  times (_validate_condition_set s) = times s ∧
  counts_total (_validate_condition_set s) = counts_total s ∧
  counts_useable (_validate_condition_set s) = counts_useable s.
Proof.
  unfold _validate_condition_set.
  assert (Hfold : ∀ l s0,
    let s' := foldl (λ s node_,
                       if decide (node_ ∈ dom (condition_set s)) then s
                       else add_condition s node_ (new_condition Always)) s0 l in
    execution_list s' = execution_list s0 ∧ consideration_queue s' = consideration_queue s0 ∧
    nodes s' = nodes s0 ∧ times s' = times s0 ∧ counts_total s' = counts_total s0 ∧
    counts_useable s' = counts_useable s0).
  { induction l as [|n l IH]; intros s0; [repeat split|].
    cbn [foldl].
    destruct (IH (if decide (n ∈ dom (condition_set s0)) then s0
                  else add_condition s0 n (new_condition Always)))
      as (-> & -> & -> & -> & -> & ->).
    destruct (decide (n ∈ dom (condition_set s0))); repeat split. }
  apply Hfold.
Qed.

Lemma validate_run_state_frame s s' :
  _validate_run_state s = Ok s' →
  execution_list s' = execution_list s ∧ consideration_queue s' = consideration_queue s ∧
  nodes s' = nodes s ∧ times s' = times s ∧ counts_total s' = counts_total s ∧
  counts_useable s' = counts_useable s.
Proof.
  unfold _validate_run_state, _validate_termination. intros Hrun.
  inv_bind Hrun. injection Hrun as <-. simpl.
  apply validate_condition_set_frame.
Qed.

(** A run that ends normally, against the scheduler it started from. *)
Lemma run_Ok fuel termination_conds_ env s ys ret env' s' :
  run caller fuel termination_conds_ env s = (ys, Ok (ret, env', s')) →
  ret = execution_list s' ∧
  execution_list s' = execution_list s ++ ys ∧
  (∀ ts X, ts = RUN ∨ ts = LIFE →
           counts_total s' ts !! X =
           (λ c, c + occurrences X ys)%Z <$> counts_total s ts !! X) ∧
  (∀ X, counts_total s' TRIAL !! X = (λ _, occurrences X ys) <$> counts_total s TRIAL !! X) ∧
  times s' TRIAL TIME_STEP = Z.of_nat (length ys) ∧
  times s' TRIAL TRIAL = 1%Z ∧
  ∃ validated s1,
    _validate_run_state (set_termination_conds s termination_conds_) = Ok validated ∧
    trial_loop caller fuel env (reset_trial validated) = (ys, Ok (env', s1)) ∧
    s' = _increment_time s1 TRIAL ∧
    counts_useable (reset_trial validated) = zero_table (nodes s) ∧
    (∀ X, counts_total (reset_trial validated) TRIAL !! X =
          (λ _, 0%Z) <$> counts_total s TRIAL !! X) ∧
    (∀ q, times (reset_trial validated) TRIAL q = 0%Z) ∧
    (∀ ts, ts ≠ TRIAL → counts_total (reset_trial validated) ts = counts_total s ts) ∧
    (∀ p q, p ≠ TRIAL → times (reset_trial validated) p q = times s p q) ∧
    execution_list (reset_trial validated) = execution_list s.
Proof.
  unfold run. intros Hrun.
  apply gen_bind_Ok in Hrun as (validated & ys0 & ys1 & Hval & Hrun & ->).
  injection Hval as <- Hval. cbn [app].
  apply gen_bind_Ok in Hrun as ([env1 s1] & ys2 & ys3 & Hloop & Hrun & ->).
  injection Hrun as <- <- <- <-. rewrite app_nil_r.
  apply validate_run_state_frame in Hval as Hframe.
  destruct Hframe as (He & Hq & Hn & Htimes & Htotal & Huse).
  simpl in He, Hq, Hn, Htimes, Htotal, Huse.
  pose proof (trial_loop_history _ _ _ _ _ _ Hloop) as (He1 & Hc1 & _).
  pose proof (trial_loop_times _ _ _ _ _ _ Hloop) as (passes & _ & Hrows).
  destruct (Hrows TRIAL) as (T1 & _ & T3 & _); [done|].
  assert (Hreset : ∀ ts, ts ≠ TRIAL → counts_total (reset_trial validated) ts = counts_total s ts).
  { intros ts Hts. unfold reset_trial, _reset_count. simpl. rewrite decide_False by done.
    by rewrite Htotal. }
  split; [done|]. split; [|split; [|split; [|split; [|split]]]].
  - cbn [_increment_time set_times execution_list]. rewrite He1. simpl. by rewrite He.
  - intros ts X Hts. cbn [_increment_time set_times counts_total].
    rewrite Hc1 by (destruct Hts as [-> | ->]; done).
    rewrite Hreset by (destruct Hts as [-> | ->]; done). done.
  - intros X. cbn [_increment_time set_times counts_total]. rewrite Hc1 by done.
    unfold reset_trial, _reset_count. simpl. rewrite lookup_fmap, Htotal.
    by destruct (counts_total s TRIAL !! X).
  - rewrite times_increment_other by done. rewrite T1. simpl. lia.
  - rewrite times_increment_same, T3. simpl. lia.
  - exists validated, s1. split; [done|]. split; [done|]. split; [done|].
    split; [|split; [|split; [|split; [done|split]]]].
    + unfold reset_trial. simpl. by rewrite Hn.
    + intros X. unfold reset_trial, _reset_count. simpl. by rewrite lookup_fmap, Htotal.
    + intros q. done.
    + intros p q Hp. unfold reset_trial. simpl. rewrite decide_False by done. by rewrite Htimes.
    + unfold reset_trial. simpl. done.
Qed.

(** C10. [run()] never clears the history: the sets it yields are appended
    to the [execution_list] it found, and the list it returns when exhausted
    is that whole history, earlier runs included. [counts_total] at the RUN
    and LIFE scales is never reset: over the run it grows, for each node, by
    the number of yielded sets the node is in. What the run leaves at the
    TRIAL scale does not depend on what it found there: the TRIAL count of a
    node is the number of yielded sets the node is in, and in the TRIAL row
    of [times] the TIME_STEP clock is the number of yielded sets and the
    TRIAL clock is 1. The passes of the run are those of the outer loop
    started from the validated scheduler with [counts_useable] reset for
    all pairs, the TRIAL scale of [counts_total] reset and the TRIAL row of
    [times] reset, and nothing else: the other scales and rows and the
    history are as before the call; the scheduler the run leaves is the one
    that loop leaves, with the TRIAL clocks advanced once. *)
Theorem history_is_kept fuel termination_conds_ env s ys ret env' s' :
  run caller fuel termination_conds_ env s = (ys, Ok (ret, env', s')) →
  ret = execution_list s' ∧
  execution_list s' = execution_list s ++ ys ∧
  (∀ ts X, ts = RUN ∨ ts = LIFE →
           counts_total s' ts !! X =
           (λ c, c + occurrences X ys)%Z <$> counts_total s ts !! X) ∧
  (∀ X, counts_total s' TRIAL !! X = (λ _, occurrences X ys) <$> counts_total s TRIAL !! X) ∧
  times s' TRIAL TIME_STEP = Z.of_nat (length ys) ∧
  times s' TRIAL TRIAL = 1%Z ∧
  ∃ validated s1,
    _validate_run_state (set_termination_conds s termination_conds_) = Ok validated ∧
    trial_loop caller fuel env (reset_trial validated) = (ys, Ok (env', s1)) ∧
    s' = _increment_time s1 TRIAL ∧
    counts_useable (reset_trial validated) = zero_table (nodes s) ∧
    (∀ X, counts_total (reset_trial validated) TRIAL !! X =
          (λ _, 0%Z) <$> counts_total s TRIAL !! X) ∧
    (∀ q, times (reset_trial validated) TRIAL q = 0%Z) ∧
    (∀ ts, ts ≠ TRIAL → counts_total (reset_trial validated) ts = counts_total s ts) ∧
    (∀ p q, p ≠ TRIAL → times (reset_trial validated) p q = times s p q) ∧
    execution_list (reset_trial validated) = execution_list s.
Proof. apply run_Ok. Qed.

(** Two runs in a row: the second returns the yields of both after the
    history the first one found. *)
Corollary second_run_appends fuel1 fuel2 tc1 tc2 env s ys1 ret1 env1 s1 ys2 ret2 env2 s2 :
  run caller fuel1 tc1 env s = (ys1, Ok (ret1, env1, s1)) →
  run caller fuel2 tc2 env1 s1 = (ys2, Ok (ret2, env2, s2)) →
  ret2 = execution_list s ++ ys1 ++ ys2.
Proof.
  intros (_ & He1 & _)%run_Ok (-> & He2 & _)%run_Ok.
  by rewrite He2, He1, app_assoc.
Qed.


End RunProperties.

(** ** The consideration queue built from a graph *)

Section ConstructionProperties.
Context {node : Type} `{Hnode : Countable node}.
Implicit Types graph : gmap node (gset node).
Implicit Types remaining layer : gset node.

Lemma size_zero_empty (X : gset node) : size X = 0 → X = ∅.
Proof. intros Hsize. by apply leibniz_equiv, size_empty_iff. Qed.

Lemma prerequisite_in_graph graph a b :
  a ∈ prerequisites graph b → a ∈ graph_nodes graph ∧ b ∈ graph_nodes graph.
Proof.
  unfold prerequisites, graph_nodes. destruct (graph !! b) as [deps|] eqn:Hb; simpl; [|set_solver].
  intros Ha. split.
  - apply elem_of_union. right. apply elem_of_union_list. exists deps. split; [|done].
    apply list_elem_of_fmap. exists (b, deps). split; [done|]. by apply elem_of_map_to_list.
  - apply elem_of_union. left. by apply elem_of_dom_2 in Hb.
Qed.

Lemma depends_on_in_graph graph x y :
  tc (depends_on graph) x y → x ∈ graph_nodes graph ∧ y ∈ graph_nodes graph.
Proof.
  induction 1 as [x y Hxy|x z y Hxz _ [_ IH]].
  - apply prerequisite_in_graph in Hxy. tauto.
  - apply prerequisite_in_graph in Hxz. tauto.
Qed.

Lemma elem_of_extractable graph remaining n :
  n ∈ extractable graph remaining ↔
  n ∈ remaining ∧ ∀ a, a ∈ prerequisites graph n → a ∉ remaining.
Proof.
  unfold extractable. rewrite elem_of_filter, elem_of_disjoint. naive_solver.
Qed.

(** In an acyclic graph some remaining node has no remaining prerequisite. *)
Lemma extractable_nonempty graph remaining :
  acyclic graph → remaining ≠ ∅ → extractable graph remaining ≠ ∅.
Proof.
  intros Hacyclic [x Hx]%set_choose_L.
  assert (Hsn : sn (depends_on graph) x).
  { apply tc_finite_sn; [exact Hacyclic|].
    exists (elements (graph_nodes graph)). intros y Hy.
    apply elem_of_elements. by apply depends_on_in_graph in Hy as [_ ?]. }
  induction Hsn as [x _ IH].
  destruct (decide (prerequisites graph x ∩ remaining = ∅)) as [Hnone|Hsome].
  - intros Hempty. assert (x ∈ extractable graph remaining) as Hin; [|set_solver].
    apply elem_of_extractable. split; [done|]. set_solver.
  - apply set_choose_L in Hsome as [a Ha]. apply elem_of_intersection in Ha as [Hdep Hrem].
    by apply (IH a).
Qed.

Lemma extractable_subseteq graph remaining : extractable graph remaining ⊆ remaining.
Proof. intros n Hn. by apply elem_of_extractable in Hn as [? _]. Qed.

Lemma size_after_extraction graph remaining :
  extractable graph remaining ≠ ∅ →
  size (remaining ∖ extractable graph remaining) < size remaining.
Proof.
  intros [n Hn]%set_choose_L. apply subset_size.
  pose proof (extractable_subseteq graph remaining). set_solver.
Qed.

(** The layering of what remains of an acyclic graph: the layers partition
    the remaining nodes, and a node comes after its remaining
    prerequisites. *)
Lemma layering_acyclic graph :
  acyclic graph →
  ∀ fuel remaining, size remaining ≤ fuel →
  ∃ layers, layering fuel graph remaining = Ok layers ∧
    (∀ n, n ∈ remaining ↔ ∃ i, in_layer layers i n) ∧
    (∀ i j n, in_layer layers i n → in_layer layers j n → i = j) ∧
    (∀ i a b, in_layer layers i b → a ∈ prerequisites graph b → a ∈ remaining →
              ∃ j, in_layer layers j a ∧ j < i).
Proof.
  intros Hacyclic. induction fuel as [|fuel IH]; intros remaining Hsize.
  - assert (remaining = ∅) as -> by (apply size_zero_empty; lia).
    exists []. simpl. rewrite decide_True by done.
    split; [done|]. unfold in_layer. split; [|split].
    + intros n. split; [set_solver|]. intros (i & l & Hl & _). by rewrite lookup_nil in Hl.
    + intros i j n (l & Hl & _). by rewrite lookup_nil in Hl.
    + intros i a b (l & Hl & _). by rewrite lookup_nil in Hl.
  - cbn [layering]. destruct (decide (remaining = ∅)) as [->|Hne].
    { exists []. split; [done|]. unfold in_layer. split; [|split].
      + intros n. split; [set_solver|]. intros (i & l & Hl & _). by rewrite lookup_nil in Hl.
      + intros i j n (l & Hl & _). by rewrite lookup_nil in Hl.
      + intros i a b (l & Hl & _). by rewrite lookup_nil in Hl. }
    pose proof (extractable_nonempty _ _ Hacyclic Hne) as Hlayer.
    rewrite decide_False by done.
    pose proof (size_after_extraction _ _ Hlayer) as Hless.
    destruct (IH (remaining ∖ extractable graph remaining)) as (rest & -> & Hcover & Hdisj & Hord);
      [lia|].
    exists (extractable graph remaining :: rest). split; [done|].
    pose proof (extractable_subseteq graph remaining) as Hsub.
    assert (Hhead : ∀ n, in_layer (extractable graph remaining :: rest) 0 n ↔
                         n ∈ extractable graph remaining).
    { intros n. unfold in_layer. simpl. split; [by intros (l & [= <-] & ?)|eauto]. }
    assert (Htail : ∀ i n, in_layer (extractable graph remaining :: rest) (S i) n ↔
                           in_layer rest i n) by done.
    split; [|split].
    + intros n. split.
      * intros Hn. destruct (decide (n ∈ extractable graph remaining)) as [Hin|Hnin].
        -- exists 0. by apply Hhead.
        -- destruct (proj1 (Hcover n)) as [i Hi]; [set_solver|]. exists (S i). by apply Htail.
      * intros [[|i] Hi].
        -- apply Hhead in Hi. by apply Hsub.
        -- apply Htail in Hi. assert (n ∈ remaining ∖ extractable graph remaining) as Hn
             by (apply Hcover; eauto). set_solver.
    + intros [|i] [|j] n Hi Hj; [done| | |].
      * apply Hhead in Hi. apply Htail in Hj.
        assert (n ∈ remaining ∖ extractable graph remaining) by (apply Hcover; eauto). set_solver.
      * apply Hhead in Hj. apply Htail in Hi.
        assert (n ∈ remaining ∖ extractable graph remaining) by (apply Hcover; eauto). set_solver.
      * apply Htail in Hi. apply Htail in Hj. f_equal. by apply (Hdisj _ _ n).
    + intros [|i] a b Hb Hdep Ha.
      * apply Hhead, elem_of_extractable in Hb as [_ Hb]. by apply Hb in Hdep.
      * destruct (decide (a ∈ extractable graph remaining)) as [Hin|Hnin].
        -- exists 0. split; [by apply Hhead|lia].
        -- apply Htail in Hb. destruct (Hord i a b Hb Hdep) as (j & Hj & Hlt); [set_solver|].
           exists (S j). split; [by apply Htail|lia].
Qed.

(** A node on a cycle has a prerequisite on a cycle. *)
Lemma cycle_predecessor graph x :
  tc (depends_on graph) x x → ∃ a, a ∈ prerequisites graph x ∧ tc (depends_on graph) a a.
Proof.
  intros Hcycle. inversion Hcycle as [? ? Hstep|? a ? Hstep Hrest]; subst.
  - exists x. split; [done|]. by apply tc_once.
  - exists a. split; [done|]. by eapply tc_r.
Qed.

(** The nodes on a cycle are never extracted, so the layering of a graph
    with a cycle ends in [CyclicGraphError]. *)
Lemma layering_cyclic graph x :
  tc (depends_on graph) x x →
  ∀ fuel remaining, size remaining ≤ fuel →
    (∀ y, tc (depends_on graph) y y → y ∈ remaining) →
    layering fuel graph remaining = Raise CyclicGraphError.
Proof.
  intros Hx. induction fuel as [|fuel IH]; intros remaining Hsize Hcyc.
  - assert (remaining = ∅) as -> by (apply size_zero_empty; lia).
    apply Hcyc in Hx. set_solver.
  - cbn [layering]. rewrite decide_False by (apply Hcyc in Hx; set_solver).
    destruct (decide (extractable graph remaining = ∅)) as [|Hlayer]; [done|].
    pose proof (size_after_extraction _ _ Hlayer) as Hless.
    rewrite IH; [done|lia|].
    intros y Hy. apply elem_of_difference. split; [by apply Hcyc|].
    intros [_ Hnone]%elem_of_extractable.
    destruct (cycle_predecessor _ _ Hy) as (a & Hdep & Ha).
    apply (Hnone a Hdep). by apply Hcyc.
Qed.

Lemma in_layer_elements (layers : list (gset node)) i n :
  in_layer ((λ new_set, Iterable (elements new_set)) <$> layers) i n ↔ in_layer layers i n.
Proof.
  unfold in_layer. rewrite list_lookup_fmap. split.
  - intros (l & Hl & Hn). destruct (layers !! i) as [layer|]; [|done].
    injection Hl as <-. exists layer. split; [done|].
    by apply (elem_of_elements layer n).
  - intros (layer & -> & Hn). exists (Iterable (elements layer)). split; [done|].
    by apply (elem_of_elements layer n).
Qed.

(** C5. For an acyclic dependency graph the construction of the
    consideration queue succeeds, and the queue it stores partitions the
    nodes of the graph into layers: every entry of the queue can be
    iterated, a node of the graph is in some layer, no node is in two layers
    or twice in one, and for every edge a → b (a is a prerequisite of b) the
    layer of a comes strictly before the layer of b. *)
Theorem consideration_queue_layers {C} (s : Scheduler node C) (system : System node) :
  acyclic (executionGraph system) →
  (_init_consideration_queue_from_system s system).2 = Ok () ∧
  (∀ n, n ∈ graph_nodes (executionGraph system) ↔
        ∃ i, in_layer (consideration_queue (_init_consideration_queue_from_system s system).1) i n) ∧
  (∀ i j n,
     in_layer (consideration_queue (_init_consideration_queue_from_system s system).1) i n →
     in_layer (consideration_queue (_init_consideration_queue_from_system s system).1) j n →
     i = j) ∧
  (∀ i entry,
     consideration_queue (_init_consideration_queue_from_system s system).1 !! i = Some entry →
     ∃ l, entry = Iterable l ∧ NoDup l) ∧
  (∀ a b, a ∈ prerequisites (executionGraph system) b →
     ∃ i j,
       in_layer (consideration_queue (_init_consideration_queue_from_system s system).1) i a ∧
       in_layer (consideration_queue (_init_consideration_queue_from_system s system).1) j b ∧
       i < j).
Proof.
  intros Hacyclic. unfold _init_consideration_queue_from_system, toposort.
  destruct (layering_acyclic _ Hacyclic (size (graph_nodes (executionGraph system)))
              (graph_nodes (executionGraph system)))
    as (layers & -> & Hcover & Hdisj & Hord); [done|].
  cbn [fst snd consideration_queue set_consideration_queue].
  split; [done|]. split; [|split; [|split]].
  - intros n. rewrite Hcover. by setoid_rewrite in_layer_elements.
  - intros i j n Hi%in_layer_elements Hj%in_layer_elements. by apply (Hdisj _ _ n).
  - intros i entry Hl. rewrite list_lookup_fmap in Hl.
    destruct (layers !! i) as [layer|]; [|done]. injection Hl as <-.
    eexists. split; [done|]. apply NoDup_elements.
  - intros a b Hdep. pose proof (prerequisite_in_graph _ _ _ Hdep) as [Ha Hb].
    apply Hcover in Hb as [j Hj].
    destruct (Hord j a b Hj Hdep Ha) as (i & Hi & Hlt).
    exists i, j. by rewrite !in_layer_elements.
Qed.

(** C6. For a dependency graph with a cycle the layering raises
    [CyclicGraphError]; the construction of the consideration queue passes
    the error on and leaves the scheduler as it found it, its queue
    included, so there is no partially built queue; and the constructor
    raises instead of returning a Scheduler. *)
Theorem cyclic_graph_rejected {C} (s : Scheduler node C) (system : System node)
    condition_set_ nodes_ toposort_ordering :
  has_cycle (executionGraph system) →
  toposort (executionGraph system) = Raise CyclicGraphError ∧
  _init_consideration_queue_from_system s system = (s, Raise CyclicGraphError) ∧
  __init__ (C := C) (Some system) condition_set_ nodes_ toposort_ordering
    = Raise CyclicGraphError.
Proof.
  intros [x Hx].
  assert (Htopo : toposort (executionGraph system) = Raise CyclicGraphError).
  { unfold toposort. apply (layering_cyclic _ x Hx); [done|].
    intros y Hy. by apply depends_on_in_graph in Hy as [_ ?]. }
  split; [done|]. split.
  - unfold _init_consideration_queue_from_system. by rewrite Htopo.
  - unfold __init__, _init_consideration_queue_from_system. by rewrite Htopo.
Qed.

End ConstructionProperties.

(** ** The constructor and the validation of the condition set *)

Section MoreProperties.
Context {node : Type} `{Hnode : Countable node} {C Env : Type} `{!ConditionLib node C Env}.
Variable caller : gset node → Env → Env.
Implicit Types s : Scheduler node C.
Implicit Types X n m : node.

Lemma lookup_zero_row (ns : list node) n :
  zero_row ns !! n = if decide (n ∈ ns) then Some 0%Z else None.
Proof.
  unfold zero_row. rewrite lookup_gset_to_gmap.
  destruct (decide (n ∈ ns)) as [Hin|Hnin].
  - rewrite option_guard_True; [done|]. by apply elem_of_list_to_set.
  - rewrite option_guard_False; [done|]. by rewrite elem_of_list_to_set.
Qed.

Lemma credit_zero_table (ns : list node) a b :
  credit (zero_table ns) a b = if decide (a ∈ ns ∧ b ∈ ns) then Some 0%Z else None.
Proof.
  unfold credit, zero_table. rewrite lookup_gset_to_gmap.
  destruct (decide (a ∈ ns)) as [Ha|Ha].
  - rewrite option_guard_True by (by apply elem_of_list_to_set). simpl.
    rewrite lookup_zero_row. destruct (decide (b ∈ ns)).
    + by rewrite decide_True.
    + rewrite decide_False; [done|]. tauto.
  - rewrite option_guard_False by (by rewrite elem_of_list_to_set). simpl.
    rewrite decide_False; [done|]. tauto.
Qed.

Lemma zero_table_cover (ns : list node) s :
  (∀ ts, dom (counts_total s ts) = list_to_set ns) →
  counters_cover (set_counts_useable s (zero_table ns)) (list_to_set ns).
Proof.
  intros Htot. split; [done|]. split; simpl.
  - unfold zero_table. apply dom_gset_to_gmap.
  - intros n row Hrow. unfold zero_table in Hrow.
    apply lookup_gset_to_gmap_Some in Hrow as [_ <-]. apply dom_gset_to_gmap.
Qed.

(** X1. The constructor. Without a System it raises [SchedulerError] when
    no list of nodes is given, and when a list of nodes is given without an
    ordering; with a System, the [nodes] and [toposort_ordering] arguments
    play no part. From a list of nodes and an ordering it always succeeds
    and stores both verbatim: the ordering is not checked against the
    nodes. Whenever it succeeds, the history is empty, no termination
    conditions are stored, every clock is 0, and there is a counter, equal
    to 0, exactly for every node ([counts_total]) and every pair of nodes
    ([counts_useable]). *)
Theorem constructor_outcome (condition_set_ : option (gmap node (Condition node C))) :
  (∀ ordering, __init__ None condition_set_ None ordering = Raise SchedulerError) ∧
  (∀ ns, __init__ None condition_set_ (Some ns) None = Raise SchedulerError) ∧
  (∀ system ns ordering,
     __init__ (Some system) condition_set_ ns ordering =
     __init__ (Some system) condition_set_ None None) ∧
  (∀ ns ordering, ∃ s,
     __init__ None condition_set_ (Some ns) (Some ordering) = Ok s ∧
     nodes s = ns ∧ consideration_queue s = ordering ∧
     condition_set s = default ∅ condition_set_) ∧
  (∀ system ns ordering,
     match __init__ system condition_set_ ns ordering with
     | Ok s =>
         execution_list s = [] ∧ termination_conds s = None ∧
         (∀ p q, times s p q = 0%Z) ∧
         (∀ ts n, counts_total s ts !! n = if decide (n ∈ nodes s) then Some 0%Z else None) ∧
         (∀ a b, credit (counts_useable s) a b =
                 if decide (a ∈ nodes s ∧ b ∈ nodes s) then Some 0%Z else None) ∧
         counters_cover s (list_to_set (nodes s))
     | _ => True
     end).
Proof.
  split; [done|]. split; [done|]. split; [done|]. split.
  { intros ns ordering. eexists. split; [reflexivity|]. done. }
  intros system ns ordering.
  assert (Hfresh : ∀ s0 : Scheduler node C,
    execution_list s0 = [] → termination_conds s0 = None →
    execution_list (_init_counts s0) = [] ∧ termination_conds (_init_counts s0) = None ∧
    (∀ p q, times (_init_counts s0) p q = 0%Z) ∧
    (∀ ts n, counts_total (_init_counts s0) ts !! n =
             if decide (n ∈ nodes (_init_counts s0)) then Some 0%Z else None) ∧
    (∀ a b, credit (counts_useable (_init_counts s0)) a b =
            if decide (a ∈ nodes (_init_counts s0) ∧ b ∈ nodes (_init_counts s0))
            then Some 0%Z else None) ∧
    counters_cover (_init_counts s0) (list_to_set (nodes (_init_counts s0)))).
  { intros s0 He Ht. split; [done|]. split; [done|]. split; [done|]. split; [|split].
    - intros ts n. apply lookup_zero_row.
    - intros a b. apply credit_zero_table.
    - unfold _init_counts. simpl. split; [|split]; simpl.
      + intros ts. apply dom_gset_to_gmap.
      + apply dom_gset_to_gmap.
      + intros n row Hrow. unfold zero_table in Hrow.
        apply lookup_gset_to_gmap_Some in Hrow as [_ <-]. apply dom_gset_to_gmap. }
  unfold __init__. destruct system as [system|].
  - unfold _init_consideration_queue_from_system.
    destruct (toposort (executionGraph system)) as [layers| |];
      cbn [mbind result_bind rbind fst snd]; [|done..].
    by apply Hfresh.
  - destruct ns as [ns|]; [|done]. destruct ordering as [ordering|]; [|done].
    cbn [mbind result_bind rbind fst snd]. by apply Hfresh.
Qed.

(** The loop of [_validate_condition_set] over any list of nodes. *)
Lemma add_defaults l s :
  let s' := foldl (λ s node_,
                     if decide (node_ ∈ dom (condition_set s)) then s
                     else add_condition s node_ (new_condition Always)) s l in
  (∀ n, condition_set s' !! n =
        match condition_set s !! n with
        | Some c => Some c
        | None => if decide (n ∈ l) then Some (mkCondition Always (Some n) true) else None
        end) ∧
  ((∀ n, n ∈ l → is_Some (condition_set s !! n)) → s' = s).
Proof.
  revert s. induction l as [|x l IH]; intros s; cbn zeta.
  - split; [|done]. intros n. cbn [foldl]. destruct (condition_set s !! n); [done|].
    rewrite decide_False; [done|]. apply not_elem_of_nil.
  - cbn [foldl]. destruct (decide (x ∈ dom (condition_set s))) as [Hx|Hx].
    + destruct (IH s) as [Hlook Hsame]. cbn zeta in Hlook, Hsame. split.
      * intros n. rewrite Hlook. destruct (condition_set s !! n) as [c|] eqn:Hn; [done|].
        destruct (decide (n ∈ l)) as [Hin|Hnin].
        -- rewrite decide_True; [done|]. apply elem_of_cons. by right.
        -- rewrite decide_False; [done|]. rewrite elem_of_cons. intros [->|?]; [|done].
           apply elem_of_dom in Hx as [? ?]. congruence.
      * intros Hall. apply Hsame. intros n Hn. apply Hall. apply elem_of_cons. by right.
    + destruct (IH (add_condition s x (new_condition Always))) as [Hlook _].
      cbn zeta in Hlook. split.
      * intros n. rewrite Hlook. unfold add_condition. simpl.
        apply not_elem_of_dom in Hx. destruct (decide (n = x)) as [->|Hne].
        -- rewrite lookup_insert_eq, Hx. rewrite decide_True; [done|].
           apply elem_of_cons. by left.
        -- rewrite lookup_insert_ne by done. destruct (condition_set s !! n); [done|].
           destruct (decide (n ∈ l)) as [Hin|Hnin].
           ++ rewrite decide_True; [done|]. apply elem_of_cons. by right.
           ++ rewrite decide_False; [done|]. rewrite elem_of_cons. intros [?|?]; done.
      * intros Hall. exfalso. apply Hx, elem_of_dom, Hall. apply elem_of_cons. by left.
Qed.

(** X2. [_validate_condition_set] gives every node of the scheduler a
    Condition and never replaces one: an entry that was there is kept as it
    is, a node without one gets [Always()] registered for it, and entries
    for anything that is not a node are neither added nor removed. After it
    [__contains__] holds of every node, and validating again changes
    nothing. *)
Theorem validate_condition_set_completes s :
  (∀ n c, condition_set s !! n = Some c →
          condition_set (_validate_condition_set s) !! n = Some c) ∧
  (∀ n, n ∈ nodes s → condition_set s !! n = None →
        condition_set (_validate_condition_set s) !! n
          = Some (mkCondition Always (Some n) true)) ∧
  (∀ n, n ∉ nodes s →
        condition_set (_validate_condition_set s) !! n = condition_set s !! n) ∧
  (∀ n, n ∈ nodes s → __contains__ (_validate_condition_set s) n = true) ∧
  _validate_condition_set (_validate_condition_set s) = _validate_condition_set s.
Proof.
  pose proof (add_defaults (nodes s) s) as [Hlook _]. cbn zeta in Hlook.
  fold (_validate_condition_set s) in Hlook.
  pose proof (validate_condition_set_frame s) as (_ & _ & Hnodes & _).
  split; [|split; [|split; [|split]]].
  - intros n c Hn. by rewrite Hlook, Hn.
  - intros n Hin Hn. rewrite Hlook, Hn. by rewrite decide_True.
  - intros n Hnin. rewrite Hlook. destruct (condition_set s !! n); [done|].
    by rewrite decide_False.
  - intros n Hin. unfold __contains__. apply bool_decide_eq_true_2, elem_of_dom.
    rewrite Hlook. destruct (condition_set s !! n); [eauto|]. rewrite decide_True by done. eauto.
  - pose proof (add_defaults (nodes (_validate_condition_set s)) (_validate_condition_set s))
      as [_ Hsame]. cbn zeta in Hsame. apply Hsame.
    intros n Hin. rewrite Hnodes in Hin. rewrite Hlook.
    destruct (condition_set s !! n); [eauto|]. rewrite decide_True by done. eauto.
Qed.

(** Validation does not look at the counters. *)
Lemma validate_run_state_ignores_credit s (useable : gmap node (gmap node Z)) :
  _validate_run_state (set_counts_useable s useable) =
  (v ← _validate_run_state s; Ok (set_counts_useable v useable)).
Proof.
  assert (Hfold : ∀ l s0,
    foldl (λ s node_,
             if decide (node_ ∈ dom (condition_set s)) then s
             else add_condition s node_ (new_condition Always))
          (set_counts_useable s0 useable) l =
    set_counts_useable
      (foldl (λ s node_,
                if decide (node_ ∈ dom (condition_set s)) then s
                else add_condition s node_ (new_condition Always)) s0 l) useable).
  { induction l as [|x l IH]; intros s0; [done|]. cbn [foldl].
    rewrite <- IH. f_equal. cbn [condition_set set_counts_useable].
    by destruct (decide (x ∈ dom (condition_set s0))). }
  unfold _validate_run_state, _validate_condition_set.
  cbn [nodes set_counts_useable]. rewrite Hfold.
  unfold _validate_termination. cbn [termination_conds set_counts_useable].
  match goal with |- context [for_each ?b ?l ?c] => destruct (for_each b l c) end; done.
Qed.

(** X3. Neither usable credit nor termination conditions carry over from
    one [run()] to the next: whatever [counts_useable] and
    [termination_conds] hold when [run()] is called, the yields, the outcome
    and the final scheduler are the same. *)
Theorem run_ignores_stale_credit fuel termination_conds_ env s
    (useable : gmap node (gmap node Z))
    (stale : option (gmap TimeScale (option (Condition node C)))) :
  run caller fuel termination_conds_ env
      (set_termination_conds (set_counts_useable s useable) stale) =
  run caller fuel termination_conds_ env s.
Proof.
  unfold run.
  change (set_termination_conds (set_termination_conds (set_counts_useable s useable) stale)
            termination_conds_)
    with (set_counts_useable (set_termination_conds s termination_conds_) useable).
  rewrite validate_run_state_ignores_credit.
  destruct (_validate_run_state (set_termination_conds s termination_conds_)); done.
Qed.

(** ** The time step of a layer is as large as it can be *)

(** At a scan that changes nothing, every node of the layer outside the
    time step has just been found unsatisfied. *)
Lemma scan_fixed env layer f :
  scan env layer f = Ok f →
  cur_consideration_set_has_changed f = false →
  ∀ X, X ∈ layer → X ∉ cur_time_step_exec f →
       ∃ c, condition_set (self f) !! X = Some c ∧ is_satisfied c env (self f) = Ok false.
Proof.
  induction layer as [|X0 layer IH]; intros Hscan Hflag X Hin Hout.
  - by apply elem_of_nil in Hin.
  - unfold scan in Hscan. rewrite for_each_cons in Hscan. inv_bind Hscan. rename a into f1.
    pose proof (scan_unchanged _ _ _ _ Hscan Hflag) as Heq. subst f1.
    apply elem_of_cons in Hin as [->|Hin]; [|by apply IH].
    unfold consider in E. rewrite decide_True in E by done.
    inv_bind E. rename a into c, E0 into Ec. apply getitem_Ok in Ec.
    inv_bind E. rename a into sat, E0 into Esat.
    destruct sat; [|by exists c].
    inv_bind E. injection E as Heq. rewrite <- Heq in Hflag. done.
Qed.

(** X4. When the scans of a layer end, the time step cannot be extended:
    every node of the layer that is not in it has a Condition, and that
    Condition is not satisfied in the scheduler state the scans leave
    behind. *)
Theorem layer_time_step_is_maximal env layer s changed f' X :
  consider_layer env layer s changed = Ok f' →
  X ∈ layer →
  X ∉ cur_time_step_exec f' →
  ∃ c, condition_set (self f') !! X = Some c ∧ is_satisfied c env (self f') = Ok false.
Proof.
  intros Hrun Hin Hout.
  apply layer_loop_Ok in Hrun as (_ & _ & Hflag & Hfix).
  by apply (scan_fixed env layer f').
Qed.

(** ** The time steps of a PASS follow the consideration queue *)

Lemma sublist_filter_length {A} (P : A → Prop) `{!∀ x, Decision (P x)} (l1 l2 : list A) :
  sublist l1 l2 → length (filter P l1) ≤ length (filter P l2).
Proof.
  induction 1 as [|x l1 l2 _ IH|x l1 l2 _ IH]; [done|..]; rewrite ?filter_cons.
  - destruct (decide (P x)); simpl; lia.
  - destruct (decide (P x)); simpl; lia.
Qed.

Lemma walk_follows_queue queue env s changed :
  ∃ layers : list (list node), sublist (Iterable <$> layers) queue ∧
    Forall2 (λ (y : gset node) layer, y ≠ ∅ ∧ y ⊆ list_to_set layer)
            (walk caller queue env s changed).1 layers.
Proof.
  revert env s changed. induction queue as [|layer queue IH]; intros env s changed.
  { exists []. split; [done|]. apply Forall2_nil_2. }
  cbn [walk]. rewrite gen_bind_yields. cbn [lift fst snd app].
  destruct (trial_terminated env s) as [[]| |];
    [exists []; split; [apply sublist_nil_l|apply Forall2_nil_2]|
    |exists []; split; [apply sublist_nil_l|apply Forall2_nil_2]..].
  destruct layer as [layer|];
    [|exists []; split; [apply sublist_nil_l|apply Forall2_nil_2]].
  rewrite gen_bind_yields. cbn [lift fst snd app].
  destruct (consider_layer env layer s changed) as [f| |] eqn:Hlayer;
    [|exists []; split; [apply sublist_nil_l|apply Forall2_nil_2]..].
  apply layer_loop_Ok in Hlayer as (_ & Hsub & _). cbn [cur_time_step_exec] in Hsub.
  rewrite gen_bind_yields, emit_time_step_spec.
  destruct (decide (cur_time_step_exec f = ∅)) as [Hempty|Hne]; cbn [fst snd app].
  - destruct (IH env (self f) (execution_list_has_changed f)) as (layers & Hsl & Hall).
    exists layers. split; [by apply sublist_cons|done].
  - destruct (IH (caller (cur_time_step_exec f) env)
                (_increment_time
                   (set_execution_list (self f)
                      (execution_list (self f) ++ [cur_time_step_exec f])) TIME_STEP)
                (execution_list_has_changed f)) as (layers & Hsl & Hall).
    exists (layer :: layers). split; [by apply sublist_skip|].
    apply Forall2_cons. split; [|done]. split; [done|]. clear -Hsub. set_solver.
Qed.

Lemma occurrences_in_layers X (ys : list (gset node)) (layers : list (list node)) queue :
  sublist (Iterable <$> layers) queue →
  Forall2 (λ (y : gset node) layer, y ≠ ∅ ∧ y ⊆ list_to_set layer) ys layers →
  length (filter (λ y : gset node, X ∈ y) ys)
    ≤ length (filter (λ entry : queue_entry node, X ∈ entry) queue).
Proof.
  intros Hsl Hall. etrans; [|apply (sublist_filter_length _ _ _ Hsl)].
  clear Hsl. induction Hall as [|y layer ys ls [_ Hsub] _ IH]; [done|].
  rewrite fmap_cons, !filter_cons. destruct (decide (X ∈ y)) as [Hy|Hy].
  - rewrite decide_True; [simpl; lia|].
    change (X ∈ layer). clear -Hsub Hy. set_solver.
  - destruct (decide (X ∈ Iterable layer)); simpl; lia.
Qed.

(** X5. Whatever its outcome, the walk yields its sets in the order of the
    consideration queue, at most one per layer: the yielded sets are,
    one for one, non-empty subsets of the layers of a sub-sequence of the
    queue, so a time step never mixes nodes of two layers and there are
    never more time steps than layers. *)
Theorem time_steps_follow_queue queue env s changed :
  ∃ layers : list (list node), sublist (Iterable <$> layers) queue ∧
    Forall2 (λ (y : gset node) layer, y ≠ ∅ ∧ y ⊆ list_to_set layer)
            (walk caller queue env s changed).1 layers ∧
    length (walk caller queue env s changed).1 ≤ length queue.
Proof.
  destruct (walk_follows_queue queue env s changed) as (layers & Hsl & Hall).
  exists layers. split; [done|]. split; [done|].
  rewrite (Forall2_length _ _ _ Hall). apply sublist_length in Hsl.
  by rewrite length_fmap in Hsl.
Qed.

(** X6. In a PASS a node runs at most once for every layer of the
    consideration queue it is in: the number of yielded sets that contain
    the node is at most the number of such layers, so a node that is in one
    layer runs at most once in a PASS and a node that is in no layer never
    runs. When the PASS ends normally that number is the node's count at the
    PASS scale, whatever the count was before. *)
Theorem node_runs_once_per_layer env s X :
  (occurrences X (run_pass caller env s).1
     ≤ Z.of_nat (length (filter (λ layer, X ∈ layer) (consideration_queue s))))%Z ∧
  ∀ ys env' s', run_pass caller env s = (ys, Ok (env', s')) →
    counts_total s' PASS !! X = (λ _, occurrences X ys) <$> counts_total s PASS !! X.
Proof.
  split.
  - unfold run_pass. rewrite gen_bind_yields.
    change (consideration_queue (reset_pass s)) with (consideration_queue s).
    destruct (walk_follows_queue (consideration_queue s) env (reset_pass s) false)
      as (layers & Hsl & Hall).
    assert (Hwalk : (occurrences X (walk caller (consideration_queue s) env (reset_pass s) false).1
                     ≤ Z.of_nat (length (filter (λ layer, X ∈ layer) (consideration_queue s))))%Z).
    { pose proof (occurrences_in_layers X _ _ _ Hsl Hall) as Hle.
      unfold occurrences. lia. }
    destruct (walk caller (consideration_queue s) env (reset_pass s) false)
      as [ysw [[[env1 s1] changed]| |]]; cbn [fst snd] in *; rewrite ?app_nil_r; try done.
    rewrite gen_bind_yields, emit_stalled_pass_spec, occurrences_app.
    destruct changed; cbn [fst snd app mret gen_mret].
    + rewrite occurrences_nil. lia.
    + rewrite (occurrences_marker X false). lia.
  - intros ys env' s' Hrun.
    apply run_pass_Ok in Hrun as (ysw & env1 & s1 & _ & Hadv & _ & -> & _ & ->).
    destruct Hadv as (_ & Hcnt & _).
    assert (counts_total
              (_increment_time
                 (if bool_decide (ysw ≠ []) then s1
                  else _increment_time (set_execution_list s1 (execution_list s1 ++ [∅]))
                         TIME_STEP) PASS) = counts_total s1) as ->
      by (by destruct (bool_decide (ysw ≠ []))).
    rewrite Hcnt, counts_total_reset_pass, occurrences_app, occurrences_marker.
    destruct (counts_total s PASS !! X); [|done]. simpl. f_equal. lia.
Qed.

(** ** Edge cases of [run] *)

Lemma gen_bind_mret {A B} (a : A) (k : A → gen (node := node) B) :
  mbind k (mret a) = k a.
Proof. apply (gen_bind_lift_Ok a k). Qed.

(** X7. When the TRIAL termination Condition already holds once [run()] has
    validated and reset the scheduler, the outer loop is not entered:
    nothing is yielded, not even the marker of a stalled PASS, and the
    history is returned as it was, although the usable credit and the TRIAL
    counters have been reset and the TRIAL clocks advance by one. *)
Theorem run_when_already_terminated fuel termination_conds_ env s validated :
  _validate_run_state (set_termination_conds s termination_conds_) = Ok validated →
  trial_terminated env (reset_trial validated) = Ok true →
  run caller (S fuel) termination_conds_ env s =
    ([], Ok (execution_list s, env, _increment_time (reset_trial validated) TRIAL)) ∧
  counts_useable (_increment_time (reset_trial validated) TRIAL) = zero_table (nodes s) ∧
  ∀ p, times (_increment_time (reset_trial validated) TRIAL) p TRIAL =
       ((if decide (p = TRIAL) then 0 else times s p TRIAL) + 1)%Z.
Proof.
  intros Hval Hstop. apply validate_run_state_frame in Hval as Hframe.
  destruct Hframe as (He & _ & Hn & Htimes & _). simpl in He, Hn, Htimes.
  split; [|split].
  - unfold run. rewrite Hval, gen_bind_lift_Ok. cbv beta zeta. cbn [trial_loop].
    rewrite Hstop, gen_bind_lift_Ok. cbv beta iota.
    rewrite gen_bind_mret. cbv beta iota zeta. by rewrite <- He.
  - simpl. by rewrite Hn.
  - intros p. rewrite times_increment_same. unfold reset_trial. simpl.
    rewrite Htimes. by destruct (decide (p = TRIAL)).
Qed.

Lemma empty_queue_pass env s :
  consideration_queue s = [] →
  run_pass caller env s =
    ([∅], Ok (caller ∅ env,
              _increment_time
                (_increment_time
                   (set_execution_list (reset_pass s) (execution_list s ++ [∅])) TIME_STEP)
                PASS)).
Proof.
  intros Hq. unfold run_pass.
  change (consideration_queue (reset_pass s)) with (consideration_queue s).
  rewrite Hq. cbn [walk]. rewrite gen_bind_mret. cbv beta iota.
  rewrite emit_stalled_pass_spec, gen_bind_pair. reflexivity.
Qed.

(** X8. With an empty consideration queue every PASS is stalled: it
    ends normally, yields the single empty set and leaves every count as the
    PASS reset left it, whatever the conditions are; so all that a [run()]
    of such a scheduler ever yields are empty sets, one per PASS. *)
Theorem empty_queue_stalls env s :
  consideration_queue s = [] →
  (∃ s', run_pass caller env s = ([∅], Ok (caller ∅ env, s')) ∧
         (∀ ts, counts_total s' ts = counts_total (reset_pass s) ts) ∧
         counts_useable s' = counts_useable s) ∧
  ∀ fuel, Forall (λ y, y = ∅) (trial_loop caller fuel env s).1.
Proof.
  intros Hq. split.
  - eexists. split; [by apply empty_queue_pass|]. done.
  - intros fuel. revert env s Hq. induction fuel as [|fuel IH]; intros env s Hq; [done|].
    cbn [trial_loop]. rewrite gen_bind_yields. cbn [lift fst snd app].
    destruct (trial_terminated env s) as [[]| |]; [done| |done..].
    rewrite gen_bind_yields, (empty_queue_pass _ _ Hq). cbn [fst snd app].
    apply Forall_cons. split; [done|]. by apply IH.
Qed.

(** ** Clocks and counts over a run *)


(** X10. The counts after a [run()] that ends normally. At the TRIAL scale
    the count of a node is the number of yielded sets the node is in: what
    earlier runs left there is gone. At the TIME_STEP scale, which nothing
    ever resets, the count has grown by that number, as it does at the RUN
    and LIFE scales. *)
Theorem counts_after_run fuel termination_conds_ env s ys ret env' s' :
  run caller fuel termination_conds_ env s = (ys, Ok (ret, env', s')) →
  ∀ X,
    counts_total s' TRIAL !! X = (λ _, occurrences X ys) <$> counts_total s TRIAL !! X ∧
    counts_total s' TIME_STEP !! X =
      (λ c, c + occurrences X ys)%Z <$> counts_total s TIME_STEP !! X.
Proof.
  unfold run. intros Hrun X.
  apply gen_bind_Ok in Hrun as (validated & ys0 & ys1 & Hval & Hrun & ->).
  injection Hval as <- Hval. cbn [app].
  apply gen_bind_Ok in Hrun as ([env1 s1] & ys2 & ys3 & Hloop & Hrun & ->).
  injection Hrun as <- <- <- <-. rewrite app_nil_r.
  apply validate_run_state_frame in Hval as (_ & _ & _ & _ & Htotal & _). simpl in Htotal.
  apply trial_loop_history in Hloop as (_ & Hcnt & _).
  cbn [_increment_time set_times counts_total].
  rewrite !Hcnt by done. unfold reset_trial, _reset_count. simpl. rewrite Htotal.
  split.
  - rewrite lookup_fmap. by destruct (counts_total s TRIAL !! X).
  - done.
Qed.

(** ** Where the exceptions of a run come from *)

Lemma safely_bind {A B} (allowed : exn → Prop) (P : A → Prop) (Q : B → Prop)
    (r : result A) (k : A → result B) :
  safely allowed P r → (∀ a, P a → safely allowed Q (k a)) → safely allowed Q (r ≫= k).
Proof. destruct r; unfold mbind, result_bind, rbind; simpl; eauto. Qed.

Lemma safely_mono {A} (allowed allowed' : exn → Prop) (P : A → Prop) (r : result A) :
  (∀ e, allowed e → allowed' e) → safely allowed P r → safely allowed' P r.
Proof. destruct r; simpl; eauto. Qed.

Lemma gen_bind_outcome {A B} (g : gen (node := node) A) (k : A → gen B) :
  (g ≫= k).2 = (g.2 ≫= λ a, (k a).2).
Proof.
  destruct g as [ys [a| |]]; [|done..].
  unfold mbind at 1, gen_mbind, gen_bind. cbn [snd mbind result_bind rbind].
  by destruct (k a).
Qed.

Lemma ready_settings ns queue s s' :
  ready ns queue s → nodes s' = nodes s → condition_set s' = condition_set s →
  consideration_queue s' = consideration_queue s →
  termination_conds s' = termination_conds s →
  counters_cover s' (list_to_set ns) → ready ns queue s'.
Proof.
  intros (Hn & Hq0 & _ & Hcs & Hq & Ht) Hn' Hcs' Hq' Ht' Hcov'.
  unfold ready. rewrite Hn', Hcs', Hq', Ht'. done.
Qed.

Lemma ready_emit ns queue s l ts :
  ready ns queue s → ready ns queue (_increment_time (set_execution_list s l) ts).
Proof.
  intros Hready. apply (ready_settings ns queue s); try done.
  destruct Hready as (_ & _ & Hcov & _). exact Hcov.
Qed.

Lemma ready_increment ns queue s ts :
  ready ns queue s → ready ns queue (_increment_time s ts).
Proof.
  intros Hready. apply (ready_settings ns queue s); try done.
  destruct Hready as (_ & _ & Hcov & _). exact Hcov.
Qed.

Lemma dom_reset_count (count : TimeScale → gmap node Z) ts0 ts :
  dom (_reset_count count ts0 ts) = dom (count ts).
Proof. unfold _reset_count. destruct (decide (ts = ts0)); [apply dom_fmap_L|done]. Qed.

Lemma ready_reset_pass ns queue s : ready ns queue s → ready ns queue (reset_pass s).
Proof.
  intros Hready. apply (ready_settings ns queue s); try done.
  destruct Hready as (_ & _ & (Htot & Huse & Hrows) & _). split; [|by split].
  intros ts. etrans; [apply (dom_reset_count (counts_total s) PASS ts)|apply Htot].
Qed.

Lemma trial_terminated_safe ns queue env s :
  ready ns queue s → safely from_condition (λ _, True) (trial_terminated env s).
Proof.
  intros (_ & _ & _ & _ & _ & conds & c & Ht & Hc). unfold trial_terminated, getitem.
  rewrite Ht, Hc. cbn [mbind result_bind rbind].
  destruct (is_satisfied c env s) eqn:E; [done| |done]. by exists c, env, s.
Qed.

(** The passes keep [ready], together with any property [I] of the
    counters that survives recording an execution and the reset of the PASS
    scale; what they raise comes from a Condition or from an entry of the
    queue that cannot be iterated. *)
Section Invariant.
Variable ns : list node.
Variable queue0 : list (queue_entry node).
Variable I : Scheduler node C → Prop.
Hypothesis I_record : ∀ s X s',
  ready ns queue0 s → X ∈ ns → I s → record_execution s X = Ok s' → I s'.
Hypothesis I_reset_pass : ∀ s, ready ns queue0 s → I s → I (reset_pass s).
Hypothesis I_counters : ∀ s s',
  counts_total s' = counts_total s → counts_useable s' = counts_useable s → I s → I s'.

Lemma consider_safe env X f :
  ready ns queue0 (self f) ∧ I (self f) → X ∈ ns →
  safely from_condition (λ f', ready ns queue0 (self f') ∧ I (self f')) (consider env X f).
Proof.
  intros [Hready HI] HX. pose proof Hready as (Hn & Hq0 & Hcov & Hcs & Hq & Ht).
  assert (HX' : X ∈ (list_to_set ns : gset node)) by (by apply elem_of_list_to_set).
  unfold consider. destruct (decide (X ∉ cur_time_step_exec f)); [|done].
  destruct (Hcs X HX) as [c Hc]. unfold getitem. rewrite Hc.
  cbn [mbind result_bind rbind].
  destruct (is_satisfied c env (self f)) as [[]|e|] eqn:Hsat; cbn [mbind result_bind rbind safely].
  - destruct (record_execution_succeeds (self f) X _ Hcov HX') as [s' Hs'].
    rewrite Hs'. cbn [rbind safely self].
    pose proof (record_execution_cover _ _ _ _ Hcov HX' Hs') as Hcov'.
    split; [|by apply (I_record (self f) X)].
    unfold record_execution in Hs'. inv_bind Hs'. inv_bind Hs'. injection Hs' as <-.
    by apply (ready_settings ns queue0 (self f)).
  - done.
  - by exists c, env, (self f).
  - done.
Qed.

Lemma scan_safe env layer f :
  ready ns queue0 (self f) ∧ I (self f) → (∀ X, X ∈ layer → X ∈ ns) →
  safely from_condition (λ f', ready ns queue0 (self f') ∧ I (self f')) (scan env layer f).
Proof.
  revert f. induction layer as [|X layer IH]; intros f Hready Hin; [done|].
  unfold scan. rewrite for_each_cons.
  apply safely_bind with (P := λ f', ready ns queue0 (self f') ∧ I (self f')).
  - apply consider_safe; [done|]. apply Hin, elem_of_cons. by left.
  - intros f' Hf'. apply IH; [done|]. intros Y HY. apply Hin, elem_of_cons. by right.
Qed.

Lemma layer_loop_safe fuel env layer f :
  ready ns queue0 (self f) ∧ I (self f) → (∀ X, X ∈ layer → X ∈ ns) →
  safely from_condition (λ f', ready ns queue0 (self f') ∧ I (self f'))
    (layer_loop fuel env layer f).
Proof.
  revert f. induction fuel as [|fuel IH]; intros f Hready Hin; [done|].
  cbn [layer_loop].
  apply safely_bind with (P := λ f', ready ns queue0 (self f') ∧ I (self f')).
  - by apply scan_safe.
  - intros f' Hf'. destruct (cur_consideration_set_has_changed f'); [by apply IH|done].
Qed.

Lemma emit_safe s l ts :
  ready ns queue0 s ∧ I s →
  ready ns queue0 (_increment_time (set_execution_list s l) ts) ∧
  I (_increment_time (set_execution_list s l) ts).
Proof.
  intros [Hready HI]. split; [by apply ready_emit|]. by apply (I_counters s).
Qed.

Lemma increment_safe s ts :
  ready ns queue0 s ∧ I s →
  ready ns queue0 (_increment_time s ts) ∧ I (_increment_time s ts).
Proof.
  intros [Hready HI]. split; [by apply ready_increment|]. by apply (I_counters s).
Qed.

Lemma walk_safe queue env s changed :
  ready ns queue0 s ∧ I s → (∀ entry, entry ∈ queue → entry ∈ queue0) →
  safely (λ e, from_condition e ∨ from_entry queue0 e)
    (λ a, ready ns queue0 a.1.2 ∧ I a.1.2) (walk caller queue env s changed).2.
Proof.
  revert env s changed.
  induction queue as [|entry queue IH]; intros env s changed Hready Hin; [done|].
  assert (Hrest : ∀ entry', entry' ∈ queue → entry' ∈ queue0).
  { intros entry' Hl. apply Hin, elem_of_cons. by right. }
  assert (Hhere : entry ∈ queue0) by (apply Hin, elem_of_cons; by left).
  cbn [walk]. rewrite gen_bind_outcome. cbn [lift snd].
  apply safely_bind with (P := λ _, True).
  { apply (safely_mono from_condition); [by left|].
    eapply trial_terminated_safe. apply Hready. }
  intros stop _. destruct stop; [done|].
  destruct entry as [layer|]; [|by right].
  rewrite gen_bind_outcome. cbn [lift snd].
  apply safely_bind with (P := λ f, ready ns queue0 (self f) ∧ I (self f)).
  { apply (safely_mono from_condition); [by left|].
    apply layer_loop_safe; [done|]. intros X HX.
    destruct Hready as [(_ & _ & _ & _ & Hq & _) _]. by apply (Hq (Iterable layer)). }
  intros f Hf. rewrite gen_bind_outcome, emit_time_step_spec.
  destruct (decide (cur_time_step_exec f = ∅)); cbn [snd mbind result_bind rbind];
    apply IH; try done; by apply emit_safe.
Qed.

Lemma run_pass_safe env s :
  ready ns queue0 s ∧ I s →
  safely (λ e, from_condition e ∨ from_entry queue0 e)
    (λ a, ready ns queue0 a.2 ∧ I a.2) (run_pass caller env s).2.
Proof.
  intros [Hready HI]. unfold run_pass. rewrite gen_bind_outcome.
  apply safely_bind with (P := λ a, ready ns queue0 a.1.2 ∧ I a.1.2).
  { apply walk_safe; [split; [by apply ready_reset_pass|by apply I_reset_pass]|].
    destruct Hready as (_ & Hq0 & _).
    change (consideration_queue (reset_pass s)) with (consideration_queue s).
    by rewrite Hq0. }
  intros [[env1 s1] changed] Hs1. cbn [fst snd] in Hs1.
  rewrite gen_bind_outcome, emit_stalled_pass_spec.
  destruct changed; cbn [snd mbind result_bind rbind safely gen_mret mret].
  - by apply increment_safe.
  - by apply increment_safe, emit_safe.
Qed.

Lemma trial_loop_safe fuel env s :
  ready ns queue0 s ∧ I s →
  safely (λ e, from_condition e ∨ from_entry queue0 e)
    (λ a, ready ns queue0 a.2 ∧ I a.2) (trial_loop caller fuel env s).2.
Proof.
  revert env s. induction fuel as [|fuel IH]; intros env s Hready; [done|].
  cbn [trial_loop]. rewrite gen_bind_outcome. cbn [lift snd].
  apply safely_bind with (P := λ _, True).
  { apply (safely_mono from_condition); [by left|].
    eapply trial_terminated_safe. apply Hready. }
  intros stop _. destruct stop; [done|].
  rewrite gen_bind_outcome.
  apply safely_bind with (P := λ a, ready ns queue0 a.2 ∧ I a.2); [by apply run_pass_safe|].
  intros [env1 s1] Hs1. by apply IH.
Qed.

End Invariant.

(** [run], once validation is done. *)
Lemma run_unfold fuel termination_conds_ env s :
  run caller fuel termination_conds_ env s =
  match _validate_run_state (set_termination_conds s termination_conds_) with
  | Ok validated =>
      let g := trial_loop caller fuel env (reset_trial validated) in
      (g.1, match g.2 with
            | Ok (env', s') => Ok (execution_list s', env', _increment_time s' TRIAL)
            | Raise e => Raise e
            | OutOfFuel => OutOfFuel
            end)
  | Raise e => ([], Raise e)
  | OutOfFuel => ([], OutOfFuel)
  end.
Proof.
  unfold run.
  destruct (_validate_run_state (set_termination_conds s termination_conds_))
    as [validated|e|]; [|done..].
  rewrite gen_bind_lift_Ok. cbv zeta.
  destruct (trial_loop caller fuel env (reset_trial validated)) as [ys [[env1 s1]| |]];
    [|done..].
  rewrite gen_bind_pair. cbn [fst snd]. by rewrite app_nil_r.
Qed.

(** Validation when the end of the TRIAL has a Condition. *)
Lemma validated_ready s termination_conds_ :
  (∀ ts, dom (counts_total s ts) = list_to_set (nodes s)) →
  (∀ entry X, entry ∈ consideration_queue s → X ∈ entry → X ∈ nodes s) →
  match termination_conds_ with
  | None => True
  | Some conds => ∃ c, conds !! TRIAL = Some (Some c)
  end →
  ∃ validated,
    _validate_run_state (set_termination_conds s termination_conds_) = Ok validated ∧
    ready (nodes s) (consideration_queue s) (reset_trial validated).
Proof.
  intros Htot Hq Htc.
  set (s0 := set_termination_conds s termination_conds_).
  assert (Hterm : ∃ conds' c,
            _validate_termination (_validate_condition_set s0)
              = Ok (set_termination_conds (_validate_condition_set s0) (Some conds')) ∧
            conds' !! TRIAL = Some (Some c)).
  { destruct termination_conds_ as [conds|].
    - destruct Htc as [c Hc].
      pose proof (validate_termination_dict (_validate_condition_set s0) conds) as Hdict.
      rewrite validate_condition_set_termination in Hdict. specialize (Hdict eq_refl).
      rewrite Hc in Hdict. cbn [maps_to_None] in Hdict.
      destruct Hdict as (conds' & Hrun & Hconds'). exists conds', (bind_scheduler c).
      split; [done|]. by rewrite Hconds', Hc.
    - destruct (validate_termination_default (_validate_condition_set s0))
        as (conds' & Hrun & Hconds'); [by rewrite validate_condition_set_termination|].
      eexists conds', _. split; [done|]. apply Hconds'. }
  destruct Hterm as (conds' & c & Hrun & Hc).
  eexists. split; [exact Hrun|].
  pose proof (validate_condition_set_frame s0) as (_ & Hq0 & Hn0 & _ & Htot0 & _).
  pose proof (add_defaults (nodes s0) s0) as [Hlook _]. cbn zeta in Hlook.
  fold (_validate_condition_set s0) in Hlook.
  set (v := _validate_condition_set s0) in *. clearbody v.
  change (nodes s0) with (nodes s) in *.
  change (consideration_queue s0) with (consideration_queue s) in *.
  change (counts_total s0) with (counts_total s) in *.
  unfold ready, reset_trial, counters_cover. cbn.
  rewrite Hq0, Hn0, Htot0.
  split; [done|]. split; [done|]. split; [|split; [|split]].
  - split; [|split].
    + intros ts. rewrite dom_reset_count. apply Htot.
    + unfold zero_table. apply dom_gset_to_gmap.
    + intros n row Hrow. unfold zero_table in Hrow.
      apply lookup_gset_to_gmap_Some in Hrow as [_ <-]. apply dom_gset_to_gmap.
  - intros X HX. rewrite Hlook. destruct (condition_set s0 !! X); [eauto|].
    rewrite decide_True by done. eauto.
  - exact Hq.
  - by exists conds', c.
Qed.

(** A dictionary of termination conditions without the key TRIAL passes
    validation, and the first test of the outer loop indexes it. *)
Lemma validate_without_trial_key conds s :
  conds !! TRIAL = None →
  ∃ validated, _validate_run_state (set_termination_conds s (Some conds)) = Ok validated.
Proof.
  intros Hc.
  pose proof (validate_termination_dict
                (_validate_condition_set (set_termination_conds s (Some conds))) conds) as Hdict.
  rewrite validate_condition_set_termination in Hdict. specialize (Hdict eq_refl).
  rewrite Hc in Hdict. cbn [maps_to_None] in Hdict.
  destruct Hdict as (conds' & Hrun & _). eexists. exact Hrun.
Qed.

Lemma run_without_trial_key fuel conds env s :
  conds !! TRIAL = None →
  run caller (S fuel) (Some conds) env s = ([], Raise KeyError).
Proof.
  intros Hc. rewrite run_unfold.
  set (s0 := set_termination_conds s (Some conds)).
  pose proof (validate_termination_dict (_validate_condition_set s0) conds) as Hdict.
  rewrite validate_condition_set_termination in Hdict. specialize (Hdict eq_refl).
  rewrite Hc in Hdict. cbn [maps_to_None] in Hdict.
  destruct Hdict as (conds' & Hrun & Hconds').
  unfold _validate_run_state. rewrite Hrun. cbv zeta.
  assert (Hstop : ∀ env0, trial_terminated env0
            (reset_trial (set_termination_conds (_validate_condition_set s0) (Some conds')))
            = Raise KeyError).
  { intros env0. unfold trial_terminated, getitem. cbn [reset_trial termination_conds
      _reset_time set_times set_counts_total set_counts_useable set_termination_conds].
    by rewrite Hconds', Hc. }
  cbn [trial_loop]. by rewrite Hstop.
Qed.

(** X11. A dictionary of termination conditions that lacks the key TRIAL
    (the empty dictionary, say) is accepted by validation, which only
    looks at the keys that are there; [run] then fails with [KeyError] at
    the first test of its outer loop, before anything is yielded. *)
Theorem missing_trial_key fuel conds env s :
  conds !! TRIAL = None →
  (∃ validated, _validate_run_state (set_termination_conds s (Some conds)) = Ok validated) ∧
  run caller (S fuel) (Some conds) env s = ([], Raise KeyError).
Proof.
  intros Hc. split; [by apply validate_without_trial_key|by apply run_without_trial_key].
Qed.

(** X12. The constructor does not check the ordering against the nodes,
    and [run] pays for it. When the first node of the first layer of the
    consideration queue is not one of the scheduler's nodes, so that there
    is no counter for it, validation still succeeds, and a run that gets to
    its first PASS fails with [KeyError] before anything is yielded: at the
    lookup of the node's Condition when it has none, and at the first
    update of its counters when it has one that holds. *)
Theorem stray_queue_node fuel termination_conds_ env s validated X layer queue :
  consideration_queue s = Iterable (X :: layer) :: queue →
  X ∉ nodes s →
  (∀ ts, counts_total s ts !! X = None) →
  _validate_run_state (set_termination_conds s termination_conds_) = Ok validated →
  trial_terminated env (reset_trial validated) = Ok false →
  trial_terminated env (reset_pass (reset_trial validated)) = Ok false →
  (∀ c, condition_set s !! X = Some c →
        is_satisfied c env (reset_pass (reset_trial validated)) = Ok true) →
  run caller (S fuel) termination_conds_ env s = ([], Raise KeyError).
Proof.
  intros Hq Hstray Hcount Hval Hstart Hpass Hsat.
  rewrite run_unfold, Hval. cbv zeta.
  pose proof (validate_run_state_frame _ _ Hval) as (_ & Hq' & _ & _ & Htot & _).
  cbn [consideration_queue counts_total set_termination_conds] in Hq', Htot.
  rewrite Hq in Hq'.
  assert (Hcs : condition_set validated !! X = condition_set s !! X).
  { unfold _validate_run_state, _validate_termination in Hval. inv_bind Hval.
    injection Hval as <-. cbn [condition_set set_termination_conds].
    pose proof (add_defaults (nodes s) (set_termination_conds s termination_conds_))
      as [Hlook _]. cbn zeta in Hlook.
    change (nodes s) with (nodes (set_termination_conds s termination_conds_)) in Hlook at 1.
    fold (_validate_condition_set (set_termination_conds s termination_conds_)) in Hlook.
    rewrite Hlook. cbn [condition_set set_termination_conds].
    destruct (condition_set s !! X); [done|]. by rewrite decide_False. }
  assert (Hno : counts_total (reset_pass (reset_trial validated)) TIME_STEP !! X = None).
  { apply not_elem_of_dom.
    change (counts_total (reset_pass (reset_trial validated)) TIME_STEP)
      with (_reset_count (_reset_count (counts_total validated) TRIAL) PASS TIME_STEP).
    rewrite !dom_reset_count, Htot. apply not_elem_of_dom, Hcount. }
  assert (Hlayer : consider_layer env (X :: layer) (reset_pass (reset_trial validated)) false
                   = Raise KeyError).
  { assert (Hcons : consider env X (mkFrame (reset_pass (reset_trial validated)) ∅ false false)
                      = Raise KeyError).
    { unfold consider. cbn [cur_time_step_exec self].
      rewrite decide_True by apply not_elem_of_empty.
      unfold getitem at 1.
      change (condition_set (reset_pass (reset_trial validated)))
        with (condition_set validated).
      rewrite Hcs. destruct (condition_set s !! X) as [c|] eqn:Hc; [|done].
      cbn [mbind result_bind rbind]. rewrite (Hsat c eq_refl).
      assert (Hincr : incr_total X TIME_STEP (counts_total (reset_pass (reset_trial validated)))
                      = Raise KeyError)
        by (unfold incr_total, getitem; by rewrite Hno).
      unfold record_execution, all_TimeScale. rewrite for_each_cons, Hincr. done. }
    unfold consider_layer. cbn [layer_loop]. unfold scan. rewrite for_each_cons.
    cbn [cur_time_step_exec self execution_list_has_changed]. by rewrite Hcons. }
  assert (Hloop : trial_loop caller (S fuel) env (reset_trial validated)
                  = ([], Raise KeyError)).
  { cbn [trial_loop]. rewrite Hstart, gen_bind_lift_Ok. unfold run_pass.
    change (consideration_queue (reset_pass (reset_trial validated)))
      with (consideration_queue validated).
    rewrite Hq'. cbn [walk]. rewrite Hpass, gen_bind_lift_Ok, Hlayer. done. }
  by rewrite Hloop.
Qed.

(** The walk of a queue in two parts, when the termination condition does
    not hold where the first part ends. *)
Lemma walk_app q1 q2 env s changed ys env1 s1 changed1 :
  walk caller q1 env s changed = (ys, Ok (env1, s1, changed1)) →
  trial_terminated env1 s1 = Ok false →
  walk caller (q1 ++ q2) env s changed =
    (ys ++ (walk caller q2 env1 s1 changed1).1, (walk caller q2 env1 s1 changed1).2).
Proof.
  revert env s changed ys. induction q1 as [|entry q1 IH]; intros env s changed ys Hwalk Hgo.
  - injection Hwalk as <- <- <- <-. cbn [app]. by destruct (walk caller q2 env s changed).
  - cbn [app walk] in *.
    apply gen_bind_Ok in Hwalk as (stop & ys0 & ys1 & Hcheck & Hwalk & ->).
    injection Hcheck as <- Hcheck. rewrite Hcheck, gen_bind_lift_Ok. cbn [app].
    destruct stop.
    { injection Hwalk as <- <- <- <-. congruence. }
    destruct entry as [layer|]; [|discriminate Hwalk].
    apply gen_bind_Ok in Hwalk as (f & ys0 & ys2 & Hlayer & Hwalk & ->).
    injection Hlayer as <- Hlayer. rewrite Hlayer, gen_bind_lift_Ok. cbn [app].
    apply gen_bind_Ok in Hwalk as ([env2 s2] & ys1 & ys3 & Hemit & Hwalk & ->).
    rewrite Hemit, gen_bind_pair. cbv beta iota.
    rewrite (IH _ _ _ _ Hwalk Hgo). cbn [fst snd]. by rewrite app_assoc.
Qed.

(** X15. An entry of the consideration queue that cannot be iterated, such
    as a node in a flat ordering, is only found out when a PASS gets to it:
    the sets of the layers before it are yielded as usual, then the PASS
    raises [SchedulerError], nothing is yielded for the entries after it,
    and the [run] the PASS belongs to ends with that exception. *)
Theorem entry_not_iterable env s q1 q2 ys env1 s1 changed1 :
  consideration_queue s = q1 ++ NotIterable :: q2 →
  walk caller q1 env (reset_pass s) false = (ys, Ok (env1, s1, changed1)) →
  trial_terminated env1 s1 = Ok false →
  run_pass caller env s = (ys, Raise SchedulerError) ∧
  ∀ fuel, trial_terminated env s = Ok false →
          trial_loop caller (S fuel) env s = (ys, Raise SchedulerError).
Proof.
  intros Hq Hwalk Hgo.
  assert (Hpass : run_pass caller env s = (ys, Raise SchedulerError)).
  { unfold run_pass. change (consideration_queue (reset_pass s)) with (consideration_queue s).
    rewrite Hq, (walk_app _ (NotIterable :: q2) _ _ _ _ _ _ _ Hwalk Hgo).
    cbn [walk]. rewrite Hgo, gen_bind_lift_Ok. cbn [lift fst snd].
    by rewrite app_nil_r. }
  split; [done|]. intros fuel Hstart. cbn [trial_loop].
  by rewrite Hstart, gen_bind_lift_Ok, Hpass.
Qed.

(** X13. Where the exceptions of [run] come from. On a scheduler that has
    a total count for exactly its nodes, as the constructor leaves it, and
    only nodes in the entries of its consideration queue that can be
    iterated, an exception of [run] is one of four: the [SchedulerError] of
    validation, when the dictionary given maps TRIAL to [None]; the
    [KeyError] of a dictionary without the key TRIAL; the [SchedulerError]
    of lines 426-431, which needs an entry of the queue that cannot be
    iterated; or an exception that evaluating a Condition raised. The first
    two come before anything is yielded. In particular the scheduler's own
    lookups of conditions and counters never fail, and with a queue of
    iterables the third cannot happen. A run that ends normally leaves the
    scheduler with the same nodes and queue and with all its counters, so
    these properties hold again for the next [run]. *)
Theorem exceptions_of_run fuel termination_conds_ env s :
  (∀ ts, dom (counts_total s ts) = list_to_set (nodes s)) →
  (∀ entry X, entry ∈ consideration_queue s → X ∈ entry → X ∈ nodes s) →
  (∀ ys e, run caller fuel termination_conds_ env s = (ys, Raise e) →
     (e = SchedulerError ∧ ys = [] ∧
      ∃ conds, termination_conds_ = Some conds ∧ conds !! TRIAL = Some None) ∨
     (e = KeyError ∧ ys = [] ∧
      ∃ conds, termination_conds_ = Some conds ∧ conds !! TRIAL = None) ∨
     (e = SchedulerError ∧ NotIterable ∈ consideration_queue s) ∨
     from_condition e) ∧
  (∀ ys ret env' s', run caller fuel termination_conds_ env s = (ys, Ok (ret, env', s')) →
     ready (nodes s) (consideration_queue s) s' ∧
     (∀ ts, dom (counts_total s' ts) = list_to_set (nodes s')) ∧
     (∀ entry X, entry ∈ consideration_queue s' → X ∈ entry → X ∈ nodes s')).
Proof.
  intros Htot Hq.
  assert (Hcases :
    (match termination_conds_ with
     | None => True
     | Some conds => ∃ c, conds !! TRIAL = Some (Some c)
     end) ∨
    (∃ conds, termination_conds_ = Some conds ∧ conds !! TRIAL = Some None) ∨
    (∃ conds, termination_conds_ = Some conds ∧ conds !! TRIAL = None)).
  { destruct termination_conds_ as [conds|]; [|by left].
    destruct (conds !! TRIAL) as [[c|]|] eqn:E; [left|right; left|right; right]; eauto. }
  destruct Hcases as [Hgood|[(conds & -> & Hc)|(conds & -> & Hc)]].
  - destruct (validated_ready s termination_conds_ Htot Hq Hgood) as (validated & Hval & Hready).
    rewrite run_unfold, Hval. cbv zeta.
    pose proof (trial_loop_safe (nodes s) (consideration_queue s) (λ _, True)
                  (λ _ _ _ _ _ _ _, Logic.I) (λ _ _ _, Logic.I) (λ _ _ _ _ _, Logic.I)
                  fuel env _ (conj Hready Logic.I))
      as Hsafe.
    destruct (trial_loop caller fuel env (reset_trial validated)) as [ys1 [[env1 s1]|e1|]];
      cbn [fst snd safely] in *.
    + split; [done|]. intros ys ret env' s' [= <- <- <- <-].
      pose proof (ready_increment _ _ _ TRIAL (proj1 Hsafe)) as Hfinal.
      split; [done|]. destruct Hfinal as (Hn & Hq0 & (Hcov & _) & _ & Hq' & _).
      rewrite Hn, Hq0. done.
    + split; [|done]. intros ys e [= <- <-].
      destruct Hsafe as [Hcond|Hentry]; [by right; right; right|by right; right; left].
    + done.
  - pose proof (validate_termination_dict
                  (_validate_condition_set (set_termination_conds s (Some conds))) conds)
      as Hdict.
    rewrite validate_condition_set_termination in Hdict. specialize (Hdict eq_refl).
    rewrite Hc in Hdict. cbn [maps_to_None] in Hdict.
    rewrite run_unfold. unfold _validate_run_state. rewrite Hdict.
    split; [|done]. intros ys e [= <- <-]. left. eauto.
  - destruct fuel as [|fuel].
    + rewrite run_unfold. destruct (validate_without_trial_key conds s Hc) as [validated ->].
      done.
    + rewrite (run_without_trial_key _ _ _ _ Hc).
      split; [|done]. intros ys e [= <- <-]. right; left. eauto.
Qed.

(** ** The usable credit stays within the runs of the trial *)

Lemma credit_covered s (ns : gset node) a b :
  counters_cover s ns → a ∈ ns → b ∈ ns → is_Some (credit (counts_useable s) a b).
Proof.
  intros (_ & Huse & Hrows) Ha Hb. unfold credit.
  rewrite <- Huse in Ha. apply elem_of_dom in Ha as [row Hrow]. rewrite Hrow. simpl.
  apply elem_of_dom. by rewrite (Hrows _ _ Hrow).
Qed.

Lemma credit_Some_dom s (ns : gset node) a b c :
  counters_cover s ns → credit (counts_useable s) a b = Some c → a ∈ ns ∧ b ∈ ns.
Proof.
  intros (_ & Huse & Hrows). unfold credit.
  destruct (counts_useable s !! a) as [row|] eqn:Hrow; [|done]. simpl. intros Hb.
  split.
  - rewrite <- Huse. apply elem_of_dom. eauto.
  - rewrite <- (Hrows _ _ Hrow). apply elem_of_dom. eauto.
Qed.

Lemma credit_bounded_record ns queue s X s' :
  ready ns queue s → X ∈ ns → credit_bounded s → record_execution s X = Ok s' →
  credit_bounded s'.
Proof.
  intros (_ & _ & Hcov & _) HX Hbound Hrec.
  assert (HX' : X ∈ (list_to_set ns : gset node)) by (by apply elem_of_list_to_set).
  pose proof (record_execution_cover _ _ _ _ Hcov HX' Hrec) as Hcov'.
  apply record_execution_Ok in Hrec as (Htot & _ & Hzero & Hplus & Hself & Hother & _).
  assert (Hdom : dom (counts_useable s) = list_to_set ns) by apply Hcov.
  intros a b c Hc.
  destruct (credit_Some_dom _ _ _ _ _ Hcov' Hc) as [Ha Hb].
  destruct (Htot TRIAL) as (cX & HcX & ->).
  destruct (decide (a = X)) as [->|Ha']; destruct (decide (b = X)) as [->|Hb'].
  - rewrite Hself in Hc by (by rewrite Hdom). injection Hc as <-.
    rewrite lookup_insert_eq. eexists. split; [done|].
    destruct (credit_covered _ _ X X Hcov HX' HX') as [c0 Hc0].
    destruct (Hbound _ _ _ Hc0) as (t & Ht & Hle). rewrite HcX in Ht. injection Ht as <-. lia.
  - destruct (Hplus b) as (c0 & Hc0 & Hc1); [by rewrite Hdom|done|].
    rewrite Hc1 in Hc. injection Hc as <-.
    rewrite lookup_insert_eq. eexists. split; [done|].
    destruct (Hbound _ _ _ Hc0) as (t & Ht & Hle). rewrite HcX in Ht. injection Ht as <-. lia.
  - rewrite Hzero in Hc by (by rewrite ?Hdom). injection Hc as <-.
    rewrite lookup_insert_ne by done.
    destruct (credit_covered _ _ a X Hcov Ha HX') as [c0 Hc0].
    destruct (Hbound _ _ _ Hc0) as (t & Ht & Hle). exists t. split; [done|]. lia.
  - rewrite Hother in Hc by done. rewrite lookup_insert_ne by done.
    exact (Hbound _ _ _ Hc).
Qed.

Lemma credit_bounded_reset_pass s : credit_bounded s → credit_bounded (reset_pass s).
Proof. intros Hbound a b c Hc. exact (Hbound _ _ _ Hc). Qed.

Lemma credit_bounded_counters s s' :
  counts_total s' = counts_total s → counts_useable s' = counts_useable s →
  credit_bounded s → credit_bounded s'.
Proof. intros Htot Huse Hbound a b c. rewrite Htot, Huse. apply Hbound. Qed.

Lemma credit_bounded_reset_trial s :
  (∀ ts, dom (counts_total s ts) = list_to_set (nodes s)) →
  credit_bounded (reset_trial s).
Proof.
  intros Htot a b c Hc. unfold reset_trial in *. cbn in Hc.
  rewrite credit_zero_table in Hc. destruct (decide (a ∈ nodes s ∧ b ∈ nodes s)) as [[Ha _]|];
    [|done].
  injection Hc as <-. exists 0%Z. split; [|lia].
  cbn. unfold _reset_count. rewrite decide_True by done. rewrite lookup_fmap.
  assert (is_Some (counts_total s TRIAL !! a)) as [t ->]; [|done].
  apply elem_of_dom. rewrite Htot. by apply elem_of_list_to_set.
Qed.

(** A run that ends normally went through validation and the trial loop. *)
Lemma run_Ok_trial_loop fuel termination_conds_ env s ys ret env' s' :
  run caller fuel termination_conds_ env s = (ys, Ok (ret, env', s')) →
  ∃ validated s1,
    _validate_run_state (set_termination_conds s termination_conds_) = Ok validated ∧
    trial_loop caller fuel env (reset_trial validated) = (ys, Ok (env', s1)) ∧
    s' = _increment_time s1 TRIAL ∧
    match termination_conds_ with
    | None => True
    | Some conds => ∃ c, conds !! TRIAL = Some (Some c)
    end.
Proof.
  rewrite run_unfold. intros Hrun.
  destruct (_validate_run_state (set_termination_conds s termination_conds_))
    as [validated| |] eqn:Hval; [|done..].
  cbv zeta in Hrun.
  destruct (trial_loop caller fuel env (reset_trial validated)) as [ys1 [[env1 s1]| |]] eqn:Hloop;
    [|done..].
  cbn [fst snd] in Hrun. injection Hrun as <- <- <- <-.
  exists validated, s1. split; [done|]. split; [done|]. split; [done|].
  destruct termination_conds_ as [conds|]; [|done].
  destruct (conds !! TRIAL) as [[c|]|] eqn:Hc; [by eexists|..].
  - pose proof (validate_termination_dict
                  (_validate_condition_set (set_termination_conds s (Some conds))) conds)
      as Hdict.
    rewrite validate_condition_set_termination in Hdict. specialize (Hdict eq_refl).
    rewrite Hc in Hdict. cbn [maps_to_None] in Hdict.
    unfold _validate_run_state in Hval. by rewrite Hdict in Hval.
  - destruct fuel as [|fuel]; [done|].
    pose proof (run_without_trial_key fuel conds env s Hc) as Hkey.
    rewrite run_unfold, Hval in Hkey. cbv zeta in Hkey. by rewrite Hloop in Hkey.
Qed.

(** X14. The usable credit stays within the runs of the trial. On a
    scheduler that has a total count for exactly its nodes and only nodes
    in its consideration queue, when [run()] ends normally
    [counts_useable[a][b]] exists for all nodes [a] and [b] and lies between
    0 and the number of yielded sets that [a] is in: a node never has more
    credit to spend than the other node has run in this trial, and credit
    left by earlier runs does not count. *)
Theorem credit_within_runs fuel termination_conds_ env s ys ret env' s' :
  (∀ ts, dom (counts_total s ts) = list_to_set (nodes s)) →
  (∀ layer X, layer ∈ consideration_queue s → X ∈ layer → X ∈ nodes s) →
  run caller fuel termination_conds_ env s = (ys, Ok (ret, env', s')) →
  ∀ a b, a ∈ nodes s → b ∈ nodes s →
    ∃ c, credit (counts_useable s') a b = Some c ∧ (0 ≤ c ≤ occurrences a ys)%Z.
Proof.
  intros Htot Hq Hrun a b Ha Hb.
  apply run_Ok_trial_loop in Hrun as (validated & s1 & Hval & Hloop & -> & Hgood).
  destruct (validated_ready s termination_conds_ Htot Hq Hgood) as (validated' & Hval' & Hready).
  rewrite Hval in Hval'. injection Hval' as <-.
  pose proof (validate_run_state_frame _ _ Hval) as (_ & _ & Hn & _ & Htot' & _).
  cbn [nodes counts_total set_termination_conds] in Hn, Htot'.
  assert (Hstart : credit_bounded (reset_trial validated)).
  { apply credit_bounded_reset_trial. intros ts. by rewrite Hn, Htot'. }
  pose proof (trial_loop_safe (nodes s) (consideration_queue s) credit_bounded
                (credit_bounded_record (nodes s) (consideration_queue s))
                (λ s0 _, credit_bounded_reset_pass s0)
                credit_bounded_counters fuel env _ (conj Hready Hstart)) as Hsafe.
  rewrite Hloop in Hsafe. cbn [fst snd safely] in Hsafe.
  destruct Hsafe as [(_ & _ & Hcov & _) Hbound].
  change (counts_useable (_increment_time s1 TRIAL)) with (counts_useable s1).
  destruct (credit_covered s1 _ a b Hcov) as [c Hc]; [by apply elem_of_list_to_set..|].
  exists c. split; [done|].
  destruct (Hbound _ _ _ Hc) as (t & Ht & Hle).
  apply trial_loop_history in Hloop as (_ & Hcnt & _).
  rewrite Hcnt in Ht by done.
  assert (Hzero : counts_total (reset_trial validated) TRIAL !! a
                  = (λ _, 0%Z) <$> counts_total s TRIAL !! a).
  { unfold reset_trial, _reset_count. cbn. rewrite decide_True by done.
    by rewrite lookup_fmap, Htot'. }
  rewrite Hzero in Ht. destruct (counts_total s TRIAL !! a); [|done].
  cbn in Ht. injection Ht as <-. lia.
Qed.

End MoreProperties.

Section LinearChainWitnesses.
Import condition LinearChain.

(** C2, as the claim words it, fails on the linear chain. With no
    termination conditions given the TRIAL condition is unset, yet
    validation raises nothing and binds TRIAL to [AllHaveRun()]; and with
    [{ts: None for ts in TimeScale}] in which only TRIAL is filled in,
    validation succeeds and leaves PASS mapped to [None] instead of
    defaulting it to [AllHaveRun()]. *)
Lemma validation_of_termination_conds_counterexample :
  (∃ s' conds', _validate_run_state (set_termination_conds constructed None) = Ok s' ∧
     termination_conds s' = Some conds' ∧
     conds' !! TRIAL = Some (Some (bind_scheduler (new_condition (AllHaveRun TRIAL))))) ∧
  (∃ s' conds',
     _validate_run_state
       (set_termination_conds constructed (only_trial (AfterNCalls C 1 TRIAL))) = Ok s' ∧
     termination_conds s' = Some conds' ∧
     conds' !! PASS = Some None).
Proof.
  split.
  - eexists _, _. split; [vm_compute; reflexivity|]. split; [reflexivity|].
    vm_compute. reflexivity.
  - eexists _, _. split; [vm_compute; reflexivity|]. split; [reflexivity|].
    vm_compute. reflexivity.
Qed.

Lemma selection_updates_counters_witness :
  consider () A first_frame = Ok after_A ∧
  (A ∉ cur_time_step_exec first_frame) ∧
  A ∈ cur_time_step_exec after_A ∧
  credit (counts_useable (self after_A)) B A = Some 0%Z.
Proof.
  assert (Hrun : consider () A first_frame = Ok after_A) by (vm_compute; reflexivity).
  assert (Hbefore : A ∉ cur_time_step_exec first_frame) by apply not_elem_of_empty.
  assert (Hafter : A ∈ cur_time_step_exec after_A).
  { apply (bool_decide_unpack _). vm_compute. exact I. }
  split; [exact Hrun|]. split; [exact Hbefore|]. split; [exact Hafter|].
  destruct (selection_updates_counters () A first_frame after_A Hrun Hbefore Hafter)
    as (_ & _ & Hzero & _).
  apply Hzero.
  - apply (bool_decide_unpack _). vm_compute. exact I.
  - discriminate.
Defined.

Lemma self_credit_is_one_witness :
  record_execution started A = Ok (self after_A) ∧
  A ∈ dom (counts_useable started) ∧
  credit (counts_useable (self after_A)) A A = Some 1%Z.
Proof.
  assert (Hrun : record_execution started A = Ok (self after_A)) by (vm_compute; reflexivity).
  assert (HA : A ∈ dom (counts_useable started)).
  { apply (bool_decide_unpack _). vm_compute. exact I. }
  split; [exact Hrun|]. split; [exact HA|].
  exact (proj1 (proj2 (self_credit_is_one started A (self after_A) Hrun HA))).
Defined.

Lemma linear_chain_acyclic : acyclic (executionGraph s).
Proof.
  set (rank := λ m : mech, match m with A => 0 | B => 1 | C => 2 end).
  assert (Hrank : ∀ x y, tc (depends_on (executionGraph s)) x y → rank y < rank x).
  { induction 1 as [x y Hxy|x z y Hxz _ IH].
    - unfold depends_on in Hxy. destruct x, y; simpl; try lia; exfalso;
        revert Hxy; apply (bool_decide_eq_false_1 _); vm_compute; reflexivity.
    - assert (rank z < rank x); [|lia].
      unfold depends_on in Hxz. destruct x, z; simpl; try lia; exfalso;
        revert Hxz; apply (bool_decide_eq_false_1 _); vm_compute; reflexivity. }
  intros x Hx. apply Hrank in Hx. lia.
Qed.

Lemma consideration_queue_layers_witness :
  acyclic (executionGraph s) ∧
  ∃ i j,
    in_layer (consideration_queue
                (_init_consideration_queue_from_system constructed s).1) i A ∧
    in_layer (consideration_queue
                (_init_consideration_queue_from_system constructed s).1) j B ∧
    i < j.
Proof.
  split; [exact linear_chain_acyclic|].
  destruct (consideration_queue_layers constructed s linear_chain_acyclic)
    as (_ & _ & _ & _ & Hedges).
  apply Hedges. apply (bool_decide_unpack _). vm_compute. exact I.
Defined.

Lemma recurrent_has_cycle : has_cycle (executionGraph recurrent).
Proof.
  exists A. apply tc_l with B; [|apply tc_once]; unfold depends_on;
    apply (bool_decide_unpack _); vm_compute; exact I.
Qed.

Lemma cyclic_graph_rejected_witness :
  has_cycle (executionGraph recurrent) ∧
  __init__ (C := Cond mech unit) (Some recurrent) None None None = Raise CyclicGraphError.
Proof.
  split; [exact recurrent_has_cycle|].
  exact (proj2 (proj2 (cyclic_graph_rejected constructed recurrent None None None
                         recurrent_has_cycle))).
Defined.

(** The constructor builds the queue A, B, C from the System's graph. *)
Example linear_chain_queue :
  consideration_queue constructed = [Iterable [A]; Iterable [B]; Iterable [C]].
Proof. vm_compute. reflexivity. Qed.

(** A run is pinned down by its yields and by the list it returns; the
    final scheduler is read off the run itself. (The final scheduler holds
    its clocks and counts as functions, which are only ever evaluated at
    given time scales.) *)
Lemma run_outcome (g : gen (list (gset mech) * unit * Scheduler mech (Cond mech unit)))
    (ys ret : list (gset mech)) dflt :
  g.1 = ys →
  match g.2 with Ok (ret', _, _) => ret' = ret | _ => False end →
  g = (ys, Ok (ret, (), match g.2 with Ok (_, _, sched) => sched | _ => dflt end)).
Proof.
  destruct g as [ys' [[[ret' []] sched]| |]]; simpl; [|done..].
  by intros -> ->.
Qed.

(** C4. On the linear chain A → B → C, with [EveryNCalls(A, 2)] on B,
    [EveryNCalls(B, 3)] on C, the implicit [Always] on A and no termination
    conditions given (so [AllHaveRun] on the TRIAL scale), [run()] yields
    exactly A, A, B, A, A, B, A, A, B, C, ten time steps, and returns that
    list: it does so within seven evaluations of the outer loop's condition,
    and however many more are allowed. *)
Theorem linear_chain_sequence (k : nat) :
  execution_sequence (7 + k) = (expected, Ok (expected, (), finished)) ∧
  length (execution_sequence (7 + k)).1 = 10.
Proof.
  assert (Hrun : execution_sequence (7 + k) = (expected, Ok (expected, (), finished))).
  { unfold execution_sequence. apply run_more_fuel.
    unfold finished, execution_sequence. apply run_outcome; vm_compute; reflexivity. }
  split; [exact Hrun|]. rewrite Hrun. reflexivity.
Qed.

(** With "A has run" as the TRIAL termination condition the first PASS
    stops after its first layer. *)
Lemma termination_stops_walk_witness :
  consideration_queue (started_with until_A)
    = [Iterable [A]] ++ [Iterable [B]; Iterable [C]] ∧
  trial_terminated () (started_with until_A) = Ok false ∧
  walk collect [Iterable [A]] () (reset_pass (started_with until_A)) false
    = ([{[A]}], Ok ((), after_first_layer until_A, true)) ∧
  trial_terminated () (after_first_layer until_A) = Ok true ∧
  walk collect ([Iterable [A]] ++ [Iterable [B]; Iterable [C]]) ()
       (reset_pass (started_with until_A)) false
    = ([{[A]}], Ok ((), after_first_layer until_A, true)).
Proof.
  assert (Hq : consideration_queue (started_with until_A)
               = [Iterable [A]] ++ [Iterable [B]; Iterable [C]])
    by (vm_compute; reflexivity).
  assert (Hbegin : trial_terminated () (started_with until_A) = Ok false)
    by (vm_compute; reflexivity).
  assert (Hwalk : walk collect [Iterable [A]] () (reset_pass (started_with until_A)) false
                  = ([{[A]}], Ok ((), after_first_layer until_A, true)))
    by (vm_compute; reflexivity).
  assert (Hstop : trial_terminated () (after_first_layer until_A) = Ok true)
    by (vm_compute; reflexivity).
  split; [exact Hq|]. split; [exact Hbegin|]. split; [exact Hwalk|]. split; [exact Hstop|].
  destruct (termination_stops_walk collect () (started_with until_A)
              [Iterable [A]] [Iterable [B]; Iterable [C]]
              [{[A]}] () (after_first_layer until_A) true 0 Hq Hbegin Hwalk Hstop)
    as (ys & env2 & s2 & Hfull & _).
  exact Hfull.
Defined.

(** C8 at its failing input: the linear chain run with
    [All(AfterNCalls(A, 1), AtPass(0))] as the TRIAL termination Condition.
    The Condition is satisfied at the boundary after the first layer of the
    first PASS, and the walk stops there, after the single yield of A. The
    module's documentation says that the run terminates then. It does not:
    the PASS clock advances, the outer loop finds the Condition no longer
    satisfied, and the same [run()] goes on to select A and B again. *)
Lemma termination_stops_walk_counterexample :
  walk collect (consideration_queue (started_with until_A_in_first_pass)) ()
       (reset_pass (started_with until_A_in_first_pass)) false
    = ([{[A]}], Ok ((), after_first_layer until_A_in_first_pass, true)) ∧
  trial_terminated () (after_first_layer until_A_in_first_pass) = Ok true ∧
  (trial_loop collect 2 () (started_with until_A_in_first_pass)).1
    = [{[A]}; {[A]}; {[B]}] ∧
  (run collect 2 until_A_in_first_pass () constructed).1 = [{[A]}; {[A]}; {[B]}].
Proof.
  split; [vm_compute; reflexivity|]. split; [vm_compute; reflexivity|].
  split; vm_compute; reflexivity.
Qed.

(** A second [run()] on the scheduler the first one left behind. *)
Lemma history_is_kept_witness :
  run collect 7 None () finished
    = (expected, Ok (expected ++ expected, (), finished_again)) ∧
  execution_list finished_again = execution_list finished ++ expected ∧
  counts_total finished_again LIFE !! A = Some 12%Z.
Proof.
  assert (Hrun : run collect 7 None () finished
                 = (expected, Ok (expected ++ expected, (), finished_again))).
  { unfold finished_again. apply run_outcome; vm_compute; reflexivity. }
  split; [exact Hrun|].
  destruct (history_is_kept collect 7 None () finished expected (expected ++ expected) ()
              finished_again Hrun) as (_ & Hhist & Hcount & _).
  split; [exact Hhist|].
  rewrite (Hcount LIFE A (or_intror eq_refl)).
  assert (Hfirst : counts_total finished LIFE !! A = Some 6%Z) by (vm_compute; reflexivity).
  rewrite Hfirst. reflexivity.
Defined.


(** A stalled PASS that walks the whole queue: the only node of [waiting]
    is considered and not selected. *)
Example stalled_full_pass :
  walks_whole_queue collect () waiting ∧ (run_pass collect () waiting).1 = [∅].
Proof.
  split; [|vm_compute; reflexivity].
  assert (Hq : consideration_queue waiting = [Iterable [B]]) by (vm_compute; reflexivity).
  intros q1 q2 ys env1 s1 changed1 Hsplit Hne Hwalk. rewrite Hq in Hsplit.
  destruct q1 as [|entry q1].
  - injection Hwalk as <- <- <- <-. vm_compute. reflexivity.
  - destruct q1, q2; try discriminate Hsplit. done.
Qed.

(** The first PASS of the linear chain is not stalled; on a scheduler
    whose only node waits for a call that never comes, every PASS is. *)
Example first_pass_yields :
  (run_pass collect () started).1 = [{[A]}].
Proof. vm_compute. reflexivity. Qed.

Example stalled_passes :
  (run_pass collect () waiting).1 = [∅] ∧
  trial_loop collect 3 () waiting = ([∅; ∅; ∅], OutOfFuel).
Proof. split; vm_compute; reflexivity. Qed.

(** The bound of |layer| + 1 scans is reached: with A waiting for B in the
    layer [A; B], two scans are not enough and the third ends the loop with
    both nodes in the time step. *)
Example cascade_needs_three_scans :
  layer_loop 2 () [A; B] (mkFrame cascade ∅ false false) = OutOfFuel ∧
  cur_time_step_exec <$> layer_loop 3 () [A; B] (mkFrame cascade ∅ false false)
    = Ok {[A; B]} ∧
  (run_pass collect () cascade).1 = [{[A; B]}].
Proof. repeat split; vm_compute; reflexivity. Qed.

(** Built from the System or from the list of nodes and the ordering, the
    scheduler of the linear chain is the same. *)
Example same_scheduler_from_ordering :
  my_scheduler_from_ordering = my_scheduler.
Proof. vm_compute. reflexivity. Qed.

End LinearChainWitnesses.

(** ** The further properties on the linear chain *)

Section LinearChainEdgeCases.
Import condition LinearChain.

(** The run of the module's first example. *)
Lemma linear_chain_run :
  run collect 7 None () constructed = (expected, Ok (expected, (), finished)).
Proof. unfold finished, execution_sequence. apply run_outcome; vm_compute; reflexivity. Qed.

(** When the first PASS scans the layer of B, B is left out: its
    [EveryNCalls(A, 2)] does not hold yet. *)
Lemma layer_time_step_is_maximal_witness :
  consider_layer () [B] started false = Ok first_frame ∧
  B ∈ [B] ∧
  (B ∉ cur_time_step_exec first_frame) ∧
  ∃ c, condition_set started !! B = Some c ∧ is_satisfied c () started = Ok false.
Proof.
  assert (Hrun : consider_layer () [B] started false = Ok first_frame)
    by (vm_compute; reflexivity).
  assert (Hin : B ∈ [B]) by (apply (bool_decide_unpack _); vm_compute; exact I).
  assert (Hout : B ∉ cur_time_step_exec first_frame) by apply not_elem_of_empty.
  split; [exact Hrun|]. split; [exact Hin|]. split; [exact Hout|].
  exact (layer_time_step_is_maximal () [B] started false first_frame B Hrun Hin Hout).
Defined.

(** With [Always] as the TRIAL termination condition the run of the linear
    chain yields nothing. *)
Lemma run_when_already_terminated_witness :
  _validate_run_state (set_termination_conds constructed (only_trial condition.Always))
    = Ok (validated_from constructed (only_trial condition.Always)) ∧
  trial_terminated ()
    (reset_trial (validated_from constructed (only_trial condition.Always))) = Ok true ∧
  run collect 1 (only_trial condition.Always) () constructed
    = ([], Ok (execution_list constructed, (),
               _increment_time
                 (reset_trial (validated_from constructed (only_trial condition.Always)))
                 TRIAL)).
Proof.
  assert (Hval : _validate_run_state
                   (set_termination_conds constructed (only_trial condition.Always))
                 = Ok (validated_from constructed (only_trial condition.Always)))
    by (vm_compute; reflexivity).
  assert (Hstop : trial_terminated ()
                    (reset_trial (validated_from constructed (only_trial condition.Always)))
                  = Ok true)
    by (vm_compute; reflexivity).
  split; [exact Hval|]. split; [exact Hstop|].
  exact (proj1 (run_when_already_terminated collect 0 (only_trial condition.Always) ()
                  constructed _ Hval Hstop)).
Defined.

(** A scheduler with an empty queue yields the empty set, PASS after
    PASS. *)
Lemma empty_queue_stalls_witness :
  consideration_queue idle = [] ∧
  (trial_loop collect 3 () idle).1 = [∅; ∅; ∅] ∧
  Forall (λ y, y = ∅) (trial_loop collect 3 () idle).1.
Proof.
  assert (Hq : consideration_queue idle = []) by (vm_compute; reflexivity).
  split; [exact Hq|]. split; [vm_compute; reflexivity|].
  exact (proj2 (empty_queue_stalls collect () idle Hq) 3).
Defined.


(** The TRIAL count of A after the run of the linear chain is the number of
    yielded sets A is in. *)
Lemma counts_after_run_witness :
  run collect 7 None () constructed = (expected, Ok (expected, (), finished)) ∧
  counts_total finished TRIAL !! A
    = (λ _, occurrences A expected) <$> counts_total constructed TRIAL !! A.
Proof.
  split; [exact linear_chain_run|].
  exact (proj1 (counts_after_run collect 7 None () constructed expected expected () finished
                  linear_chain_run A)).
Defined.

(** [run(termination_conds={})] on the linear chain. *)
Lemma missing_trial_key_witness :
  (∅ : gmap TimeScale (option (Condition mech (Cond mech unit)))) !! TRIAL = None ∧
  run collect 1 (Some ∅) () constructed = ([], Raise KeyError).
Proof.
  assert (Hkey : (∅ : gmap TimeScale (option (Condition mech (Cond mech unit)))) !! TRIAL
                 = None) by reflexivity.
  split; [exact Hkey|].
  exact (proj2 (missing_trial_key collect 0 ∅ () constructed Hkey)).
Defined.

(** The scheduler of the linear chain as the constructor leaves it: a
    total count for exactly its nodes, and only nodes in its queue. *)
Lemma linear_chain_counters ts :
  dom (counts_total constructed ts) = list_to_set (nodes constructed).
Proof. destruct ts; vm_compute; reflexivity. Qed.

Lemma linear_chain_queue_nodes layer X :
  layer ∈ consideration_queue constructed → X ∈ layer → X ∈ nodes constructed.
Proof. intros _ _. destruct X; apply (bool_decide_unpack _); vm_compute; exact I. Qed.

(** The scheduler of the linear chain has what [run] needs, and still has
    it after the run. *)
Lemma exceptions_of_run_witness :
  (∀ ts, dom (counts_total constructed ts) = list_to_set (nodes constructed)) ∧
  (∀ entry X, entry ∈ consideration_queue constructed → X ∈ entry → X ∈ nodes constructed) ∧
  ready (nodes constructed) (consideration_queue constructed) finished.
Proof.
  split; [exact linear_chain_counters|]. split; [exact linear_chain_queue_nodes|].
  exact (proj1 (proj2 (exceptions_of_run collect 7 None () constructed
                         linear_chain_counters linear_chain_queue_nodes)
                  expected expected () finished linear_chain_run)).
Defined.

(** After the run of the linear chain the credit of A usable by C is within
    the six time steps A ran in. *)
Lemma credit_within_runs_witness :
  run collect 7 None () constructed = (expected, Ok (expected, (), finished)) ∧
  A ∈ nodes constructed ∧ C ∈ nodes constructed ∧
  ∃ c, credit (counts_useable finished) A C = Some c ∧ (0 ≤ c ≤ occurrences A expected)%Z.
Proof.
  assert (HA : A ∈ nodes constructed) by (apply (bool_decide_unpack _); vm_compute; exact I).
  assert (HC : C ∈ nodes constructed) by (apply (bool_decide_unpack _); vm_compute; exact I).
  split; [exact linear_chain_run|]. split; [exact HA|]. split; [exact HC|].
  exact (credit_within_runs collect 7 None () constructed expected expected () finished
           linear_chain_counters linear_chain_queue_nodes linear_chain_run A C HA HC).
Defined.

(** [Scheduler(nodes=[A], toposort_ordering=[[B]])] is constructed and,
    with [Always] registered for B, validated without complaint; its first
    PASS selects B and fails on B's counters. *)
Lemma stray_queue_node_witness :
  consideration_queue stray_with_condition = [Iterable [B]] ∧
  (B ∉ nodes stray_with_condition) ∧
  run collect 1 None () stray_with_condition = ([], Raise KeyError).
Proof.
  assert (Hq : consideration_queue stray_with_condition = [Iterable [B]])
    by (vm_compute; reflexivity).
  assert (Hstray : B ∉ nodes stray_with_condition)
    by (apply (bool_decide_unpack _); vm_compute; exact I).
  assert (Hcount : ∀ ts, counts_total stray_with_condition ts !! B = None)
    by (intros ts; destruct ts; vm_compute; reflexivity).
  assert (Hval : _validate_run_state (set_termination_conds stray_with_condition None)
                 = Ok (validated_from stray_with_condition None))
    by (vm_compute; reflexivity).
  assert (Hstart : trial_terminated ()
                     (reset_trial (validated_from stray_with_condition None)) = Ok false)
    by (vm_compute; reflexivity).
  assert (Hpass : trial_terminated ()
                    (reset_pass (reset_trial (validated_from stray_with_condition None)))
                  = Ok false) by (vm_compute; reflexivity).
  assert (Hsat : ∀ c, condition_set stray_with_condition !! B = Some c →
                      is_satisfied c ()
                        (reset_pass (reset_trial (validated_from stray_with_condition None)))
                      = Ok true).
  { intros c Hc.
    assert (Hb : condition_set stray_with_condition !! B
                 = Some (mkCondition condition.Always (Some B) true))
      by (vm_compute; reflexivity).
    rewrite Hb in Hc. injection Hc as <-. reflexivity. }
  split; [exact Hq|]. split; [exact Hstray|].
  exact (stray_queue_node collect 0 None () stray_with_condition
           (validated_from stray_with_condition None) B [] []
           Hq Hstray Hcount Hval Hstart Hpass Hsat).
Defined.

(** Without a Condition for B the run fails as well, at the lookup of the
    Condition. *)
Example stray_without_condition :
  run collect 1 None () stray = ([], Raise KeyError).
Proof. vm_compute. reflexivity. Qed.

(** A flat ordering is accepted by the constructor and by validation, and
    the first PASS fails on its first entry. *)
Lemma entry_not_iterable_witness :
  consideration_queue flat = [] ++ NotIterable :: [NotIterable] ∧
  trial_terminated () (reset_pass flat) = Ok false ∧
  run_pass collect () flat = ([], Raise SchedulerError).
Proof.
  assert (Hq : consideration_queue flat = [] ++ NotIterable :: [NotIterable])
    by (vm_compute; reflexivity).
  assert (Hgo : trial_terminated () (reset_pass flat) = Ok false)
    by (vm_compute; reflexivity).
  split; [exact Hq|]. split; [exact Hgo|].
  exact (proj1 (entry_not_iterable collect () flat [] [NotIterable] [] ()
                  (reset_pass flat) false Hq eq_refl Hgo)).
Defined.

(** The whole [run()] on the flat ordering. *)
Example flat_ordering_run :
  __init__ (C := Cond mech unit) None None (Some [A; B]) (Some [NotIterable; NotIterable])
    ≠ Raise SchedulerError ∧
  (∀ sched, __init__ None None (Some [A; B]) (Some [NotIterable; NotIterable]) = Ok sched →
            run collect 1 None () sched = ([], Raise SchedulerError)).
Proof.
  split; [discriminate|]. intros sched [= <-]. vm_compute. reflexivity.
Qed.

End LinearChainEdgeCases.
